(** * InternLM attention forward (xtuner/model/modules/internlm.py)

    A shallow embedding of [rotate_half], [apply_rotary_pos_emb] and
    [internlm_attn_forward], with the properties of the attention core
    stated over it.

    Tensors are modelled the way torch stores a contiguous tensor: a shape
    and the row-major list of its elements.  Every torch primitive the
    source calls ([cat], slicing, indexing by an index tensor, broadcasting
    arithmetic, [view], [transpose], [flatten], [reshape], [squeeze],
    [unsqueeze]) is a function on that representation.  Python exceptions
    are values of [exn]; the rank-scoped MessageHub is an explicit store
    threaded through [internlm_attn_forward]. *)

From stdpp Require Import base option list gmap strings.
From Stdlib Require Import ZArith Lia Floats.

Local Open Scope nat_scope.

(** ** Exceptions and the error monad *)

Inductive exn : Type :=
  | AssertionError
  | IndexError
  | RuntimeError
  | ValueError.

Inductive result (A : Type) : Type :=
  | Ok (a : A)
  | Raise (e : exn).
Arguments Ok {A} a.
Arguments Raise {A} e.

#[global] Instance result_ret : MRet result := @Ok.
#[global] Instance result_bind : MBind result :=
  λ A B f m, match m with Ok a => f a | Raise e => Raise e end.

Definition is_Ok {A} (r : result A) : bool :=
  match r with Ok _ => true | Raise _ => false end.

(** ** Tensors *)

Record tensor (A : Type) : Type := Tensor { shape : list nat; data : list A }.
Arguments Tensor {A} shape data.
Arguments shape {A} t.
Arguments data {A} t.

(** Number of elements of a shape. *)
Definition numel (s : list nat) : nat := foldr Nat.mul 1 s.

(** A tensor is well formed when it stores exactly [numel shape] elements. *)
Definition wf {A} (t : tensor A) : Prop := length (data t) = numel (shape t).
Definition wfb {A} (t : tensor A) : bool := length (data t) =? numel (shape t).

(** [chunks k n l]: the first [n] consecutive blocks of [k] elements of [l]. *)
Fixpoint chunks {A} (k n : nat) (l : list A) : list (list A) :=
  match n with
  | 0 => []
  | S n' => take k l :: chunks k n' (drop k l)
  end.

(** [x.shape[-1]] and [x.shape[-2]]. *)
Definition size_last {A} (x : tensor A) : result nat :=
  match last (shape x) with Some d => Ok d | None => Raise IndexError end.

Definition size_last2 {A} (x : tensor A) : result nat :=
  match rev (shape x) !! 1 with Some d => Ok d | None => Raise IndexError end.

(** [x.narrow(dim, start, len)] for [start + len <= x.shape[dim]]: the
    blocks before axis [dim] each keep [len] of their [x.shape[dim]]
    sub-blocks, starting at sub-block [start]. *)
Definition narrow {A} (dim start len : nat) (x : tensor A) : result (tensor A) :=
  match shape x !! dim with
  | None => Raise IndexError
  | Some d =>
      if start + len <=? d then
        let inner := numel (drop (S dim) (shape x)) in
        Ok (Tensor (<[dim := len]> (shape x))
              (concat ((λ b, take (len * inner) (drop (start * inner) b))
                         <$> chunks (d * inner) (numel (take dim (shape x))) (data x))))
      else Raise RuntimeError
  end.

(** Basic slicing of the last axis, [x[..., lo:hi]] with non-negative
    bounds: Python clamps both bounds to the extent of the axis. *)
Definition slice_last {A} (lo : nat) (hi : option nat) (x : tensor A) : result (tensor A) :=
  d ← size_last x;
  let hi' := match hi with Some h => h `min` d | None => d end in
  let lo' := lo `min` d in
  narrow (length (shape x) - 1) lo' (hi' - lo') x.

(** [torch.cat((x, y), dim)]: all extents but the one at [dim] must agree. *)
Definition cat {A} (dim : nat) (x y : tensor A) : result (tensor A) :=
  match shape x !! dim, shape y !! dim with
  | Some dx, Some dy =>
      if bool_decide (<[dim := 0]> (shape x) = <[dim := 0]> (shape y)) then
        let outer := numel (take dim (shape x)) in
        Ok (Tensor (<[dim := dx + dy]> (shape x))
              (concat (zip_with app
                         (chunks (numel (drop dim (shape x))) outer (data x))
                         (chunks (numel (drop dim (shape y))) outer (data y)))))
      else Raise RuntimeError
  | _, _ => Raise IndexError
  end.

(** Elementwise map (unary minus is [tmap rneg]). *)
Definition tmap {A B} (f : A → B) (x : tensor A) : tensor B :=
  Tensor (shape x) (f <$> data x).

(** [x.squeeze(dim)]: drops axis [dim] when its extent is 1 and returns
    [x] as it is otherwise; for a 0-dimensional tensor [dim = 0] is in
    range. *)
Definition squeeze {A} (dim : nat) (x : tensor A) : result (tensor A) :=
  match shape x !! dim with
  | Some 1 => Ok (Tensor (delete dim (shape x)) (data x))
  | Some _ => Ok x
  | None =>
      match shape x, dim with
      | [], 0 => Ok x
      | _, _ => Raise IndexError
      end
  end.

(** [x.unsqueeze(dim)]: a new axis of extent 1 at position [dim]. *)
Definition unsqueeze {A} (dim : nat) (x : tensor A) : result (tensor A) :=
  if dim <=? length (shape x)
  then Ok (Tensor (take dim (shape x) ++ 1 :: drop dim (shape x)) (data x))
  else Raise IndexError.

(** One entry [i] of an index tensor, read against an axis of extent [n]:
    a negative entry counts from the end, anything outside [-n, n) is an
    IndexError. *)
Definition index_entry {A} (rows : list (list A)) (n : nat) (i : Z) : result (list A) :=
  let j := if (i <? 0)%Z then (i + Z.of_nat n)%Z else i in
  if ((0 <=? j) && (j <? Z.of_nat n))%Z then
    match rows !! Z.to_nat j with
    | Some r => Ok r
    | None => Raise IndexError
    end
  else Raise IndexError.

(** [x[ids]]: with an integer index tensor, the sub-tensors of [x] along
    its first axis are gathered in the layout of [ids]; [x[None]] adds a
    leading axis of extent 1. *)
Definition index_first {A} (x : tensor A) (ids : option (tensor Z)) : result (tensor A) :=
  match ids with
  | None => unsqueeze 0 x
  | Some ids =>
      match shape x with
      | [] => Raise IndexError
      | n :: rest =>
          rows ← mapM (index_entry (chunks (numel rest) n (data x)) n) (data ids);
          Ok (Tensor (shape ids ++ rest) (concat rows))
      end
  end.

(** Broadcasting: shapes are aligned at their last axis; two extents are
    compatible when they are equal or one of them is 1. *)
Fixpoint broadcast_rev (ra rb : list nat) : option (list nat) :=
  match ra, rb with
  | [], _ => Some rb
  | _, [] => Some ra
  | a :: ra', b :: rb' =>
      r ← broadcast_rev ra' rb';
      if a =? b then Some (a :: r)
      else if a =? 1 then Some (b :: r)
      else if b =? 1 then Some (a :: r)
      else None
  end.

Definition broadcast_shapes (sa sb : list nat) : option (list nat) :=
  @rev nat <$> broadcast_rev (rev sa) (rev sb).

(** [expand from to l]: the elements of a tensor of shape [from] laid out
    in shape [to], where the two shapes have the same rank and every
    extent of [from] is the one of [to] or 1 (an axis of extent 1 is
    repeated). *)
Fixpoint expand {A} (from to : list nat) (l : list A) : list A :=
  match from, to with
  | f :: from', t :: to' =>
      if f =? t then concat (expand from' to' <$> chunks (numel from') f l)
      else concat (replicate t (expand from' to' l))
  | _, _ => l
  end.

(** Extent by extent, [from] is [to] or 1. *)
Definition expandable (from to : list nat) : Prop :=
  Forall2 (λ f t, f = t ∨ f = 1) from to.

Definition expand_as {A} (s target : list nat) (l : list A) : list A :=
  expand (replicate (length target - length s) 1 ++ s) target l.

(** A binary elementwise operator with broadcasting ([x * y], [x + y]). *)
Definition broadcast_op {A B C} (f : A → B → C) (x : tensor A) (y : tensor B)
  : result (tensor C) :=
  match broadcast_shapes (shape x) (shape y) with
  | Some s =>
      Ok (Tensor s (zip_with f (expand_as (shape x) s (data x))
                               (expand_as (shape y) s (data y))))
  | None => Raise RuntimeError
  end.

(** ** Rotary position transform *)

Section Rotary.
Context {R : Type}.
Variables (radd rmul : R → R → R) (rneg : R → R).

Definition neg (x : tensor R) : tensor R := tmap rneg x.

(** [rotate_half], lines 26-30. *)
Definition rotate_half (x : tensor R) : result (tensor R) :=
  d ← size_last x;
  x1 ← slice_last 0 (Some (d / 2)) x;
  x2 ← slice_last (d / 2) None x;
  cat (length (shape x) - 1) (neg x2) x1.

(** What [rotate_half] does to one row of extent [d] along the last axis:
    the row-level reading used to reason about the tensor-level
    definition above ([rotate_half_rows] relates the two). *)
Definition rot_row (d : nat) (r : list R) : list R :=
  (rneg <$> drop (d / 2) r) ++ take (d / 2) r.

Definition mul : tensor R → tensor R → result (tensor R) := broadcast_op rmul.
Definition add : tensor R → tensor R → result (tensor R) := broadcast_op radd.

(** [apply_rotary_pos_emb], lines 33-42.  [position_ids] is an integer
    index tensor, or [None]. *)
Definition apply_rotary_pos_emb (q k cos sin : tensor R)
    (position_ids : option (tensor Z)) : result (tensor R * tensor R) :=
  cos ← squeeze 1 cos ≫= squeeze 0;
  sin ← squeeze 1 sin ≫= squeeze 0;
  cos ← index_first cos position_ids ≫= unsqueeze 1;
  sin ← index_first sin position_ids ≫= unsqueeze 1;
  q_cos ← mul q cos;
  q_rot ← rotate_half q ≫= λ rq, mul rq sin;
  q_embed ← add q_cos q_rot;
  k_cos ← mul k cos;
  k_rot ← rotate_half k ≫= λ rk, mul rk sin;
  k_embed ← add k_cos k_rot;
  Ok (q_embed, k_embed).

End Rotary.

(** ** Key/value cache merge (lines 87-90) *)

Definition merge_cache {R} (past_key_value : option (tensor R * tensor R))
    (key_states value_states : tensor R) : result (tensor R * tensor R) :=
  match past_key_value with
  | Some (past_key, past_value) =>
      key_states ← cat 2 past_key key_states;
      value_states ← cat 2 past_value value_states;
      Ok (key_states, value_states)
  | None => Ok (key_states, value_states)
  end.


(** ** Layout primitives used by the forward pass *)

(** [x.view(s)] and [x.reshape(s)]: the same elements in row-major order
    under a new shape with the same number of elements. *)
Definition reshape {A} (s : list nat) (x : tensor A) : result (tensor A) :=
  if numel s =? numel (shape x) then Ok (Tensor s (data x)) else Raise RuntimeError.

Definition view {A} (s : list nat) (x : tensor A) : result (tensor A) := reshape s x.

(** [x.transpose(1, 2)]: within every block of the first axis, the cell
    at [(i, j)] moves to [(j, i)]. *)
Definition transpose12 {A} (x : tensor A) : result (tensor A) :=
  match shape x with
  | s0 :: s1 :: s2 :: rest =>
      let inner := numel rest in
      Ok (Tensor (s0 :: s2 :: s1 :: rest)
            (concat ((λ blk,
                        let cells := chunks inner (s1 * s2) blk in
                        concat ((λ j, concat ((λ i, default [] (cells !! (i * s2 + j)))
                                                <$> seq 0 s1))
                                  <$> seq 0 s2))
                       <$> chunks (s1 * s2 * inner) s0 (data x))))
  | _ => Raise IndexError
  end.

(** [x.flatten(0, 1)]. *)
Definition flatten01 {A} (x : tensor A) : result (tensor A) :=
  match shape x with
  | s0 :: s1 :: rest => Ok (Tensor (s0 * s1 :: rest) (data x))
  | _ => Raise IndexError
  end.

(** [bsz, q_len, _ = hidden_states.size()]: unpacking anything but three
    extents is a ValueError. *)
Definition size3 {A} (x : tensor A) : result (nat * nat) :=
  match shape x with
  | [bsz; q_len; _] => Ok (bsz, q_len)
  | _ => Raise ValueError
  end.

(** [assert c]. *)
Definition assert (c : bool) : result unit :=
  if c then Ok tt else Raise AssertionError.

(** ** The MessageHub 'for_flash_attn'

    [get_info(f'cumulative_len_rank_{rank}')] and its two siblings are
    lookups at [rank] in three families of entries.  [get_info] hands out
    the stored object itself, so the list bound to [cumulative_len] in the
    forward pass and the tensors in it are the ones the hub holds: an
    in-place update of one of them is an update of the hub. *)
Record MessageHub : Type := {
  cumulative_len_rank : gmap nat (list (list Z));
  indexes_rank : gmap nat (tensor Z);
  max_seqlen_rank : gmap nat Z;
}.

(** Computations that may raise and that thread the hub; the hub is
    returned in either case, since an exception does not undo an update. *)
Definition hubM (A : Type) : Type := MessageHub → result A * MessageHub.

#[global] Instance hubM_ret : MRet hubM := λ A a hub, (Ok a, hub).
#[global] Instance hubM_bind : MBind hubM :=
  λ A B f m hub,
    match m hub with
    | (Ok a, hub') => f a hub'
    | (Raise e, hub') => (Raise e, hub')
    end.

Definition lift {A} (r : result A) : hubM A := λ hub, (r, hub).

(** [message_hub.get_info(...)]: [None] when the entry is absent. *)
Definition get_cumulative_len (rank : nat) : hubM (option (list (list Z))) :=
  λ hub, (Ok (cumulative_len_rank hub !! rank), hub).
Definition get_indexes (rank : nat) : hubM (option (tensor Z)) :=
  λ hub, (Ok (indexes_rank hub !! rank), hub).
Definition get_max_seqlen (rank : nat) : hubM (option Z) :=
  λ hub, (Ok (max_seqlen_rank hub !! rank), hub).

(** [torch.cat(l, dim=0)] on a list of 1-dimensional tensors. *)
Definition cat0 (l : list (list Z)) : result (list Z) :=
  match l with
  | [] => Raise RuntimeError
  | _ => Ok (concat l)
  end.

(** The boundary tensors are the [cu_seqlens] arguments of
    [flash_attn_varlen_func], which are 32-bit integer tensors
    ([torch.int32]): arithmetic on their elements wraps around in two's
    complement. *)
Definition int32_wrap (z : Z) : Z := ((z + 2 ^ 31) mod 2 ^ 32 - 2 ^ 31)%Z.

(** [cumulative_len[i] += c] on the list held by the hub for [rank]: the
    tensor at index [i] is updated in place, element by element, in the
    arithmetic of the tensor.  The Python integer [c] is converted to the
    element type first, which gives the same sum modulo [2 ^ 32]. *)
Definition iadd_cumulative_len (rank i : nat) (c : Z) : hubM unit :=
  λ hub,
    match cumulative_len_rank hub !! rank with
    | Some cl =>
        match cl !! i with
        | Some t =>
            (Ok tt,
             {| cumulative_len_rank :=
                  <[rank := <[i := (λ z, int32_wrap (z + c)) <$> t]> cl]>
                    (cumulative_len_rank hub);
                indexes_rank := indexes_rank hub;
                max_seqlen_rank := max_seqlen_rank hub |})
        | None => (Raise IndexError, hub)
        end
    | None => (Raise IndexError, hub)
    end.

(** [for i in range(1, bsz): cumulative_len[i] += q_len * i], lines 106-107,
    over the indices [range]. *)
Fixpoint rebase_loop (rank q_len : nat) (range : list nat) : hubM unit :=
  match range with
  | [] => mret tt
  | i :: range' =>
      iadd_cumulative_len rank i (Z.of_nat (q_len * i)) ≫= λ _,
      rebase_loop rank q_len range'
  end.

(** What a call on [rank] may change in the hub at most: the boundaries
    published for [rank]; the positions, the maximum lengths and the
    entries of every other rank stay. *)
Definition hub_frame (rank : nat) (hub hub' : MessageHub) : Prop :=
  indexes_rank hub' = indexes_rank hub ∧
  max_seqlen_rank hub' = max_seqlen_rank hub ∧
  ∀ r, r ≠ rank → cumulative_len_rank hub' !! r = cumulative_len_rank hub !! r.

(** Lines 65-66: [assert len(cumulative_len) == bsz and
    cumulative_len[0][-1] == q_len], evaluated left to right. *)
Definition assert_layout (cumulative_len : list (list Z)) (bsz q_len : nat)
  : result unit :=
  if length cumulative_len =? bsz then
    match cumulative_len !! 0 with
    | None => Raise IndexError
    | Some c0 =>
        match last c0 with
        | None => Raise IndexError
        | Some e => assert (e =? Z.of_nat q_len)%Z
        end
    end
  else Raise AssertionError.

(** ** The attention module and the kernel libraries *)

(** [self]: sizes, the four linear projections and the rotary-table
    provider, which are external to this file. *)
Record InternLMAttention (R : Type) : Type := {
  hidden_size : nat;
  num_heads : nat;
  head_dim : nat;
  q_proj : tensor R → result (tensor R);
  k_proj : tensor R → result (tensor R);
  v_proj : tensor R → result (tensor R);
  o_proj : tensor R → result (tensor R);
  rotary_emb : tensor R → nat → result (tensor R * tensor R);
}.
Arguments hidden_size {R} _.
Arguments num_heads {R} _.
Arguments head_dim {R} _.
Arguments q_proj {R} _ _.
Arguments k_proj {R} _ _.
Arguments v_proj {R} _ _.
Arguments o_proj {R} _ _.
Arguments rotary_emb {R} _ _ _.

(** The import-time flags of lines 9-23 and the kernels the forward pass
    calls.  [flash_attn_varlen_func q k v cu_seqlens_q cu_seqlens_k
    max_seqlen_q max_seqlen_k] stands for the call of lines 109-120
    (dropout 0, [return_attn_probs=False], [causal=True]),
    [flash_attn_func] for the call with [causal=True],
    [memory_efficient_attention] for the call with
    [attn_bias=LowerTriangularMask()]. *)
Record Kernels (R : Type) : Type := {
  SUPPORT_XFORMERS : bool;
  SUPPORT_FLASH2 : bool;
  flash_attn_varlen_func :
    tensor R → tensor R → tensor R → list Z → list Z → option Z → option Z →
    result (tensor R);
  flash_attn_func : tensor R → tensor R → tensor R → result (tensor R);
  memory_efficient_attention : tensor R → tensor R → tensor R → result (tensor R);
  scaled_dot_product_attention :
    tensor R → tensor R → tensor R → option (tensor R) → result (tensor R);
}.
Arguments SUPPORT_XFORMERS {R} _.
Arguments SUPPORT_FLASH2 {R} _.
Arguments flash_attn_varlen_func {R} _ _ _ _ _ _ _ _.
Arguments flash_attn_func {R} _ _ _ _.
Arguments memory_efficient_attention {R} _ _ _ _.
Arguments scaled_dot_product_attention {R} _ _ _ _ _.

(** ** [internlm_attn_forward], lines 45-142 *)

Inductive backend : Type :=
  | PackedVarlen      (* flash_attn_varlen_func *)
  | DenseCausal       (* flash_attn_func, causal=True *)
  | LowerTriangular   (* xops.memory_efficient_attention, LowerTriangularMask *)
  | ReferenceSoftmax. (* F.scaled_dot_product_attention with attn_mask *)

Section Forward.
Context {R : Type}.
Variables (radd rmul : R → R → R) (rneg : R → R).
Variable self : InternLMAttention R.
Variable K : Kernels R.
(** [dist.get_rank()] *)
Variable rank : nat.

(** Lines 63-84: check the packing context against the batch, project
    and split heads, and rotate queries and keys.  [cumulative_len] and
    [indexes] are what lines 58-59 read from the hub.  Returns [bsz],
    [q_len] and the three head-split states. *)
Definition rotary_states
    (cumulative_len : option (list (list Z))) (indexes : option (tensor Z))
    (hidden_states : tensor R) (position_ids : option (tensor Z))
    (past_key_value : option (tensor R * tensor R))
  : result (nat * nat * tensor R * tensor R * tensor R) :=
  let use_local_attn := bool_decide (is_Some cumulative_len) in
  '(bsz, q_len) ← size3 hidden_states;
  _ ← match cumulative_len return result unit with
      | Some cl => assert_layout cl bsz q_len
      | None => Ok tt
      end;
  query_states ← (q_proj self hidden_states
                    ≫= view [bsz; q_len; num_heads self; head_dim self])
                   ≫= transpose12;
  key_states ← (k_proj self hidden_states
                  ≫= view [bsz; q_len; num_heads self; head_dim self])
                 ≫= transpose12;
  value_states ← (v_proj self hidden_states
                    ≫= view [bsz; q_len; num_heads self; head_dim self])
                   ≫= transpose12;
  kv_seq_len ← size_last2 key_states;
  kv_seq_len ← match past_key_value return result nat with
               | Some (past_key, _) =>
                   past_len ← size_last2 past_key; Ok (kv_seq_len + past_len)
               | None => Ok kv_seq_len
               end;
  '(cos, sin) ← rotary_emb self value_states kv_seq_len;
  '(query_states, key_states) ←
    apply_rotary_pos_emb radd rmul rneg query_states key_states cos sin
      (if use_local_attn then indexes else position_ids);
  Ok (bsz, q_len, query_states, key_states, value_states).

(** Lines 103-120, the packed branch: flatten, re-base the boundaries
    of the list the hub holds, concatenate them and call the packed
    kernel.  The states are [B, S, H, K] here. *)
Definition packed_attention (max_seqlen : option Z) (bsz q_len : nat)
    (query_states key_states value_states : tensor R) : hubM (tensor R) :=
  q_unpad ← lift (flatten01 query_states);
  k_unpad ← lift (flatten01 key_states);
  v_unpad ← lift (flatten01 value_states);
  _ ← rebase_loop rank q_len (seq 1 (bsz - 1));
  cumulative_len ← get_cumulative_len rank;
  cumulative_len ← lift (cat0 (default [] cumulative_len));
  lift (flash_attn_varlen_func K q_unpad k_unpad v_unpad
          cumulative_len cumulative_len max_seqlen max_seqlen).

(** Lines 94-133: the capability assertion and the kernel call.
    [query_states], [key_states], [value_states] are [B, H, S, K]. *)
Definition attn_kernel (use_local_attn : bool) (max_seqlen : option Z)
    (bsz q_len : nat) (query_states key_states value_states : tensor R)
    (attention_mask : option (tensor R)) : hubM (tensor R) :=
  _ ← lift (assert (SUPPORT_FLASH2 K));
  if SUPPORT_FLASH2 K || SUPPORT_XFORMERS K then
    query_states ← lift (transpose12 query_states);
    key_states ← lift (transpose12 key_states);
    value_states ← lift (transpose12 value_states);
    if SUPPORT_FLASH2 K then
      if use_local_attn then
        packed_attention max_seqlen bsz q_len query_states key_states value_states
      else
        lift (flash_attn_func K query_states key_states value_states)
    else
      lift (memory_efficient_attention K query_states key_states value_states)
  else
    attn_output ← lift (scaled_dot_product_attention K
                          query_states key_states value_states attention_mask);
    lift (transpose12 attn_output).

(** The whole forward pass.  Returns
    [(attn_output, attn_weights, past_key_value)]. *)
Definition internlm_attn_forward (hidden_states : tensor R)
    (attention_mask : option (tensor R))
    (position_ids : option (tensor Z))
    (past_key_value : option (tensor R * tensor R))
    (output_attentions use_cache : bool)
  : hubM (tensor R * option (tensor R) * option (tensor R * tensor R)) :=
  cumulative_len ← get_cumulative_len rank;
  indexes ← get_indexes rank;
  max_seqlen ← get_max_seqlen rank;
  let use_local_attn := bool_decide (is_Some cumulative_len) in
  '(bsz, q_len, query_states, key_states, value_states) ←
    lift (rotary_states cumulative_len indexes hidden_states position_ids
            past_key_value);
  '(key_states, value_states) ←
    lift (merge_cache past_key_value key_states value_states);
  let past_key_value :=
    if use_cache then Some (key_states, value_states) else None in
  attn_output ← attn_kernel use_local_attn max_seqlen bsz q_len
                  query_states key_states value_states attention_mask;
  attn_output ← lift (reshape [bsz; q_len; hidden_size self] attn_output);
  attn_output ← lift (o_proj self attn_output);
  mret (attn_output, None, past_key_value).

(** The branch structure of lines 94-132 on its own: which kernel a
    call reaches, given the flags and the layout ([attn_kernel_select]
    proves that [attn_kernel] is this choice followed by
    [run_backend]). *)
Definition select_backend (use_local_attn : bool) : result backend :=
  _ ← assert (SUPPORT_FLASH2 K);
  if SUPPORT_FLASH2 K || SUPPORT_XFORMERS K then
    if SUPPORT_FLASH2 K then
      if use_local_attn then Ok PackedVarlen else Ok DenseCausal
    else Ok LowerTriangular
  else Ok ReferenceSoftmax.

Definition run_backend (b : backend) (max_seqlen : option Z) (bsz q_len : nat)
    (query_states key_states value_states : tensor R)
    (attention_mask : option (tensor R)) : hubM (tensor R) :=
  match b with
  | PackedVarlen =>
      query_states ← lift (transpose12 query_states);
      key_states ← lift (transpose12 key_states);
      value_states ← lift (transpose12 value_states);
      packed_attention max_seqlen bsz q_len query_states key_states value_states
  | DenseCausal =>
      query_states ← lift (transpose12 query_states);
      key_states ← lift (transpose12 key_states);
      value_states ← lift (transpose12 value_states);
      lift (flash_attn_func K query_states key_states value_states)
  | LowerTriangular =>
      query_states ← lift (transpose12 query_states);
      key_states ← lift (transpose12 key_states);
      value_states ← lift (transpose12 value_states);
      lift (memory_efficient_attention K query_states key_states value_states)
  | ReferenceSoftmax =>
      attn_output ← lift (scaled_dot_product_attention K
                            query_states key_states value_states attention_mask);
      lift (transpose12 attn_output)
  end.

End Forward.

(** The selection rule in the words of the specification: with a packed
    layout the packed kernel is mandatory and its absence is an error;
    otherwise the first available of the dense causal kernel, the
    lower-triangular-bias kernel and the reference kernel.  The packed
    and the dense kernel come from the same library ([flash]); the
    reference kernel is part of torch and always available. *)
Definition spec_select_backend (flash xformers packed : bool) : result backend :=
  if packed then
    if flash then Ok PackedVarlen else Raise AssertionError
  else if flash then Ok DenseCausal
  else if xformers then Ok LowerTriangular
  else Ok ReferenceSoftmax.

(** ** A concrete instance, for running the model

    Integer scalars, identity projections, a rotary table with cos = 1 and
    sin = 0 in every row, and kernels that hand back their query argument.
    These stand in for the external collaborators when the model is
    evaluated on concrete inputs; no general statement depends on them. *)
Module Demo.
Local Open Scope Z_scope.

Definition ones (s : list nat) : tensor Z := Tensor s (replicate (numel s) 1).
Definition zeros (s : list nat) : tensor Z := Tensor s (replicate (numel s) 0).

Definition self : InternLMAttention Z :=
  {| hidden_size := 4; num_heads := 2; head_dim := 2;
     q_proj := Ok; k_proj := Ok; v_proj := Ok; o_proj := Ok;
     rotary_emb := λ _ seq_len,
       Ok (ones [1; 1; seq_len; 2]%nat, zeros [1; 1; seq_len; 2]%nat) |}.

Definition kernels (xformers flash : bool) : Kernels Z :=
  {| SUPPORT_XFORMERS := xformers;
     SUPPORT_FLASH2 := flash;
     flash_attn_varlen_func := λ q _ _ _ _ _ _, Ok q;
     flash_attn_func := λ q _ _, Ok q;
     memory_efficient_attention := λ q _ _, Ok q;
     scaled_dot_product_attention := λ q _ _ _, Ok q |}.

Definition forward (xformers flash : bool) :=
  internlm_attn_forward Z.add Z.mul Z.opp self (kernels xformers flash) 0%nat.

(** A batch of two rows of three tokens, hidden size 4. *)
Definition hidden_states : tensor Z := Tensor [2; 3; 4]%nat (Z.of_nat <$> seq 1 24).
Definition position_ids : tensor Z := Tensor [2; 3]%nat [0; 1; 2; 0; 1; 2].

(** A previous cache of one position. *)
Definition past_key : tensor Z := Tensor [2; 2; 1; 2]%nat [-1; -2; -3; -4; -5; -6; -7; -8].
Definition one_token : tensor Z := Tensor [2; 1; 4]%nat [1; 2; 3; 4; 5; 6; 7; 8].
Definition one_position : tensor Z := Tensor [2; 1]%nat [1; 1].

(** Nothing published for this pass: padded layout. *)
Definition hub_padded : MessageHub :=
  {| cumulative_len_rank := ∅; indexes_rank := ∅; max_seqlen_rank := ∅ |}.

(** Packed layout published for rank 0 (and an entry of rank 1 next to
    it), with the per-sample boundaries [cl]. *)
Definition hub_packed (cl : list (list Z)) : MessageHub :=
  {| cumulative_len_rank := {[ 0%nat := cl; 1%nat := [[0; 7]] ]};
     indexes_rank := {[ 0%nat := position_ids ]};
     max_seqlen_rank := {[ 0%nat := 3 ]} |}.
End Demo.

(** * The chat tool (xtuner/tools/chat_mm.py) *)

(** ** [remove_prefix], lines 18-26

    A Python dict is an insertion-ordered list of entries with distinct
    keys.  [d[k] = v] replaces the value of an existing key where it
    stands and appends a new key at the end. *)

Definition pydict (V : Type) : Type := list (string * V).

Fixpoint dict_get {V} (k : string) (d : pydict V) : option V :=
  match d with
  | [] => None
  | (k', v) :: d' => if decide (k' = k) then Some v else dict_get k d'
  end.

Fixpoint dict_set {V} (k : string) (v : V) (d : pydict V) : pydict V :=
  match d with
  | [] => [(k, v)]
  | (k', v') :: d' =>
      if decide (k' = k) then (k', v) :: d' else (k', v') :: dict_set k v d'
  end.

(** [key.startswith(prefix)]. *)
Fixpoint startswith (key prefix : string) : bool :=
  match prefix, key with
  | EmptyString, _ => true
  | String a prefix', String b key' =>
      if decide (a = b) then startswith key' prefix' else false
  | String _ _, EmptyString => false
  end.

(** [s[n:]]. *)
Fixpoint string_drop (n : nat) (s : string) : string :=
  match n, s with
  | 0, _ => s
  | S n', String _ s' => string_drop n' s'
  | S _, EmptyString => EmptyString
  end.

(** The key under which [remove_prefix] stores the value of [key]: the
    two branches of lines 21-25. *)
Definition new_key (prefix key : string) : string :=
  if startswith key prefix then string_drop (String.length prefix) key else key.

Definition remove_prefix {V} (state_dict : pydict V) (prefix : string) : pydict V :=
  foldl (λ new_state_dict '(key, value),
           if startswith key prefix then
             dict_set (string_drop (String.length prefix) key) value new_state_dict
           else
             dict_set key value new_state_dict)
        [] state_dict.

(** ** [get_input], lines 110-122

    Standard input is a list of events, one per call of [input()]: a line
    (without its newline), or bytes that do not decode.  At the end of the
    list [input()] raises [EOFError].  Standard output is the list of the
    strings printed. *)

Inductive stdin_event : Type :=
  | Line (s : string)
  | Undecodable.

Inductive input_exn : Type :=
  | EOFError
  | UnicodeDecodeError.

(** [iter(input, sentinel)] run to its end, as ['\n'.join] does: the lines
    read before the first empty one, or the exception of the call of
    [input()] that raised; and what is left of standard input. *)
Fixpoint iter_input (stdin : list stdin_event)
  : (input_exn + list string) * list stdin_event :=
  match stdin with
  | [] => (inl EOFError, [])
  | Undecodable :: rest => (inl UnicodeDecodeError, rest)
  | Line s :: rest =>
      if decide (s = "") then (inr [], rest)
      else
        let '(r, rest') := iter_input rest in
        (match r with inr ls => inr (s :: ls) | inl e => inl e end, rest')
  end.

(** The newline character. *)
Definition newline : string := String (Ascii.ascii_of_nat 10) "".

Definition input_prompt : string :=
  String.concat ""
    [newline; "double enter to end input (EXIT: exit chat, ";
     "RESET: reset history) >>> "].

Definition invalid_message : string :=
  "Invalid characters detected. Please enter again." +:+ newline.

(** The [while result is None] loop; [fuel] bounds its iterations. *)
Fixpoint get_input_loop (fuel : nat) (stdin : list stdin_event) (stdout : list string)
  : option ((input_exn + string) * list stdin_event * list string) :=
  match fuel with
  | 0 => None
  | S fuel' =>
      let stdout := stdout ++ [input_prompt] in
      match iter_input stdin with
      | (inr ls, rest) => Some (inr (String.concat newline ls), rest, stdout)
      | (inl UnicodeDecodeError, rest) =>
          get_input_loop fuel' rest (stdout ++ [invalid_message])
      | (inl EOFError, rest) => Some (inl EOFError, rest, stdout)
      end
  end.

(** Every iteration but the last consumes an event, so one more
    iteration than there are events is enough ([get_input_loop_fuel]). *)
Definition get_input (stdin : list stdin_event)
  : option ((input_exn + string) * list stdin_event * list string) :=
  get_input_loop (S (length stdin)) stdin [].
(** ** Facts about [chunks] and [numel] *)

Lemma length_chunks {A} k n (l : list A) : length (chunks k n l) = n.
Proof. revert l; induction n as [|n IH]; intros l; simpl; [done | by rewrite IH]. Qed.

Lemma concat_chunks {A} k n (l : list A) :
  length l = n * k → concat (chunks k n l) = l.
Proof.
  revert l; induction n as [|n IH]; intros l Hl; simpl in *.
  - by destruct l.
  - rewrite IH; [apply take_drop | rewrite length_drop; lia].
Qed.

Lemma chunks_concat {A} k (ls : list (list A)) :
  Forall (λ r, length r = k) ls → chunks k (length ls) (concat ls) = ls.
Proof.
  induction 1 as [|r ls Hr _ IH]; simpl; [done |].
  rewrite take_app_length', drop_app_length' by done. by rewrite IH.
Qed.

Lemma Forall_length_chunks {A} k n (l : list A) :
  length l = n * k → Forall (λ r, length r = k) (chunks k n l).
Proof.
  revert l; induction n as [|n IH]; intros l Hl; simpl in *; constructor.
  - rewrite length_take; lia.
  - apply IH. rewrite length_drop; lia.
Qed.

Lemma chunks_fmap {A B} (f : A → B) k n (l : list A) :
  chunks k n (f <$> l) = fmap (M:=list) f <$> chunks k n l.
Proof.
  revert l; induction n as [|n IH]; intros l; simpl; [done |].
  by rewrite <- fmap_drop, IH, fmap_take.
Qed.

Lemma numel_app s1 s2 : numel (s1 ++ s2) = numel s1 * numel s2.
Proof. induction s1 as [|a s1 IH]; simpl; [lia | rewrite IH; lia]. Qed.

Lemma length_concat_uniform {A} k (ls : list (list A)) :
  Forall (λ r, length r = k) ls → length (concat ls) = length ls * k.
Proof.
  induction 1 as [|r ls Hr _ IH]; simpl; [done |].
  rewrite length_app, IH; lia.
Qed.

(** A shape of rank at least one splits into its leading extents and its
    last extent. *)
Lemma shape_last_inv (s : list nat) d :
  last s = Some d → ∃ pre, s = pre ++ [d].
Proof.
  intros H. destruct (last_Some s d) as [[pre ->] _]; eauto.
Qed.

(** ** Slicing and concatenation along the last axis *)

Lemma last_axis (pre : list nat) d : length (pre ++ [d]) - 1 = length pre.
Proof. rewrite length_app; simpl; lia. Qed.

Lemma last_axis_lookup (pre : list nat) d : (pre ++ [d]) !! length pre = Some d.
Proof. by apply list_lookup_middle. Qed.

Lemma last_axis_insert (pre : list nat) d e :
  <[length pre := e]> (pre ++ [d]) = pre ++ [e].
Proof. rewrite <- (Nat.add_0_r (length pre)). by rewrite insert_app_r. Qed.

Lemma last_axis_drop (pre : list nat) d : drop (length pre) (pre ++ [d]) = [d].
Proof. by rewrite drop_app_length. Qed.

Lemma last_axis_drop_S (pre : list nat) d : drop (S (length pre)) (pre ++ [d]) = [].
Proof. apply drop_ge. rewrite length_app; simpl; lia. Qed.

Lemma narrow_last_rows {A} pre d lo len (x : tensor A) :
  shape x = pre ++ [d] → lo + len ≤ d →
  narrow (length pre) lo len x
  = Ok (Tensor (pre ++ [len])
          (concat ((λ r, take len (drop lo r)) <$> chunks d (numel pre) (data x)))).
Proof.
  destruct x as [sx ex]; simpl. intros -> Hle. unfold narrow; simpl.
  rewrite last_axis_lookup, last_axis_insert, last_axis_drop_S, take_app_length.
  destruct (Nat.leb_spec (lo + len) d); [|lia].
  simpl. by rewrite !Nat.mul_1_r.
Qed.

Lemma cat_last_rows {A} pre dx dy (x y : tensor A) :
  shape x = pre ++ [dx] → shape y = pre ++ [dy] →
  cat (length pre) x y
  = Ok (Tensor (pre ++ [dx + dy])
          (concat (zip_with app (chunks dx (numel pre) (data x))
                                (chunks dy (numel pre) (data y))))).
Proof.
  destruct x as [sx ex], y as [sy ey]; simpl. intros -> ->. unfold cat; simpl.
  rewrite !last_axis_lookup, !last_axis_insert, !last_axis_drop, take_app_length.
  rewrite bool_decide_eq_true_2 by done.
  simpl. by rewrite !Nat.mul_1_r.
Qed.

Lemma chunks_concat_fmap {A B} k n (f : A → list B) (rows : list A) :
  length rows = n → Forall (λ r, length (f r) = k) rows →
  chunks k n (concat (f <$> rows)) = f <$> rows.
Proof.
  intros <- Hf. rewrite <- (length_fmap f rows). apply chunks_concat.
  by apply Forall_fmap.
Qed.

Lemma fmap_concat {A B} (f : A → B) (ls : list (list A)) :
  f <$> concat ls = concat (fmap (M:=list) f <$> ls).
Proof.
  induction ls as [|l ls IH]; csimpl; [done |]. by rewrite fmap_app, IH.
Qed.

Lemma zip_with_fmap_same {A B C D} (g : B → C → D) (f1 : A → B) (f2 : A → C) l :
  zip_with g (f1 <$> l) (f2 <$> l) = (λ r, g (f1 r) (f2 r)) <$> l.
Proof. induction l as [|a l IH]; csimpl; [done | by rewrite IH]. Qed.

Local Arguments Nat.div : simpl never.
Local Arguments Nat.min : simpl never.

Section RotaryRows.
Context {R : Type} (rneg : R → R).

Lemma length_rot_row d (r : list R) : length r = d → length (rot_row rneg d r) = d.
Proof.
  intros Hr. unfold rot_row.
  rewrite length_app, length_fmap, length_drop, length_take.
  pose proof (Nat.Div0.div_le_upper_bound d 2 d). lia.
Qed.

(** [rotate_half] acts row by row along the last axis, and its result
    has last extent [(d - d/2) + d/2]: the extent of [-x2] plus the
    extent of [x1]. *)
Lemma rotate_half_rows pre d (x : tensor R) :
  shape x = pre ++ [d] → wf x →
  rotate_half rneg x
  = Ok (Tensor (pre ++ [(d - d / 2) + d / 2])
          (concat (rot_row rneg d <$> chunks d (numel pre) (data x)))).
Proof.
  intros Hs Hwf. unfold wf in Hwf. rewrite Hs, numel_app in Hwf; simpl in Hwf.
  assert (Hh : d / 2 ≤ d) by (apply Nat.Div0.div_le_upper_bound; lia).
  unfold rotate_half, slice_last, size_last.
  rewrite Hs, last_snoc, last_axis; simpl.
  rewrite !(Nat.min_l (d / 2) d), Nat.min_0_l, Nat.sub_0_r by done.
  rewrite !(narrow_last_rows pre d) by (done || lia); simpl.
  rewrite (cat_last_rows pre (d - d / 2) (d / 2)) by done; simpl.
  do 3 f_equal.
  assert (Hn : length (chunks d (numel pre) (data x)) = numel pre)
    by apply length_chunks.
  assert (Hrows : Forall (λ r, length r = d) (chunks d (numel pre) (data x)))
    by (apply Forall_length_chunks; lia).
  rewrite fmap_concat, <- list_fmap_compose.
  rewrite !chunks_concat_fmap; try done.
  - rewrite zip_with_fmap_same.
    apply Forall_fmap_ext_1. eapply Forall_impl; [exact Hrows |].
    intros r Hr; simpl in *. unfold rot_row.
    rewrite (take_ge (drop (d / 2) r)) by (rewrite length_drop; lia). done.
  - eapply Forall_impl; [exact Hrows |]. intros r Hr; simpl in *.
    rewrite length_take, length_drop; lia.
  - eapply Forall_impl; [exact Hrows |]. intros r Hr; simpl in *.
    rewrite length_fmap, length_take, length_drop; lia.
Qed.

(** Two applications negate every element of a row of even length. *)
Lemma rot_row_twice d (r : list R) :
  length r = d → Nat.even d = true →
  rot_row rneg d (rot_row rneg d r) = rneg <$> r.
Proof.
  intros Hr Hev. apply Nat.even_spec in Hev as [h Hd].
  assert (Hh : d / 2 = h) by (symmetry; apply (Nat.div_unique d 2 h 0); lia).
  unfold rot_row. rewrite Hh.
  rewrite drop_app_length', take_app_length'
    by (rewrite length_fmap, length_drop; lia).
  by rewrite <- fmap_app, take_drop.
Qed.
End RotaryRows.

Lemma half_ceil d : d - d / 2 = (d + 1) / 2.
Proof.
  pose proof (Nat.div_mod_eq d 2) as Hd.
  pose proof (Nat.mod_upper_bound d 2 ltac:(lia)) as Hm.
  destruct (decide (d mod 2 = 0)) as [H0|H1].
  - apply (Nat.div_unique (d + 1) 2 (d - d / 2) 1); lia.
  - apply (Nat.div_unique (d + 1) 2 (d - d / 2) 0); lia.
Qed.

Section RotateHalf.
Context {R : Type} (rneg : R → R).

(** C6: on a tensor whose last extent [d] is even, [rotate_half] cuts
    the last axis into two halves [x1], [x2] of extent [d / 2] each,
    returns [cat (-x2, x1)], and applied twice it returns the
    elementwise negation of its argument. *)
Theorem rotate_half_twice_neg (x : tensor R) (pre : list nat) (d : nat) :
  wf x → shape x = pre ++ [d] → Nat.even d = true →
  ∃ x1 x2 y,
    slice_last 0 (Some (d / 2)) x = Ok x1 ∧
    slice_last (d / 2) None x = Ok x2 ∧
    shape x1 = pre ++ [d / 2] ∧ shape x2 = pre ++ [d / 2] ∧
    d / 2 + d / 2 = d ∧
    rotate_half rneg x = Ok y ∧
    cat (length pre) (neg rneg x2) x1 = Ok y ∧
    rotate_half rneg y = Ok (neg rneg x).
Proof.
  intros Hwf Hs Hev.
  assert (Hhalf : d / 2 + d / 2 = d).
  { apply Nat.even_spec in Hev as [h Hd].
    rewrite <- (Nat.div_unique d 2 h 0); lia. }
  assert (Hh : d - d / 2 = d / 2) by lia.
  pose proof (rotate_half_rows rneg pre d x Hs Hwf) as Hrot.
  unfold wf in Hwf. rewrite Hs, numel_app in Hwf; simpl in Hwf.
  assert (Hrows : Forall (λ r, length r = d) (chunks d (numel pre) (data x)))
    by (apply Forall_length_chunks; lia).
  eexists _, _, _. split_and!.
  - unfold slice_last, size_last. rewrite Hs, last_snoc, last_axis; simpl.
    rewrite (Nat.min_l (d / 2) d), Nat.min_0_l, Nat.sub_0_r by lia.
    apply narrow_last_rows; [done | lia].
  - unfold slice_last, size_last. rewrite Hs, last_snoc, last_axis; simpl.
    rewrite (Nat.min_l (d / 2) d) by lia.
    apply narrow_last_rows; [done | lia].
  - simpl. done.
  - simpl. by rewrite Hh.
  - done.
  - exact Hrot.
  - rewrite (cat_last_rows pre (d - d / 2) (d / 2)) by done.
    revert Hrot. unfold rotate_half, slice_last, size_last.
    rewrite Hs, last_snoc, last_axis; simpl.
    rewrite !(Nat.min_l (d / 2) d), Nat.min_0_l, Nat.sub_0_r by lia.
    rewrite !(narrow_last_rows pre d) by (done || lia); simpl.
    rewrite (cat_last_rows pre (d - d / 2) (d / 2)) by done. done.
  - rewrite (rotate_half_rows rneg pre d); simpl.
    + rewrite chunks_concat_fmap.
      * rewrite <- list_fmap_compose.
        unfold neg, tmap. rewrite Hs. f_equal. f_equal; [f_equal; f_equal; lia |].
        rewrite <- (concat_chunks d (numel pre) (data x)) at 2 by lia.
        rewrite fmap_concat. f_equal. apply Forall_fmap_ext_1.
        eapply Forall_impl; [exact Hrows |]. intros r Hr; simpl in *.
        by apply rot_row_twice.
      * apply length_chunks.
      * eapply Forall_impl; [exact Hrows |]. intros r Hr; simpl in *.
        by apply length_rot_row.
    + f_equal. f_equal. lia.
    + unfold wf; simpl.
      rewrite (length_concat_uniform d).
      * rewrite length_fmap, length_chunks, numel_app; simpl. lia.
      * apply Forall_fmap. eapply Forall_impl; [exact Hrows |].
        intros r Hr; simpl in *. by apply length_rot_row.
Qed.

(** C10: for any last extent [d], odd ones included, [rotate_half] takes
    the first [d / 2] elements of every row as [x1] and the remaining
    [(d + 1) / 2] as [x2]; the concatenation of [-x2] and [x1] has the
    shape of [x] again (and is well formed when [x] is). *)
Theorem rotate_half_shape (x : tensor R) (pre : list nat) (d : nat) :
  shape x = pre ++ [d] →
  ∃ x1 x2 y,
    slice_last 0 (Some (d / 2)) x = Ok x1 ∧
    slice_last (d / 2) None x = Ok x2 ∧
    shape x1 = pre ++ [d / 2] ∧ shape x2 = pre ++ [(d + 1) / 2] ∧
    rotate_half rneg x = Ok y ∧
    cat (length pre) (neg rneg x2) x1 = Ok y ∧
    shape y = shape x ∧ (wf x → wf y).
Proof.
  intros Hs.
  assert (Hle : d / 2 ≤ d) by (apply Nat.Div0.div_le_upper_bound; lia).
  pose proof (half_ceil d) as Hceil.
  assert (H1 : slice_last 0 (Some (d / 2)) x
               = Ok (Tensor (pre ++ [d / 2])
                       (concat ((λ r, take (d / 2) (drop 0 r))
                                  <$> chunks d (numel pre) (data x))))).
  { unfold slice_last, size_last. rewrite Hs, last_snoc, last_axis; simpl.
    rewrite (Nat.min_l (d / 2) d), Nat.min_0_l, Nat.sub_0_r by lia.
    apply narrow_last_rows; [done | lia]. }
  assert (H2 : slice_last (d / 2) None x
               = Ok (Tensor (pre ++ [d - d / 2])
                       (concat ((λ r, take (d - d / 2) (drop (d / 2) r))
                                  <$> chunks d (numel pre) (data x))))).
  { unfold slice_last, size_last. rewrite Hs, last_snoc, last_axis; simpl.
    rewrite (Nat.min_l (d / 2) d) by lia.
    apply narrow_last_rows; [done | lia]. }
  assert (H3 : ∃ y, cat (length pre)
               (neg rneg (Tensor (pre ++ [d - d / 2])
                       (concat ((λ r, take (d - d / 2) (drop (d / 2) r))
                                  <$> chunks d (numel pre) (data x)))))
               (Tensor (pre ++ [d / 2])
                       (concat ((λ r, take (d / 2) (drop 0 r))
                                  <$> chunks d (numel pre) (data x)))) = Ok y
               ∧ shape y = pre ++ [d - d / 2 + d / 2])
    by (rewrite (cat_last_rows pre (d - d / 2) (d / 2)) by done; eauto).
  destruct H3 as (y & Hy & Hys).
  eexists _, _, y. split_and!; try done.
  - simpl. by rewrite Hceil.
  - unfold rotate_half, size_last. rewrite Hs, last_snoc. simpl.
    rewrite <- Hs, H1, H2. simpl. by rewrite Hs, last_axis.
  - rewrite Hys, Hs. do 2 f_equal. lia.
  - intros Hwf.
    pose proof (rotate_half_rows rneg pre d x Hs Hwf) as Hrot.
    unfold rotate_half, size_last in Hrot. rewrite Hs, last_snoc in Hrot.
    simpl in Hrot. rewrite <- Hs, H1, H2 in Hrot. simpl in Hrot.
    rewrite Hs, last_axis, Hy in Hrot. injection Hrot as ->.
    unfold wf in *. simpl. rewrite Hs, numel_app in Hwf; simpl in Hwf.
    rewrite (length_concat_uniform d).
    + rewrite length_fmap, length_chunks, numel_app; simpl.
      replace (d - d / 2 + d / 2) with d by lia. lia.
    + apply Forall_fmap. eapply Forall_impl.
      * apply (Forall_length_chunks d (numel pre)); lia.
      * intros r Hr; simpl in *. by apply length_rot_row.
Qed.
End RotateHalf.

Lemma rotate_half_twice_neg_witness :
  let x := Tensor [2; 4] [1; 2; 3; 4; 5; 6; 7; 8]%Z in
  wf x ∧ shape x = [2] ++ [4] ∧ Nat.even 4 = true ∧
  ∃ x1 x2 y,
    slice_last 0 (Some (4 / 2)) x = Ok x1 ∧
    slice_last (4 / 2) None x = Ok x2 ∧
    shape x1 = [2] ++ [4 / 2] ∧ shape x2 = [2] ++ [4 / 2] ∧
    4 / 2 + 4 / 2 = 4 ∧
    rotate_half Z.opp x = Ok y ∧
    cat (length [2]) (neg Z.opp x2) x1 = Ok y ∧
    rotate_half Z.opp y = Ok (neg Z.opp x).
Proof.
  intros x. split_and!; [reflexivity | reflexivity | reflexivity |].
  apply (rotate_half_twice_neg Z.opp x [2] 4); reflexivity.
Defined.

Lemma rotate_half_shape_witness :
  let x := Tensor [2; 3] [1; 2; 3; 4; 5; 6]%Z in
  shape x = [2] ++ [3] ∧
  ∃ x1 x2 y,
    slice_last 0 (Some (3 / 2)) x = Ok x1 ∧
    slice_last (3 / 2) None x = Ok x2 ∧
    shape x1 = [2] ++ [3 / 2] ∧ shape x2 = [2] ++ [(3 + 1) / 2] ∧
    rotate_half Z.opp x = Ok y ∧
    cat (length [2]) (neg Z.opp x2) x1 = Ok y ∧
    shape y = shape x ∧ (wf x → wf y).
Proof.
  intros x. split; [reflexivity |].
  apply (rotate_half_shape Z.opp x [2] 3); reflexivity.
Defined.

(** ** Broadcasting *)

Lemma Forall_chunks {A} (P : A → Prop) k n (l : list A) :
  Forall P l → Forall (Forall P) (chunks k n l).
Proof.
  revert l; induction n as [|n IH]; intros l Hl; simpl; constructor.
  - by apply Forall_take.
  - apply IH. by apply Forall_drop.
Qed.

Lemma Forall_concat_2 {A} (P : A → Prop) (ls : list (list A)) :
  Forall (Forall P) ls → Forall P (concat ls).
Proof.
  induction 1 as [|l ls Hl _ IH]; simpl; [constructor | by apply Forall_app].
Qed.

Lemma expand_Forall {A} (P : A → Prop) from to (l : list A) :
  Forall P l → Forall P (expand from to l).
Proof.
  revert to l. induction from as [|f from IH]; intros [|t to] l Hl; simpl; try done.
  destruct (f =? t).
  - apply Forall_concat_2, Forall_fmap.
    eapply Forall_impl; [by apply Forall_chunks |]. intros r Hr; simpl. by apply IH.
  - apply Forall_concat_2, Forall_replicate. by apply IH.
Qed.

Lemma length_concat_replicate {A} n (l : list A) :
  length (concat (replicate n l)) = n * length l.
Proof. induction n as [|n IH]; simpl; [done |]. rewrite length_app, IH; lia. Qed.

Lemma expand_length {A} from to (l : list A) :
  expandable from to → length l = numel from →
  length (expand from to l) = numel to.
Proof.
  intros Hc. revert l. induction Hc as [|f t from to Hft _ IH]; intros l Hl; simpl in *.
  - done.
  - destruct (Nat.eqb_spec f t) as [->|Hne].
    + rewrite (length_concat_uniform (numel to)).
      * by rewrite length_fmap, length_chunks.
      * apply Forall_fmap.
        eapply Forall_impl; [apply (Forall_length_chunks (numel from) t); lia |].
        intros r Hr; simpl in *. by apply IH.
    + destruct Hft as [?| ->]; [done |].
      rewrite length_concat_replicate, IH; lia.
Qed.

Lemma expand_id {A} s (l : list A) : length l = numel s → expand s s l = l.
Proof.
  revert l. induction s as [|a s IH]; intros l Hl; simpl in *; [done |].
  rewrite Nat.eqb_refl.
  rewrite <- (concat_chunks (numel s) a l) at 2 by lia.
  f_equal. rewrite <- (list_fmap_id (chunks (numel s) a l)) at 2.
  apply Forall_fmap_ext_1.
  eapply Forall_impl; [apply (Forall_length_chunks (numel s) a); lia |].
  intros r Hr; simpl in *. by apply IH.
Qed.

Lemma broadcast_rev_refl r : broadcast_rev r r = Some r.
Proof.
  induction r as [|a r IH]; simpl; [done |]. rewrite IH; simpl.
  by rewrite Nat.eqb_refl.
Qed.

Lemma broadcast_shapes_refl s : broadcast_shapes s s = Some s.
Proof.
  unfold broadcast_shapes. rewrite broadcast_rev_refl; simpl. by rewrite rev_involutive.
Qed.

(** The shape of a head-split tensor against the shape of the gathered
    rotary rows, which have extent 1 on the head axis and batch extent
    [b'] equal to [b] or 1. *)
Lemma broadcast_shapes_heads b b' h s d :
  b' = b ∨ b' = 1 →
  broadcast_shapes [b; h; s; d] [b'; 1; s; d] = Some [b; h; s; d].
Proof.
  intros Hb. unfold broadcast_shapes; simpl.
  rewrite !Nat.eqb_refl; simpl.
  assert (Hbb : (if b =? b' then Some [b]
                 else if b =? 1 then Some [b'] else if b' =? 1 then Some [b] else None)
                = Some [b]).
  { destruct (Nat.eqb_spec b b'); [done |].
    destruct Hb as [->| ->]; [done |]. by destruct (Nat.eqb_spec b 1). }
  rewrite Hbb; simpl. by destruct (h =? 1).
Qed.

Lemma zip_with_neutral_r {A B} (f : A → B → A) (e : B) (l : list A) (k : list B) :
  (∀ x, f x e = x) → Forall (λ y, y = e) k → length k = length l →
  zip_with f l k = l.
Proof.
  intros Hf Hk. revert l. induction Hk as [|y k -> _ IH]; intros [|x l] Hl; simpl in *; try done.
  rewrite Hf, IH; [done | lia].
Qed.

Lemma zip_with_absorb_r {A B} (f : A → B → B) (e : B) (l : list A) (k : list B) :
  (∀ x, f x e = e) → Forall (λ y, y = e) k →
  Forall (λ y, y = e) (zip_with f l k).
Proof.
  intros Hf Hk. revert l. induction Hk as [|y k -> _ IH]; intros [|x l]; simpl; try done.
  constructor; [apply Hf | apply IH].
Qed.

Lemma expand_as_same_rank {A} s target (l : list A) :
  length s = length target → expand_as s target l = expand s target l.
Proof. intros Hl. unfold expand_as. by rewrite Hl, Nat.sub_diag. Qed.

Lemma broadcast_op_same {A B C} (f : A → B → C) (x : tensor A) (y : tensor B) :
  shape y = shape x → wf x → wf y →
  broadcast_op f x y = Ok (Tensor (shape x) (zip_with f (data x) (data y))).
Proof.
  intros Hs Hx Hy. unfold broadcast_op. rewrite Hs, broadcast_shapes_refl.
  rewrite !expand_as_same_rank by done.
  rewrite !expand_id; [done | by rewrite <- Hs | done].
Qed.

Lemma broadcast_op_heads {A B C} (f : A → B → C) (x : tensor A) (y : tensor B)
    b b' h s d :
  shape x = [b; h; s; d] → shape y = [b'; 1; s; d] → b' = b ∨ b' = 1 →
  wf x →
  broadcast_op f x y
  = Ok (Tensor [b; h; s; d]
          (zip_with f (data x) (expand [b'; 1; s; d] [b; h; s; d] (data y)))).
Proof.
  intros Hx Hy Hb Hwf. unfold broadcast_op.
  rewrite Hx, Hy, broadcast_shapes_heads by done.
  rewrite !expand_as_same_rank by done.
  rewrite expand_id; [done | by rewrite <- Hx].
Qed.

Lemma expandable_heads b b' h s d :
  b' = b ∨ b' = 1 → expandable [b'; 1; s; d] [b; h; s; d].
Proof.
  intros Hb. unfold expandable.
  constructor; [destruct Hb; auto |].
  constructor; [by right |].
  constructor; [by left |].
  constructor; [by left | constructor].
Qed.

(** ** Gathering rows of the rotary table *)

Lemma index_entry_in_range {A} (rows : list (list A)) n i :
  length rows = n → (- Z.of_nat n ≤ i < Z.of_nat n)%Z →
  ∃ r, index_entry rows n i = Ok r ∧ r ∈ rows.
Proof.
  intros Hn Hi. unfold index_entry.
  set (j := if (i <? 0)%Z then (i + Z.of_nat n)%Z else i).
  assert (Hj : (0 ≤ j < Z.of_nat n)%Z) by (subst j; destruct (Z.ltb_spec i 0); lia).
  destruct (Z.leb_spec 0 j); [|lia]. destruct (Z.ltb_spec j (Z.of_nat n)); [|lia].
  simpl. destruct (rows !! Z.to_nat j) as [r|] eqn:Hr.
  - exists r. split; [done |]. by eapply list_elem_of_lookup_2.
  - apply lookup_ge_None in Hr. lia.
Qed.

Lemma index_entry_zero {A} (rows : list (list A)) n r0 :
  rows !! 0 = Some r0 → 0 < n → index_entry rows n 0 = Ok r0.
Proof.
  intros Hr Hn. unfold index_entry.
  change (0 <? 0)%Z with false. cbv zeta iota.
  change (0 <=? 0)%Z with true. change (Z.to_nat 0) with 0.
  destruct (Z.ltb_spec 0 (Z.of_nat n)); [|lia].
  cbn [andb]. by rewrite Hr.
Qed.

Lemma mapM_index_entry {A} (rows : list (list A)) n (ids : list Z) :
  length rows = n → Forall (λ i, (- Z.of_nat n ≤ i < Z.of_nat n)%Z) ids →
  ∃ rs, mapM (index_entry rows n) ids = Ok rs ∧ length rs = length ids ∧
        Forall (λ r, r ∈ rows) rs ∧
        (Forall (λ i, i = 0%Z) ids → Forall (λ r, rows !! 0 = Some r) rs).
Proof.
  intros Hn. induction 1 as [|i ids Hi _ (rs & Hrs & Hlen & Hin & Hz)].
  - exists []. simpl. split_and!; by constructor.
  - destruct (index_entry_in_range rows n i Hn Hi) as (r & Hr & Hrin).
    exists (r :: rs). simpl. rewrite Hr; simpl. rewrite Hrs; simpl.
    split_and!; [done | by rewrite Hlen | by constructor |].
    intros Hall. apply Forall_cons in Hall as [-> Hall].
    constructor; [| by apply Hz].
    destruct (rows !! 0) as [r0|] eqn:Hr0.
    + rewrite (index_entry_zero rows n r0) in Hr by (done || lia). congruence.
    + apply lookup_ge_None in Hr0. lia.
Qed.

Lemma squeeze_table {A} (tbl : tensor A) L d :
  shape tbl = [1; 1; L; d] →
  squeeze 1 tbl ≫= squeeze 0 = Ok (Tensor [L; d] (data tbl)).
Proof. destruct tbl as [s e]; simpl. by intros ->. Qed.

(** Gathering the rows of a squeezed table [L, d] at an index tensor of
    shape [b', s] and adding the head axis. *)
Lemma gather_rows {A} (e : list A) L d (ids : tensor Z) b' s :
  length e = L * d → shape ids = [b'; s] → wf ids →
  Forall (λ i, (- Z.of_nat L ≤ i < Z.of_nat L)%Z) (data ids) →
  ∃ g, index_first (Tensor [L; d] e) (Some ids) ≫= unsqueeze 1 = Ok g ∧
       shape g = [b'; 1; s; d] ∧ wf g ∧
       ∀ P : A → Prop, Forall (λ i, i = 0%Z) (data ids) →
                       Forall P (take d e) → Forall P (data g).
Proof.
  intros He Hs Hwf Hids. unfold index_first; simpl. rewrite Nat.mul_1_r.
  destruct (mapM_index_entry (chunks d L e) L (data ids))
    as (rs & Hrs & Hlen & Hin & Hz); [apply length_chunks | done |].
  rewrite Hrs; simpl. unfold unsqueeze; simpl. rewrite Hs; simpl.
  eexists; split; [done |]. split; [done |].
  pose proof (Forall_length_chunks d L e He) as Hrows.
  assert (Hrl : Forall (λ r, length r = d) rs).
  { eapply Forall_impl; [exact Hin |]. intros r Hr; simpl in *.
    rewrite Forall_forall in Hrows. by apply Hrows. }
  split.
  - unfold wf in *; simpl. rewrite (length_concat_uniform d) by done.
    rewrite Hlen, Hwf, Hs; simpl. lia.
  - intros P Hall HP. simpl. apply Forall_concat_2.
    eapply Forall_impl; [exact (Hz Hall) |]. intros r Hr; simpl in *.
    destruct L as [|L]; [done |]. simpl in Hr. by injection Hr as <-.
Qed.

Local Arguments expand : simpl never.

Section RotaryEmbed.
Context {R : Type} (radd rmul : R → R → R) (rneg : R → R).

Lemma rotate_half_ok (x : tensor R) pre d :
  shape x = pre ++ [d] → wf x →
  ∃ y, rotate_half rneg x = Ok y ∧ shape y = shape x ∧ wf y.
Proof.
  intros Hs Hwf. rewrite (rotate_half_rows rneg pre d x Hs Hwf).
  assert (Hle : d / 2 ≤ d) by (apply Nat.Div0.div_le_upper_bound; lia).
  replace (d - d / 2 + d / 2) with d by lia.
  eexists; split; [done |]. split; [by rewrite Hs |].
  unfold wf in *; simpl. rewrite Hs, numel_app in Hwf; simpl in Hwf.
  rewrite (length_concat_uniform d).
  - rewrite length_fmap, length_chunks, numel_app; simpl. lia.
  - apply Forall_fmap. eapply Forall_impl.
    + apply (Forall_length_chunks d (numel pre)); lia.
    + intros r Hr; simpl in *. by apply length_rot_row.
Qed.

(** One of the two lines 40-41: [(x * cos) + (rotate_half(x) * sin)] on
    a head-split tensor and gathered rotary rows. *)
Lemma embed_one (x cosg sing : tensor R) b b' h s d :
  shape x = [b; h; s; d] → wf x →
  shape cosg = [b'; 1; s; d] → wf cosg →
  shape sing = [b'; 1; s; d] → wf sing →
  b' = b ∨ b' = 1 →
  ∃ x', (x_cos ← mul rmul x cosg;
         x_rot ← rotate_half rneg x ≫= λ rx, mul rmul rx sing;
         add radd x_cos x_rot) = Ok x' ∧
        shape x' = shape x ∧ wf x' ∧
        ∀ one zero : R,
          (∀ a, rmul a one = a) → (∀ a, rmul a zero = zero) →
          (∀ a, radd a zero = a) →
          Forall (λ c, c = one) (data cosg) →
          Forall (λ c, c = zero) (data sing) → x' = x.
Proof.
  intros Hx Hwx Hc Hwc Hsn Hws Hb. unfold mul, add.
  rewrite (broadcast_op_heads rmul x cosg b b' h s d) by done; simpl.
  destruct (rotate_half_ok x [b; h; s] d Hx Hwx) as (y & Hy & Hys & Hwy).
  rewrite Hy; simpl. rewrite Hx in Hys.
  rewrite (broadcast_op_heads rmul y sing b b' h s d) by done; simpl.
  pose proof (expandable_heads b b' h s d Hb) as Hexp.
  assert (Hlc : length (expand [b'; 1; s; d] [b; h; s; d] (data cosg))
                = length (data x)).
  { rewrite (expand_length _ _ _ Hexp), Hwx, Hx; [done |].
    by rewrite Hwc, Hc. }
  assert (Hls : length (expand [b'; 1; s; d] [b; h; s; d] (data sing))
                = length (data y)).
  { rewrite (expand_length _ _ _ Hexp), Hwy, Hys; [done |].
    by rewrite Hws, Hsn. }
  rewrite broadcast_op_same; simpl.
  - eexists; split; [done |]. split; [by rewrite Hx |]. split.
    + unfold wf; simpl. rewrite !length_zip_with, Hlc, Hls.
      rewrite Hwy, Hwx, Hys, Hx. simpl. lia.
    + intros one zero H1 H0 Ha Hone Hzero.
      destruct x as [sx ex]; simpl in *. subst sx. f_equal.
      rewrite (zip_with_neutral_r rmul one ex); [| done | | done].
      * apply (zip_with_neutral_r radd zero); [done | |].
        -- apply zip_with_absorb_r; [done |]. by apply expand_Forall.
        -- rewrite length_zip_with, Hls, Nat.min_id. unfold wf in *; simpl in *.
           by rewrite Hwy, Hys, Hwx.
      * by apply expand_Forall.
  - done.
  - unfold wf; cbn [data shape]. rewrite length_zip_with, Hlc, Nat.min_id.
    by rewrite Hwx, Hx.
  - unfold wf; cbn [data shape]. rewrite length_zip_with, Hls, Nat.min_id, Hwy, Hys.
    done.
Qed.

(** Lines 40-41 on a head-split tensor and gathered rotary rows, with
    the elements of the result written out. *)
Lemma embed_one_data (x cosg sing : tensor R) b b' h s d :
  shape x = [b; h; s; d] → wf x →
  shape cosg = [b'; 1; s; d] → wf cosg →
  shape sing = [b'; 1; s; d] → wf sing →
  b' = b ∨ b' = 1 →
  (x_cos ← mul rmul x cosg;
   x_rot ← rotate_half rneg x ≫= λ rx, mul rmul rx sing;
   add radd x_cos x_rot)
  = Ok (Tensor [b; h; s; d]
          (zip_with radd
             (zip_with rmul (data x)
                (expand [b'; 1; s; d] [b; h; s; d] (data cosg)))
             (zip_with rmul
                (concat (rot_row rneg d <$> chunks d (b * h * s) (data x)))
                (expand [b'; 1; s; d] [b; h; s; d] (data sing))))).
Proof.
  intros Hx Hwx Hc Hwc Hsn Hws Hb. unfold mul, add.
  rewrite (broadcast_op_heads rmul x cosg b b' h s d) by done; simpl.
  destruct (rotate_half_ok x [b; h; s] d Hx Hwx) as (y & Hy & Hys & Hwy).
  pose proof (rotate_half_rows rneg [b; h; s] d x Hx Hwx) as Hrow.
  rewrite Hy in Hrow. injection Hrow as Hyeq.
  rewrite Hy; simpl. rewrite Hx in Hys.
  rewrite (broadcast_op_heads rmul y sing b b' h s d) by done; simpl.
  pose proof (expandable_heads b b' h s d Hb) as Hexp.
  assert (Hlc : length (expand [b'; 1; s; d] [b; h; s; d] (data cosg))
                = length (data x)).
  { rewrite (expand_length _ _ _ Hexp), Hwx, Hx; [done |].
    by rewrite Hwc, Hc. }
  assert (Hls : length (expand [b'; 1; s; d] [b; h; s; d] (data sing))
                = length (data y)).
  { rewrite (expand_length _ _ _ Hexp), Hwy, Hys; [done |].
    by rewrite Hws, Hsn. }
  rewrite broadcast_op_same; simpl.
  - do 4 f_equal. rewrite Hyeq. simpl. do 3 f_equal. lia.
  - done.
  - unfold wf; cbn [data shape]. rewrite length_zip_with, Hlc, Nat.min_id.
    by rewrite Hwx, Hx.
  - unfold wf; cbn [data shape]. rewrite length_zip_with, Hls, Nat.min_id, Hwy, Hys.
    done.
Qed.

(** The two products and the sum of lines 40-41 on the element lists,
    where every cosine is [one] and every sine is [zero]: the sum is the
    left operand as soon as [a * one + c * zero = a] for the elements [a]
    of the left operand and [c] of the rotated operand. *)
Lemma zip_embed_unchanged (one zero : R) (X RX C S : list R) :
  length C = length X → length RX = length X → length S = length X →
  Forall (λ c, c = one) C → Forall (λ c, c = zero) S →
  Forall (λ c, ∀ a, a ∈ X → radd (rmul a one) (rmul c zero) = a) RX →
  zip_with radd (zip_with rmul X C) (zip_with rmul RX S) = X.
Proof.
  revert RX C S.
  induction X as [|a X IH]; intros [|c RX] [|o C] [|z S]; simpl; try done.
  intros HC HRX HS Hone Hzero Hlaw.
  apply Forall_cons in Hone as [-> Hone].
  apply Forall_cons in Hzero as [-> Hzero].
  apply Forall_cons in Hlaw as [Ha Hlaw].
  f_equal.
  - apply Ha. by left.
  - apply IH; [lia | lia | lia | done | done |].
    eapply Forall_impl; [exact Hlaw |]. intros c' Hc' a' Ha'; simpl in *.
    apply Hc'. by right.
Qed.

(** Every element of [rotate_half(x)] is an element of [x] or the
    opposite of one. *)
Lemma rot_rows_Forall (P : R → Prop) d n (X : list R) :
  Forall (λ c, P c ∧ P (rneg c)) X →
  Forall P (concat (rot_row rneg d <$> chunks d n X)).
Proof.
  intros HX. apply Forall_concat_2, Forall_fmap.
  eapply Forall_impl; [by apply Forall_chunks |]. intros r Hr; simpl.
  unfold rot_row. apply Forall_app; split.
  - apply Forall_fmap, Forall_drop. eapply Forall_impl; [exact Hr |].
    by intros c [_ ?].
  - apply Forall_take. eapply Forall_impl; [exact Hr |]. by intros c [? _].
Qed.

(** Lines 40-41 return [x] itself when every gathered cosine is [one],
    every gathered sine is [zero], and [a * one + (± c) * zero = a] for
    the elements [a], [c] of [x]. *)
Lemma embed_one_unchanged (x cosg sing : tensor R) b b' h s d one zero :
  shape x = [b; h; s; d] → wf x →
  shape cosg = [b'; 1; s; d] → wf cosg →
  shape sing = [b'; 1; s; d] → wf sing →
  b' = b ∨ b' = 1 →
  Forall (λ c, c = one) (data cosg) →
  Forall (λ c, c = zero) (data sing) →
  (∀ a c, a ∈ data x → c ∈ data x →
     radd (rmul a one) (rmul c zero) = a ∧
     radd (rmul a one) (rmul (rneg c) zero) = a) →
  (x_cos ← mul rmul x cosg;
   x_rot ← rotate_half rneg x ≫= λ rx, mul rmul rx sing;
   add radd x_cos x_rot) = Ok x.
Proof.
  intros Hx Hwx Hc Hwc Hsn Hws Hb Hone Hzero Hlaw.
  rewrite (embed_one_data x cosg sing b b' h s d) by done.
  pose proof (expandable_heads b b' h s d Hb) as Hexp.
  destruct x as [sx ex]; simpl in *. subst sx. do 2 f_equal.
  unfold wf in *; simpl in *.
  apply (zip_embed_unchanged one zero).
  - rewrite (expand_length _ _ _ Hexp), Hwx; [done |]. by rewrite Hwc, Hc.
  - rewrite (length_concat_uniform d).
    + rewrite length_fmap, length_chunks. lia.
    + apply Forall_fmap. eapply Forall_impl.
      * apply (Forall_length_chunks d (b * h * s)); lia.
      * intros r Hr; simpl in *. by apply length_rot_row.
  - rewrite (expand_length _ _ _ Hexp), Hwx; [done |]. by rewrite Hws, Hsn.
  - by apply expand_Forall.
  - by apply expand_Forall.
  - apply rot_rows_Forall. apply Forall_forall. intros c Hc'. split.
    + intros a Ha. by apply Hlaw.
    + intros a Ha. by apply Hlaw.
Qed.
End RotaryEmbed.

Section ApplyRotary.
Context {R : Type} (radd rmul : R → R → R) (rneg : R → R).

(** C5 (as amended): on head-split [q], [k] of shapes [b, h, s, d] and
    [b, hk, s, d], a rotary table [1, 1, L, d] and a position index of
    shape [b, s] (or [1, s]) whose entries select rows of the table,
    [apply_rotary_pos_emb] returns a pair whose shapes are the shapes of
    [q] and [k]; and when every position index is 0 and row 0 of the
    table is cos = [one], sin = [zero], the first result is [q] itself as
    soon as [a * one + c * zero = a] and [a * one + (- c) * zero = a] for
    the elements [a], [c] of [q], and likewise the second result and
    [k].  Scalars with [a * 1 = a], [a * 0 = 0], [a + 0 = a] satisfy
    the condition for every tensor (last conjunct); with floating-point
    scalars it is a condition on the elements of the tensor, which an
    infinite element does not meet. *)
Theorem apply_rotary_pos_emb_shape_identity
    (q k cos sin : tensor R) (ids : tensor Z) (b b' h hk s d L : nat) :
  shape q = [b; h; s; d] → wf q →
  shape k = [b; hk; s; d] → wf k →
  shape cos = [1; 1; L; d] → wf cos →
  shape sin = [1; 1; L; d] → wf sin →
  shape ids = [b'; s] → wf ids → b' = b ∨ b' = 1 →
  Forall (λ i, (- Z.of_nat L ≤ i < Z.of_nat L)%Z) (data ids) →
  ∃ q' k',
    apply_rotary_pos_emb radd rmul rneg q k cos sin (Some ids) = Ok (q', k') ∧
    shape q' = shape q ∧ shape k' = shape k ∧
    ∀ one zero : R,
      Forall (λ i, i = 0%Z) (data ids) →
      Forall (λ c, c = one) (take d (data cos)) →
      Forall (λ c, c = zero) (take d (data sin)) →
      ((∀ a c, a ∈ data q → c ∈ data q →
          radd (rmul a one) (rmul c zero) = a ∧
          radd (rmul a one) (rmul (rneg c) zero) = a) → q' = q) ∧
      ((∀ a c, a ∈ data k → c ∈ data k →
          radd (rmul a one) (rmul c zero) = a ∧
          radd (rmul a one) (rmul (rneg c) zero) = a) → k' = k) ∧
      ((∀ a, rmul a one = a) → (∀ a, rmul a zero = zero) →
       (∀ a, radd a zero = a) → q' = q ∧ k' = k).
Proof.
  intros Hq Hwq Hk Hwk Hc Hwc Hsn Hws Hi Hwi Hb Hrange.
  assert (Hlc : length (data cos) = L * d)
    by (unfold wf in Hwc; rewrite Hwc, Hc; simpl; lia).
  assert (Hls : length (data sin) = L * d)
    by (unfold wf in Hws; rewrite Hws, Hsn; simpl; lia).
  destruct (gather_rows (data cos) L d ids b' s Hlc Hi Hwi Hrange)
    as (cg & Hcg & Hcgs & Hcgw & Hcg1).
  destruct (gather_rows (data sin) L d ids b' s Hls Hi Hwi Hrange)
    as (sg & Hsg & Hsgs & Hsgw & Hsg0).
  destruct (embed_one radd rmul rneg q cg sg b b' h s d)
    as (q' & Hq' & Hq's & _ & _); try done.
  destruct (embed_one radd rmul rneg k cg sg b b' hk s d)
    as (k' & Hk' & Hk's & _ & _); try done.
  exists q', k'. split_and!; try done.
  - unfold apply_rotary_pos_emb.
    rewrite (squeeze_table cos L d Hc), (squeeze_table sin L d Hsn).
    cbn [mbind result_bind]. rewrite Hcg, Hsg. cbn [mbind result_bind].
    revert Hq' Hk'. cbn [mbind result_bind].
    destruct (mul rmul q cg) as [qc|]; cbn [mbind result_bind]; [|done].
    destruct (rotate_half rneg q) as [rq|]; cbn [mbind result_bind]; [|done].
    destruct (mul rmul rq sg) as [qr|]; cbn [mbind result_bind]; [|done].
    intros ->. cbn [mbind result_bind].
    destruct (mul rmul k cg) as [kc|]; cbn [mbind result_bind]; [|done].
    destruct (rotate_half rneg k) as [rk|]; cbn [mbind result_bind]; [|done].
    destruct (mul rmul rk sg) as [kr|]; cbn [mbind result_bind]; [|done].
    by intros ->.
  - intros one zero Hz Hone Hzero.
    assert (Hqlaw : (∀ a c, a ∈ data q → c ∈ data q →
                       radd (rmul a one) (rmul c zero) = a ∧
                       radd (rmul a one) (rmul (rneg c) zero) = a) → q' = q).
    { intros Hlaw.
      pose proof (embed_one_unchanged radd rmul rneg q cg sg b b' h s d one zero
                    Hq Hwq Hcgs Hcgw Hsgs Hsgw Hb
                    (Hcg1 _ Hz Hone) (Hsg0 _ Hz Hzero) Hlaw) as Hid.
      rewrite Hq' in Hid. by injection Hid. }
    assert (Hklaw : (∀ a c, a ∈ data k → c ∈ data k →
                       radd (rmul a one) (rmul c zero) = a ∧
                       radd (rmul a one) (rmul (rneg c) zero) = a) → k' = k).
    { intros Hlaw.
      pose proof (embed_one_unchanged radd rmul rneg k cg sg b b' hk s d one zero
                    Hk Hwk Hcgs Hcgw Hsgs Hsgw Hb
                    (Hcg1 _ Hz Hone) (Hsg0 _ Hz Hzero) Hlaw) as Hid.
      rewrite Hk' in Hid. by injection Hid. }
    split_and!; [done | done |].
    intros H1 H0 Ha. split.
    + apply Hqlaw. intros a c _ _. by rewrite H1, !H0, Ha.
    + apply Hklaw. intros a c _ _. by rewrite H1, !H0, Ha.
Qed.
End ApplyRotary.

Lemma apply_rotary_pos_emb_shape_identity_witness :
  let q := Tensor [1; 2; 1; 2] [1.5; -2; 0.25; 3]%float in
  let k := Tensor [1; 1; 1; 2] [0.5; 4]%float in
  let cos := Tensor [1; 1; 2; 2] [1; 1; 0.5; 0.5]%float in
  let sin := Tensor [1; 1; 2; 2] [0; 0; 0.75; 0.75]%float in
  let ids := Tensor [1; 1] [0]%Z in
  apply_rotary_pos_emb PrimFloat.add PrimFloat.mul PrimFloat.opp
    q k cos sin (Some ids) = Ok (q, k).
Proof.
  intros q k cos sin ids.
  assert (Hrange : Forall (λ i, (- Z.of_nat 2 ≤ i < Z.of_nat 2)%Z) (data ids))
    by (repeat (apply Forall_cons; split; [lia |]); done).
  assert (Hzero : Forall (λ i, i = 0%Z) (data ids))
    by (repeat (apply Forall_cons; split; [reflexivity |]); done).
  assert (Hcos : Forall (λ c, c = 1%float) (take 2 (data cos)))
    by (repeat (apply Forall_cons; split; [reflexivity |]); done).
  assert (Hsin : Forall (λ c, c = 0%float) (take 2 (data sin)))
    by (repeat (apply Forall_cons; split; [reflexivity |]); done).
  destruct (apply_rotary_pos_emb_shape_identity
              PrimFloat.add PrimFloat.mul PrimFloat.opp
              q k cos sin ids 1 1 2 1 1 2 2
              eq_refl eq_refl eq_refl eq_refl eq_refl eq_refl eq_refl eq_refl
              eq_refl eq_refl (or_introl eq_refl) Hrange)
    as (q' & k' & Hrot & _ & _ & Hid).
  destruct (Hid 1%float 0%float Hzero Hcos Hsin) as (Hq & Hk & _).
  rewrite Hq, Hk in Hrot; [exact Hrot | |].
  - intros a c Ha Hc.
    repeat (apply elem_of_cons in Ha as [-> | Ha]);
      try (by apply elem_of_nil in Ha);
      repeat (apply elem_of_cons in Hc as [-> | Hc]);
      try (by apply elem_of_nil in Hc); split; reflexivity.
  - intros a c Ha Hc.
    repeat (apply elem_of_cons in Ha as [-> | Ha]);
      try (by apply elem_of_nil in Ha);
      repeat (apply elem_of_cons in Hc as [-> | Hc]);
      try (by apply elem_of_nil in Hc); split; reflexivity.
Defined.

(** C5, the claim as stated, fails in two ways.  In floating-point
    arithmetic, with every position index 0 and row 0 of the table
    cos = 1, sin = 0, the query [[inf, 1]] comes back as [[inf, nan]]:
    [rotate_half] pairs the 1 with the infinity, and [inf * 0] is not a
    number.  And a position index with two rows applied to a query of
    batch extent 1 broadcasts the batch axis: the result has shape
    [2, 2, 2, 2], not the shape [1, 2, 2, 2] of the query. *)
Lemma apply_rotary_pos_emb_changes_input :
  (let q := Tensor [1; 1; 1; 2] [infinity; 1]%float in
   let cos := Tensor [1; 1; 1; 2] [1; 1]%float in
   let sin := Tensor [1; 1; 1; 2] [0; 0]%float in
   let ids := Tensor [1; 1] [0]%Z in
   let q' := Tensor [1; 1; 1; 2] [infinity; nan]%float in
   Forall (λ i, i = 0%Z) (data ids) ∧
   apply_rotary_pos_emb PrimFloat.add PrimFloat.mul PrimFloat.opp
     q q cos sin (Some ids) = Ok (q', q') ∧
   q' ≠ q) ∧
  (let q := Tensor [1; 2; 2; 2] [1; 2; 3; 4; 5; 6; 7; 8]%Z in
   let cos := Tensor [1; 1; 3; 2] [1; 1; 5; 5; 7; 7]%Z in
   let sin := Tensor [1; 1; 3; 2] [0; 0; 2; 2; 3; 3]%Z in
   let ids := Tensor [2; 2] [0; 0; 0; 0]%Z in
   ∃ q' k',
     apply_rotary_pos_emb Z.add Z.mul Z.opp q q cos sin (Some ids) = Ok (q', k') ∧
     shape q' = [2; 2; 2; 2] ∧ shape k' = [2; 2; 2; 2] ∧
     shape q' ≠ shape q).
Proof.
  split.
  - split_and!.
    + by repeat constructor.
    + reflexivity.
    + intros H. apply (f_equal (λ t, is_nan <$> data t)) in H.
      vm_compute in H. discriminate.
  - eexists _, _. split_and!; [vm_compute; reflexivity | done | done | done].
Qed.

(** ** Concatenation and slicing along an inner axis *)

Lemma axis_lookup (pre post : list nat) d : (pre ++ d :: post) !! length pre = Some d.
Proof. by apply list_lookup_middle. Qed.

Lemma axis_insert (pre post : list nat) d e :
  <[length pre := e]> (pre ++ d :: post) = pre ++ e :: post.
Proof. rewrite <- (Nat.add_0_r (length pre)). by rewrite insert_app_r. Qed.

Lemma axis_drop (pre post : list nat) d :
  drop (length pre) (pre ++ d :: post) = d :: post.
Proof. by rewrite drop_app_length. Qed.

Lemma axis_drop_S (pre post : list nat) d :
  drop (S (length pre)) (pre ++ d :: post) = post.
Proof.
  replace (S (length pre)) with (length (pre ++ [d])) by (rewrite length_app; simpl; lia).
  by rewrite (cons_middle d pre post), app_assoc, drop_app_length.
Qed.

Lemma cat_blocks {A} pre post dx dy (x y : tensor A) :
  shape x = pre ++ dx :: post → shape y = pre ++ dy :: post →
  cat (length pre) x y
  = Ok (Tensor (pre ++ (dx + dy) :: post)
          (concat (zip_with app
                     (chunks (dx * numel post) (numel pre) (data x))
                     (chunks (dy * numel post) (numel pre) (data y))))).
Proof.
  destruct x as [sx ex], y as [sy ey]; simpl. intros -> ->. unfold cat; simpl.
  rewrite !axis_lookup, !axis_insert, !axis_drop, take_app_length.
  by rewrite bool_decide_eq_true_2.
Qed.

Lemma narrow_blocks {A} pre post d start len (x : tensor A) :
  shape x = pre ++ d :: post → start + len ≤ d →
  narrow (length pre) start len x
  = Ok (Tensor (pre ++ len :: post)
          (concat ((λ b, take (len * numel post) (drop (start * numel post) b))
                     <$> chunks (d * numel post) (numel pre) (data x)))).
Proof.
  destruct x as [sx ex]; simpl. intros -> Hle. unfold narrow; simpl.
  rewrite axis_lookup, axis_insert, axis_drop_S, take_app_length.
  by destruct (Nat.leb_spec (start + len) d); [|lia].
Qed.

Lemma fmap_zip_with_app_l {A} k (xs ys : list (list A)) :
  Forall (λ r, length r = k) xs → length ys = length xs →
  (λ b, take k (drop 0 b)) <$> zip_with app xs ys = xs.
Proof.
  intros Hxs. revert ys.
  induction Hxs as [|x xs Hx _ IH]; intros [|y ys] Hl; csimpl in *; try done.
  rewrite drop_0, take_app_length' by done. f_equal. apply IH. lia.
Qed.

Lemma fmap_zip_with_app_r {A} k j (xs ys : list (list A)) :
  Forall (λ r, length r = k) xs → Forall (λ r, length r = j) ys →
  length xs = length ys →
  (λ b, take j (drop k b)) <$> zip_with app xs ys = ys.
Proof.
  intros Hxs. revert ys.
  induction Hxs as [|x xs Hx _ IH]; intros [|y ys] Hys Hl; csimpl in *; try done.
  apply Forall_cons in Hys as [Hy Hys].
  rewrite drop_app_length', take_ge by lia. f_equal. apply IH; [done | lia].
Qed.

Lemma Forall_length_zip_with_app {A} k j (xs ys : list (list A)) :
  Forall (λ r, length r = k) xs → Forall (λ r, length r = j) ys →
  Forall (λ r, length r = k + j) (zip_with app xs ys).
Proof.
  intros Hxs. revert ys.
  induction Hxs as [|x xs Hx _ IH]; intros [|y ys] Hys; simpl; try constructor.
  - apply Forall_cons in Hys as [Hy _]. rewrite length_app; lia.
  - apply Forall_cons in Hys as [_ Hys]. by apply IH.
Qed.

(** The two halves of a concatenation along axis [length pre], read back
    with [narrow]. *)
Lemma narrow_cat {A} pre post dx dy (x y : tensor A) :
  shape x = pre ++ dx :: post → wf x →
  shape y = pre ++ dy :: post → wf y →
  ∃ m, cat (length pre) x y = Ok m ∧
       shape m = pre ++ (dx + dy) :: post ∧ wf m ∧
       narrow (length pre) 0 dx m = Ok x ∧
       narrow (length pre) dx dy m = Ok y.
Proof.
  intros Hx Hwx Hy Hwy.
  rewrite (cat_blocks pre post dx dy x y Hx Hy).
  unfold wf in Hwx, Hwy. rewrite Hx, numel_app in Hwx. rewrite Hy, numel_app in Hwy.
  simpl in Hwx, Hwy.
  set (xs := chunks (dx * numel post) (numel pre) (data x)).
  set (ys := chunks (dy * numel post) (numel pre) (data y)).
  assert (Hxs : Forall (λ r, length r = dx * numel post) xs)
    by (apply Forall_length_chunks; lia).
  assert (Hys : Forall (λ r, length r = dy * numel post) ys)
    by (apply Forall_length_chunks; lia).
  assert (Hlx : length xs = numel pre) by apply length_chunks.
  assert (Hly : length ys = numel pre) by apply length_chunks.
  pose proof (Forall_length_zip_with_app _ _ xs ys Hxs Hys) as Hzs.
  assert (Hlz : length (zip_with app xs ys) = numel pre)
    by (rewrite length_zip_with; lia).
  assert (Hch : chunks ((dx + dy) * numel post) (numel pre)
                  (concat (zip_with app xs ys)) = zip_with app xs ys).
  { rewrite <- Hlz at 1. apply chunks_concat.
    eapply Forall_impl; [exact Hzs |]. intros r Hr; simpl in *. lia. }
  eexists; split; [done |]. split; [done |]. split_and!.
  - unfold wf; simpl.
    rewrite (length_concat_uniform _ _ Hzs), Hlz, numel_app. simpl. lia.
  - rewrite (narrow_blocks pre post (dx + dy)) by (done || lia). simpl.
    rewrite Hch, fmap_zip_with_app_l by (done || lia).
    subst xs. rewrite concat_chunks by lia. by destruct x; simpl in *; subst.
  - rewrite (narrow_blocks pre post (dx + dy)) by (done || lia). simpl.
    rewrite Hch, fmap_zip_with_app_r by (done || lia).
    subst ys. rewrite concat_chunks by lia. by destruct y; simpl in *; subst.
Qed.

(** C4: without a previous cache the merge returns [(key, value)] as they
    are; with a previous cache [past_key, past_value] of shape [B, H, N, D]
    and new tensors of shape [B, H, L, D] it returns tensors of shape
    [B, H, N + L, D] whose first [N] entries along the sequence axis are
    the previous cache and whose remaining [L] entries are the new
    tensors.  The merge is a pure function of its arguments: the previous
    cache is a value, and no store is written. *)
Theorem merge_cache_concat {R} (past_key past_value key value : tensor R)
    (B H N L D : nat) :
  shape past_key = [B; H; N; D] → wf past_key →
  shape past_value = [B; H; N; D] → wf past_value →
  shape key = [B; H; L; D] → wf key →
  shape value = [B; H; L; D] → wf value →
  merge_cache None key value = Ok (key, value) ∧
  ∃ mk mv,
    merge_cache (Some (past_key, past_value)) key value = Ok (mk, mv) ∧
    shape mk = [B; H; N + L; D] ∧ shape mv = [B; H; N + L; D] ∧
    narrow 2 0 N mk = Ok past_key ∧ narrow 2 0 N mv = Ok past_value ∧
    narrow 2 N L mk = Ok key ∧ narrow 2 N L mv = Ok value.
Proof.
  intros Hpk Hwpk Hpv Hwpv Hk Hwk Hv Hwv. split; [done |].
  destruct (narrow_cat [B; H] [D] N L past_key key Hpk Hwpk Hk Hwk)
    as (mk & Hmk & Hmks & _ & Hmk1 & Hmk2).
  destruct (narrow_cat [B; H] [D] N L past_value value Hpv Hwpv Hv Hwv)
    as (mv & Hmv & Hmvs & _ & Hmv1 & Hmv2).
  exists mk, mv. simpl in *. unfold merge_cache. rewrite Hmk; simpl. rewrite Hmv; simpl.
  by split_and!.
Qed.

Lemma merge_cache_concat_witness :
  let past_key := Tensor [1; 1; 2; 2] [1; 2; 3; 4]%Z in
  let past_value := Tensor [1; 1; 2; 2] [5; 6; 7; 8]%Z in
  let key := Tensor [1; 1; 1; 2] [9; 10]%Z in
  let value := Tensor [1; 1; 1; 2] [11; 12]%Z in
  merge_cache None key value = Ok (key, value) ∧
  ∃ mk mv,
    merge_cache (Some (past_key, past_value)) key value = Ok (mk, mv) ∧
    shape mk = [1; 1; 2 + 1; 2] ∧ shape mv = [1; 1; 2 + 1; 2] ∧
    narrow 2 0 2 mk = Ok past_key ∧ narrow 2 0 2 mv = Ok past_value ∧
    narrow 2 2 1 mk = Ok key ∧ narrow 2 2 1 mv = Ok value.
Proof.
  intros past_key past_value key value.
  apply (merge_cache_concat past_key past_value key value 1 1 2 1 2); reflexivity.
Defined.

(** ** The forward pass: kernel selection *)

Section ForwardFacts.
Context {R : Type} (radd rmul : R → R → R) (rneg : R → R).
Context (self : InternLMAttention R) (K : Kernels R) (rank : nat).

(** [attn_kernel] is [select_backend] followed by [run_backend]: a
    failed selection raises before any kernel runs and leaves the hub
    as it is. *)
Lemma attn_kernel_select use_local_attn max_seqlen bsz q_len q k v mask hub :
  attn_kernel K rank use_local_attn max_seqlen bsz q_len q k v mask hub
  = match select_backend K use_local_attn with
    | Ok b => run_backend K rank b max_seqlen bsz q_len q k v mask hub
    | Raise e => (Raise e, hub)
    end.
Proof.
  unfold attn_kernel, select_backend, run_backend.
  destruct (SUPPORT_FLASH2 K), (SUPPORT_XFORMERS K), use_local_attn; reflexivity.
Qed.

Lemma select_backend_flash use_local_attn :
  select_backend K use_local_attn
  = if SUPPORT_FLASH2 K
    then Ok (if use_local_attn then PackedVarlen else DenseCausal)
    else Raise AssertionError.
Proof.
  unfold select_backend.
  destruct (SUPPORT_FLASH2 K), (SUPPORT_XFORMERS K), use_local_attn; reflexivity.
Qed.

(** Without the flash-attention library no call returns, whatever the
    layout, and the hub is left as it was: the call raises what the
    steps before the selection raise, and [AssertionError] when they
    succeed. *)
Lemma forward_without_flash hidden_states mask position_ids past oa uc hub :
  SUPPORT_FLASH2 K = false →
  internlm_attn_forward radd rmul rneg self K rank
    hidden_states mask position_ids past oa uc hub
  = (match rotary_states radd rmul rneg self (cumulative_len_rank hub !! rank)
             (indexes_rank hub !! rank) hidden_states position_ids past with
     | Raise e => Raise e
     | Ok (_, _, _, key_states, value_states) =>
         match merge_cache past key_states value_states with
         | Raise e => Raise e
         | Ok _ => Raise AssertionError
         end
     end, hub).
Proof.
  intros Hf. unfold internlm_attn_forward.
  unfold mbind, hubM_bind, get_cumulative_len, get_indexes, get_max_seqlen, lift.
  destruct (rotary_states _ _ _ _ _ _ _ _ _) as [[[[[bsz q_len] q] k] v]|e];
    [|done].
  destruct (merge_cache past k v) as [[k' v']|e]; [|done].
  by rewrite attn_kernel_select, select_backend_flash, Hf.
Qed.
End ForwardFacts.

(** C1 (as amended): the flash-attention library is mandatory in either
    layout.  The selection of lines 94-132 raises [AssertionError] when
    [SUPPORT_FLASH2] is false, before any kernel is called, and otherwise
    picks the packed variable-length kernel for a packed call and the dense
    causal kernel for a padded call; the lower-triangular-bias and the
    reference kernel are never selected.  [attn_kernel] is this selection
    followed by the selected kernel.  A forward call whose
    [SUPPORT_FLASH2] is false never returns and leaves the hub as it was:
    it raises the exception of the first failing step before the
    selection (unpacking the size, the layout assertion, the projections,
    the rotary transform, the cache merge), and [AssertionError] when
    these steps succeed. *)
Theorem flash_attention_is_mandatory {R : Type} (radd rmul : R → R → R)
    (rneg : R → R) (self : InternLMAttention R) (K : Kernels R) (rank : nat) :
  (∀ use_local_attn,
     select_backend K use_local_attn
     = if SUPPORT_FLASH2 K
       then Ok (if use_local_attn then PackedVarlen else DenseCausal)
       else Raise AssertionError) ∧
  (∀ use_local_attn max_seqlen bsz q_len q k v mask hub,
     attn_kernel K rank use_local_attn max_seqlen bsz q_len q k v mask hub
     = match select_backend K use_local_attn with
       | Ok b => run_backend K rank b max_seqlen bsz q_len q k v mask hub
       | Raise e => (Raise e, hub)
       end) ∧
  (∀ hidden_states mask position_ids past oa uc hub,
     is_Ok (internlm_attn_forward radd rmul rneg self K rank
              hidden_states mask position_ids past oa uc hub).1 = true →
     SUPPORT_FLASH2 K = true) ∧
  (∀ hidden_states mask position_ids past oa uc hub,
     SUPPORT_FLASH2 K = false →
     internlm_attn_forward radd rmul rneg self K rank
       hidden_states mask position_ids past oa uc hub
     = (match rotary_states radd rmul rneg self (cumulative_len_rank hub !! rank)
                (indexes_rank hub !! rank) hidden_states position_ids past with
        | Raise e => Raise e
        | Ok (_, _, _, key_states, value_states) =>
            match merge_cache past key_states value_states with
            | Raise e => Raise e
            | Ok _ => Raise AssertionError
            end
        end, hub)) ∧
  (∀ use_local_attn,
     select_backend K use_local_attn
     = spec_select_backend (SUPPORT_FLASH2 K) (SUPPORT_XFORMERS K) use_local_attn
     ↔ SUPPORT_FLASH2 K = true ∨ use_local_attn = true).
Proof.
  split_and!.
  - apply select_backend_flash.
  - apply attn_kernel_select.
  - intros hs mask pos past oa uc hub Hok.
    destruct (SUPPORT_FLASH2 K) eqn:Hf; [done |].
    rewrite (forward_without_flash radd rmul rneg self K rank
               hs mask pos past oa uc hub Hf) in Hok.
    simpl in Hok.
    destruct (rotary_states _ _ _ _ _ _ _ _ _) as [[[[[bsz q_len] q] k] v]|e];
      [|done].
    by destruct (merge_cache past k v).
  - intros hs mask pos past oa uc hub Hf. by apply forward_without_flash.
  - intros ula. rewrite select_backend_flash. unfold spec_select_backend.
    destruct (SUPPORT_FLASH2 K), (SUPPORT_XFORMERS K), ula; simpl; split;
      intros; try done; try (by left); try (by right); by destruct H.
Qed.

(** C1, the claim as stated, fails on a padded call when only the
    flash-attention library is missing: the specification's rule selects
    the lower-triangular-bias kernel, the code raises [AssertionError],
    although the same call returns once the library is present. *)
Lemma padded_call_fails_without_flash :
  let hub := Demo.hub_padded in
  cumulative_len_rank hub !! 0 = None ∧
  spec_select_backend false true false = Ok LowerTriangular ∧
  select_backend (Demo.kernels true false) false = Raise AssertionError ∧
  (Demo.forward true false Demo.hidden_states None (Some Demo.position_ids)
     None false false hub).1 = Raise AssertionError ∧
  is_Ok (Demo.forward true true Demo.hidden_states None (Some Demo.position_ids)
           None false false hub).1 = true.
Proof. vm_compute. by split_and!. Qed.

(** ** The forward pass and the hub *)

Lemma hub_frame_refl rank hub : hub_frame rank hub hub.
Proof. by split_and!. Qed.

Lemma hub_frame_trans rank h1 h2 h3 :
  hub_frame rank h1 h2 → hub_frame rank h2 h3 → hub_frame rank h1 h3.
Proof.
  intros (Hi & Hm & Hc) (Hi' & Hm' & Hc'). split_and!; [congruence | congruence |].
  intros r Hr. rewrite Hc', Hc; done.
Qed.

Lemma iadd_cumulative_len_frame rank i c hub :
  hub_frame rank hub (iadd_cumulative_len rank i c hub).2.
Proof.
  unfold iadd_cumulative_len.
  destruct (cumulative_len_rank hub !! rank) as [cl|]; [|apply hub_frame_refl].
  destruct (cl !! i) as [t|]; [|apply hub_frame_refl].
  split_and!; simpl; [done | done |]. intros r Hr. by rewrite lookup_insert_ne.
Qed.

Lemma rebase_loop_frame rank q_len range hub :
  hub_frame rank hub (rebase_loop rank q_len range hub).2.
Proof.
  revert hub. induction range as [|i range IH]; intros hub; simpl.
  - apply hub_frame_refl.
  - unfold mbind, hubM_bind.
    pose proof (iadd_cumulative_len_frame rank i (Z.of_nat (q_len * i)) hub) as Hstep.
    destruct (iadd_cumulative_len rank i (Z.of_nat (q_len * i)) hub) as [[[]|e] hub1];
      simpl in *; [|done].
    eapply hub_frame_trans; [exact Hstep | apply IH].
Qed.

(** Without an entry for [rank] the loop changes nothing. *)
Lemma rebase_loop_absent rank q_len range hub :
  cumulative_len_rank hub !! rank = None →
  (rebase_loop rank q_len range hub).2 = hub.
Proof.
  intros Hn. destruct range as [|i range]; simpl; [done |].
  unfold mbind, hubM_bind, iadd_cumulative_len. by rewrite Hn.
Qed.

Section ForwardHub.
Context {R : Type} (radd rmul : R → R → R) (rneg : R → R).
Context (self : InternLMAttention R) (K : Kernels R) (rank : nat).

(** The only write of the packed branch is the re-basing loop. *)
Lemma packed_attention_hub max_seqlen bsz q_len q k v hub :
  (packed_attention K rank max_seqlen bsz q_len q k v hub).2 = hub ∨
  (packed_attention K rank max_seqlen bsz q_len q k v hub).2
  = (rebase_loop rank q_len (seq 1 (bsz - 1)) hub).2.
Proof.
  unfold packed_attention, mbind, hubM_bind, lift, get_cumulative_len.
  destruct (flatten01 q); [|by left].
  destruct (flatten01 k); [|by left].
  destruct (flatten01 v); [|by left].
  destruct (rebase_loop rank q_len (seq 1 (bsz - 1)) hub) as [[[]|e] hub1];
    simpl; [|by right].
  destruct (cat0 _); by right.
Qed.

Lemma attn_kernel_hub use_local_attn max_seqlen bsz q_len q k v mask hub :
  (attn_kernel K rank use_local_attn max_seqlen bsz q_len q k v mask hub).2 = hub ∨
  (use_local_attn = true ∧ SUPPORT_FLASH2 K = true ∧
   (attn_kernel K rank use_local_attn max_seqlen bsz q_len q k v mask hub).2
   = (rebase_loop rank q_len (seq 1 (bsz - 1)) hub).2).
Proof.
  rewrite attn_kernel_select, select_backend_flash.
  destruct (SUPPORT_FLASH2 K) eqn:Hf; [|by left].
  destruct use_local_attn; unfold run_backend, mbind, hubM_bind, lift.
  - destruct (transpose12 q) as [q'|]; [|by left].
    destruct (transpose12 k) as [k'|]; [|by left].
    destruct (transpose12 v) as [v'|]; [|by left].
    destruct (packed_attention_hub max_seqlen bsz q_len q' k' v' hub) as [H|H];
      [by left | by right].
  - destruct (transpose12 q) as [q'|]; [|by left].
    destruct (transpose12 k) as [k'|]; [|by left].
    destruct (transpose12 v) as [v'|]; [|by left].
    by left.
Qed.

(** The hub after a forward call: either the hub before it, or, on a
    packed call that reached the packed kernel, the hub left by the
    re-basing loop over samples [1 .. bsz - 1]. *)
Lemma rotary_states_size3 cl idx hidden_states position_ids past bsz q_len q k v :
  rotary_states radd rmul rneg self cl idx hidden_states position_ids past
  = Ok (bsz, q_len, q, k, v) →
  size3 hidden_states = Ok (bsz, q_len).
Proof.
  unfold rotary_states. intros Hrs.
  destruct (size3 hidden_states) as [[b ql]|]; [|done]. simpl in Hrs.
  repeat match type of Hrs with
         | (match ?m with _ => _ end) = _ => destruct m; simpl in Hrs; try done
         | (?m ≫= _) = _ => destruct m; simpl in Hrs; try done
         end.
  by simplify_eq.
Qed.

Lemma forward_hub hidden_states mask position_ids past oa uc hub r hub' :
  internlm_attn_forward radd rmul rneg self K rank
    hidden_states mask position_ids past oa uc hub = (r, hub') →
  hub' = hub ∨
  ∃ bsz q_len,
    size3 hidden_states = Ok (bsz, q_len) ∧
    is_Some (cumulative_len_rank hub !! rank) ∧ SUPPORT_FLASH2 K = true ∧
    hub' = (rebase_loop rank q_len (seq 1 (bsz - 1)) hub).2.
Proof.
  unfold internlm_attn_forward.
  unfold mbind at 1 2 3 4. unfold hubM_bind at 1 2 3 4.
  unfold get_cumulative_len, get_indexes, get_max_seqlen, lift at 1.
  cbv zeta.
  destruct (rotary_states _ _ _ _ _ _ _ _ _) as [[[[[bsz q_len] q] k] v]|e] eqn:Hrs;
    [|intros [= <- <-]; by left].
  apply rotary_states_size3 in Hrs.
  unfold mbind at 1. unfold hubM_bind at 1. unfold lift at 1.
  destruct (merge_cache past k v) as [[k' v']|e]; [|intros [= <- <-]; by left].
  unfold mbind at 1. unfold hubM_bind at 1.
  pose proof (attn_kernel_hub
                (bool_decide (is_Some (cumulative_len_rank hub !! rank)))
                (max_seqlen_rank hub !! rank) bsz q_len q k' v' mask hub) as Hk.
  destruct (attn_kernel _ _ _ _ _ _ _ _ _ _ _) as [[out|e] hub1]; simpl in Hk.
  - unfold mbind, hubM_bind, lift, mret, hubM_ret.
    assert (Hhub : hub1 = hub ∨ ∃ bsz0 q_len0,
              size3 hidden_states = Ok (bsz0, q_len0) ∧
              is_Some (cumulative_len_rank hub !! rank) ∧ SUPPORT_FLASH2 K = true ∧
              hub1 = (rebase_loop rank q_len0 (seq 1 (bsz0 - 1)) hub).2).
    { destruct Hk as [Hk|(Hu & Hf & Hk)]; [by left |]. right.
      exists bsz, q_len. split_and!; [done | exact (bool_decide_eq_true_1 _ Hu) | done | done]. }
    destruct (reshape _ out); [|by intros [= <- <-]].
    destruct (o_proj self _); by intros [= <- <-].
  - intros [= <- <-].
    destruct Hk as [Hk|(Hu & Hf & Hk)]; [by left |]. right.
    exists bsz, q_len. split_and!; [done | exact (bool_decide_eq_true_1 _ Hu) | done | done].
Qed.

(** X11: a padded call, one for which nothing is published for the
    rank, leaves the hub as it is, whether it returns or raises. *)
Lemma forward_hub_padded hidden_states mask position_ids past oa uc hub :
  cumulative_len_rank hub !! rank = None →
  (internlm_attn_forward radd rmul rneg self K rank
     hidden_states mask position_ids past oa uc hub).2 = hub.
Proof.
  intros Hn.
  destruct (internlm_attn_forward _ _ _ _ _ _ _ _ _ _ _ _ _) as [r hub'] eqn:Hfw.
  apply forward_hub in Hfw as [->|(bsz & q_len & _ & Hs & _)]; [done |].
  rewrite Hn in Hs. by destruct Hs.
Qed.

(** X12: a call on a batch of at most one sample leaves the hub as it
    is, packed or padded, whether it returns or raises. *)
Lemma forward_hub_single_sample hidden_states mask position_ids past oa uc hub
    bsz q_len :
  size3 hidden_states = Ok (bsz, q_len) → bsz ≤ 1 →
  (internlm_attn_forward radd rmul rneg self K rank
     hidden_states mask position_ids past oa uc hub).2 = hub.
Proof.
  intros Hs Hb.
  destruct (internlm_attn_forward _ _ _ _ _ _ _ _ _ _ _ _ _) as [r hub'] eqn:Hfw.
  apply forward_hub in Hfw as [->|(bsz' & q_len' & Hs' & _ & _ & ->)]; [done |].
  rewrite Hs in Hs'. injection Hs' as <- <-.
  by replace (bsz - 1) with 0 by lia.
Qed.

(** X10: whatever the call and its outcome, the published positions,
    the maximum lengths and the boundaries of every other rank are left
    as they are: the only entry a call may change is the boundary list
    of its own rank. *)
Lemma forward_hub_frame hidden_states mask position_ids past oa uc hub :
  hub_frame rank hub
    (internlm_attn_forward radd rmul rneg self K rank
       hidden_states mask position_ids past oa uc hub).2.
Proof.
  destruct (internlm_attn_forward _ _ _ _ _ _ _ _ _ _ _ _ _) as [r hub'] eqn:Hfw.
  apply forward_hub in Hfw as [->|(bsz' & q_len' & _ & _ & _ & ->)].
  - apply hub_frame_refl.
  - apply rebase_loop_frame.
Qed.
End ForwardHub.

(** ** The layout assertion *)

Lemma assert_layout_count cl bsz q_len :
  length cl ≠ bsz → assert_layout cl bsz q_len = Raise AssertionError.
Proof.
  intros Hne. unfold assert_layout. by destruct (Nat.eqb_spec (length cl) bsz).
Qed.

Lemma assert_layout_first cl c0 e bsz q_len :
  cl !! 0 = Some c0 → last c0 = Some e → e ≠ Z.of_nat q_len →
  assert_layout cl bsz q_len = Raise AssertionError.
Proof.
  intros H0 Hl Hne. unfold assert_layout. rewrite H0, Hl.
  destruct (length cl =? bsz); [|done].
  unfold assert. by destruct (Z.eqb_spec e (Z.of_nat q_len)).
Qed.

(** The assertion passes exactly when the number of samples is [bsz] and
    the last boundary of the first sample is [q_len]: the samples after
    the first are not looked at. *)
Lemma assert_layout_Ok cl bsz q_len :
  assert_layout cl bsz q_len = Ok tt ↔
  length cl = bsz ∧ ∃ c0, cl !! 0 = Some c0 ∧ last c0 = Some (Z.of_nat q_len).
Proof.
  unfold assert_layout, assert. split.
  - destruct (Nat.eqb_spec (length cl) bsz); [|done].
    destruct (cl !! 0) as [c0|] eqn:H0; [|done].
    destruct (last c0) as [z|] eqn:Hz; [|done].
    destruct (Z.eqb_spec z (Z.of_nat q_len)); [|done]. subst z.
    intros _. split; [done |]. by exists c0.
  - intros (Hl & c0 & -> & ->). rewrite Hl, Nat.eqb_refl. by rewrite Z.eqb_refl.
Qed.

Section ForwardLayout.
Context {R : Type} (radd rmul : R → R → R) (rneg : R → R).
Context (self : InternLMAttention R) (K : Kernels R) (rank : nat).

(** A packed call whose sample count is not the batch size, or whose
    first sample does not end at the row length, raises
    [AssertionError] and leaves the hub as it is. *)
Lemma forward_layout_mismatch hidden_states mask position_ids past oa uc hub
    cl bsz q_len :
  cumulative_len_rank hub !! rank = Some cl →
  size3 hidden_states = Ok (bsz, q_len) →
  assert_layout cl bsz q_len = Raise AssertionError →
  internlm_attn_forward radd rmul rneg self K rank
    hidden_states mask position_ids past oa uc hub = (Raise AssertionError, hub).
Proof.
  intros Hcl Hs Ha. unfold internlm_attn_forward.
  unfold mbind at 1 2 3 4. unfold hubM_bind at 1 2 3 4.
  unfold get_cumulative_len, get_indexes, get_max_seqlen, lift at 1.
  cbv zeta. unfold rotary_states. rewrite Hcl, Hs. simpl. by rewrite Ha.
Qed.
End ForwardLayout.

(** With two samples published for the rank and states of rank at least
    two, the packed branch adds [q_len] to the second sample's boundaries
    in the hub and hands the concatenation to the packed kernel. *)
Lemma packed_attention_two_samples {R} (K : Kernels R) rank max_seqlen q_len
    (q k v : tensor R) (c0 c1 : list Z) hub :
  cumulative_len_rank hub !! rank = Some [c0; c1] →
  packed_attention K rank max_seqlen 2 q_len q k v hub
  = match flatten01 q, flatten01 k, flatten01 v with
    | Ok q_unpad, Ok k_unpad, Ok v_unpad =>
        let c1' := (λ z, int32_wrap (z + Z.of_nat (q_len * 1))) <$> c1 in
        (flash_attn_varlen_func K q_unpad k_unpad v_unpad
           (c0 ++ c1') (c0 ++ c1') max_seqlen max_seqlen,
         {| cumulative_len_rank := <[rank := [c0; c1']]> (cumulative_len_rank hub);
            indexes_rank := indexes_rank hub;
            max_seqlen_rank := max_seqlen_rank hub |})
    | Raise e, _, _ => (Raise e, hub)
    | Ok _, Raise e, _ => (Raise e, hub)
    | Ok _, Ok _, Raise e => (Raise e, hub)
    end.
Proof.
  intros Hcl. unfold packed_attention, mbind, hubM_bind, lift.
  destruct (flatten01 q); [|done]. destruct (flatten01 k); [|done].
  destruct (flatten01 v); [|done]. simpl.
  unfold mbind, hubM_bind, iadd_cumulative_len, mret, hubM_ret, get_cumulative_len.
  rewrite Hcl. simpl. rewrite lookup_insert_eq. simpl. by rewrite app_nil_r.
Qed.

(** C2, where the code departs from the claim: two samples, rows of three
    tokens, and a second sample whose final boundary is 2.  The assertion
    of lines 65-66 passes, the call returns, and the packed kernel is
    handed the boundaries [0; 3; 3; 5] for six tokens. *)
Lemma assert_layout_ignores_later_samples :
  let cl := [[0; 3]; [0; 2]]%Z in
  let hub := Demo.hub_packed cl in
  size3 Demo.hidden_states = Ok (2, 3) ∧
  cl !! 1 = Some [0; 2]%Z ∧
  assert_layout cl 2 3 = Ok tt ∧
  is_Ok (Demo.forward true true Demo.hidden_states None None None false false hub).1
  = true ∧
  ∀ (K : Kernels Z) (s0 s1 : nat) (rest : list nat) (dq dk dv : list Z),
    (packed_attention K 0 (Some 3%Z) 2 3
       (Tensor (s0 :: s1 :: rest) dq) (Tensor (s0 :: s1 :: rest) dk)
       (Tensor (s0 :: s1 :: rest) dv) hub).1
    = flash_attn_varlen_func K
        (Tensor (s0 * s1 :: rest) dq) (Tensor (s0 * s1 :: rest) dk)
        (Tensor (s0 * s1 :: rest) dv)
        [0; 3; 3; 5]%Z [0; 3; 3; 5]%Z (Some 3%Z) (Some 3%Z).
Proof.
  intros cl hub. split_and!; by vm_compute.
Qed.

(** C3, where the code departs from the claim: on a packed batch of two
    samples the call returns and the boundaries stored in the hub for the
    rank have become [[0; 3]; [3; 6]]; a second call on the hub it left
    re-bases them again.  The change does not depend on what the packed
    kernel returns. *)
Lemma forward_rebases_stored_cumulative_len :
  let hub := Demo.hub_packed [[0; 3]; [0; 3]]%Z in
  let call := Demo.forward true true Demo.hidden_states None None None false false in
  cumulative_len_rank hub !! 0 = Some [[0; 3]; [0; 3]]%Z ∧
  is_Ok (call hub).1 = true ∧
  cumulative_len_rank (call hub).2 !! 0 = Some [[0; 3]; [3; 6]]%Z ∧
  (call hub).2 ≠ hub ∧
  cumulative_len_rank (call (call hub).2).2 !! 0 = Some [[0; 3]; [6; 9]]%Z ∧
  ∀ (K : Kernels Z) (s0 s1 : nat) (rest : list nat) (dq dk dv : list Z),
    cumulative_len_rank
      (packed_attention K 0 (Some 3%Z) 2 3
         (Tensor (s0 :: s1 :: rest) dq) (Tensor (s0 :: s1 :: rest) dk)
         (Tensor (s0 :: s1 :: rest) dv) hub).2 !! 0
    = Some [[0; 3]; [3; 6]]%Z.
Proof.
  intros hub call. split_and!; by vm_compute.
Qed.

(** ** What the forward pass returns *)

Section ForwardResult.
Context {R : Type} (radd rmul : R → R → R) (rneg : R → R).
Context (self : InternLMAttention R) (K : Kernels R) (rank : nat).

(** The shape of a returned triple: the attention weights are [None],
    and the cache component is decided by [use_cache] alone, from the
    states that [merge_cache] returned. *)
Lemma forward_returns hidden_states mask position_ids past oa uc hub
    out w nc hub' :
  internlm_attn_forward radd rmul rneg self K rank
    hidden_states mask position_ids past oa uc hub = (Ok (out, w, nc), hub') →
  w = None ∧
  ∃ bsz q_len q k0 v0 k v,
    rotary_states radd rmul rneg self (cumulative_len_rank hub !! rank)
      (indexes_rank hub !! rank) hidden_states position_ids past
    = Ok (bsz, q_len, q, k0, v0) ∧
    merge_cache past k0 v0 = Ok (k, v) ∧
    nc = (if uc then Some (k, v) else None).
Proof.
  unfold internlm_attn_forward.
  unfold mbind at 1 2 3 4. unfold hubM_bind at 1 2 3 4.
  unfold get_cumulative_len, get_indexes, get_max_seqlen, lift at 1.
  cbv zeta.
  destruct (rotary_states _ _ _ _ _ _ _ _ _) as [[[[[bsz q_len] q] k0] v0]|e];
    [|done].
  unfold mbind at 1. unfold hubM_bind at 1. unfold lift at 1.
  destruct (merge_cache past k0 v0) as [[k v]|e] eqn:Hm; [|done].
  unfold mbind at 1. unfold hubM_bind at 1.
  destruct (attn_kernel _ _ _ _ _ _ _ _ _ _ _) as [[o|e] hub1]; [|done].
  unfold mbind, hubM_bind, lift, mret, hubM_ret.
  destruct (reshape _ o) as [o'|]; [|done].
  destruct (o_proj self o') as [o''|]; [|done].
  intros [= <- <- <- <-]. split; [done |].
  by exists bsz, q_len, q, k0, v0, k, v.
Qed.

(** Apart from the reference kernel, no backend reads the mask. *)
Lemma run_backend_mask b max_seqlen bsz q_len q k v mask1 mask2 hub :
  b ≠ ReferenceSoftmax →
  run_backend K rank b max_seqlen bsz q_len q k v mask1 hub
  = run_backend K rank b max_seqlen bsz q_len q k v mask2 hub.
Proof. by destruct b. Qed.

Lemma attn_kernel_mask use_local_attn max_seqlen bsz q_len q k v mask1 mask2 hub :
  attn_kernel K rank use_local_attn max_seqlen bsz q_len q k v mask1 hub
  = attn_kernel K rank use_local_attn max_seqlen bsz q_len q k v mask2 hub.
Proof.
  rewrite !attn_kernel_select, select_backend_flash.
  destruct (SUPPORT_FLASH2 K); [|done].
  apply run_backend_mask. by destruct use_local_attn.
Qed.

(** The forward pass, stage by stage. *)
Lemma forward_unfold hidden_states mask position_ids past oa uc hub :
  internlm_attn_forward radd rmul rneg self K rank
    hidden_states mask position_ids past oa uc hub
  = match rotary_states radd rmul rneg self (cumulative_len_rank hub !! rank)
            (indexes_rank hub !! rank) hidden_states position_ids past with
    | Raise e => (Raise e, hub)
    | Ok (bsz, q_len, q, k0, v0) =>
        match merge_cache past k0 v0 with
        | Raise e => (Raise e, hub)
        | Ok (k, v) =>
            match attn_kernel K rank
                    (bool_decide (is_Some (cumulative_len_rank hub !! rank)))
                    (max_seqlen_rank hub !! rank) bsz q_len q k v mask hub with
            | (Raise e, hub1) => (Raise e, hub1)
            | (Ok o, hub1) =>
                match reshape [bsz; q_len; hidden_size self] o with
                | Raise e => (Raise e, hub1)
                | Ok o' =>
                    match o_proj self o' with
                    | Raise e => (Raise e, hub1)
                    | Ok o'' =>
                        (Ok (o'', None, if uc then Some (k, v) else None), hub1)
                    end
                end
            end
        end
    end.
Proof.
  unfold internlm_attn_forward.
  unfold mbind at 1 2 3 4. unfold hubM_bind at 1 2 3 4.
  unfold get_cumulative_len, get_indexes, get_max_seqlen, lift at 1.
  cbv zeta.
  destruct (rotary_states _ _ _ _ _ _ _ _ _) as [[[[[bsz q_len] q] k0] v0]|e];
    [|done].
  unfold mbind at 1. unfold hubM_bind at 1. unfold lift at 1.
  destruct (merge_cache past k0 v0) as [[k v]|e]; [|done].
  unfold mbind at 1. unfold hubM_bind at 1.
  destruct (attn_kernel _ _ _ _ _ _ _ _ _ _ _) as [[o|e] hub1]; [|done].
  unfold mbind, hubM_bind, lift, mret, hubM_ret.
  destruct (reshape _ o) as [o'|]; [|done].
  by destruct (o_proj self o') as [o''|].
Qed.

Lemma forward_mask hidden_states mask1 mask2 position_ids past oa uc hub :
  internlm_attn_forward radd rmul rneg self K rank
    hidden_states mask1 position_ids past oa uc hub
  = internlm_attn_forward radd rmul rneg self K rank
      hidden_states mask2 position_ids past oa uc hub.
Proof.
  rewrite !forward_unfold.
  destruct (rotary_states _ _ _ _ _ _ _ _ _) as [[[[[bsz q_len] q] k0] v0]|e];
    [|done].
  destruct (merge_cache past k0 v0) as [[k v]|e]; [|done].
  by rewrite (attn_kernel_mask _ _ _ _ _ _ _ mask1 mask2).
Qed.
End ForwardResult.

(** C7: when a forward call returns, its third component is the pair
    returned by the cache merge if [use_cache] is true and [None] if it is
    false, whether or not a previous cache was passed in. *)
Theorem forward_new_cache_iff_use_cache {R : Type} (radd rmul : R → R → R)
    (rneg : R → R) (self : InternLMAttention R) (K : Kernels R) (rank : nat)
    hidden_states mask position_ids past oa uc hub out w nc hub' :
  internlm_attn_forward radd rmul rneg self K rank
    hidden_states mask position_ids past oa uc hub = (Ok (out, w, nc), hub') →
  (∃ bsz q_len q k0 v0 k v,
     rotary_states radd rmul rneg self (cumulative_len_rank hub !! rank)
       (indexes_rank hub !! rank) hidden_states position_ids past
     = Ok (bsz, q_len, q, k0, v0) ∧
     merge_cache past k0 v0 = Ok (k, v) ∧
     (uc = true → nc = Some (k, v)) ∧
     (nc = Some (k, v) → uc = true)) ∧
  (uc = false → nc = None).
Proof.
  intros Hfw.
  destruct (forward_returns radd rmul rneg self K rank _ _ _ _ _ _ _ _ _ _ _ Hfw)
    as (_ & bsz & q_len & q & k0 & v0 & k & v & Hrs & Hm & ->).
  split; [|by intros ->].
  exists bsz, q_len, q, k0, v0, k, v. split_and!; try done; by destruct uc.
Qed.

Lemma forward_new_cache_iff_use_cache_witness :
  let past := Some (Demo.past_key, Demo.past_key) in
  let out := Tensor [2; 1; 4] [1; 2; 3; 4; 5; 6; 7; 8]%Z in
  let merged :=
    Tensor [2; 2; 2; 2]
      [-1; -2; 1; 2; -3; -4; 3; 4; -5; -6; 5; 6; -7; -8; 7; 8]%Z in
  Demo.forward true true Demo.one_token None (Some Demo.one_position)
    past false true Demo.hub_padded
  = (Ok (out, None, Some (merged, merged)), Demo.hub_padded) ∧
  (∃ bsz q_len q k0 v0 k v,
     rotary_states Z.add Z.mul Z.opp Demo.self
       (cumulative_len_rank Demo.hub_padded !! 0)
       (indexes_rank Demo.hub_padded !! 0) Demo.one_token
       (Some Demo.one_position) past
     = Ok (bsz, q_len, q, k0, v0) ∧
     merge_cache past k0 v0 = Ok (k, v) ∧
     (true = true → Some (merged, merged) = Some (k, v)) ∧
     (Some (merged, merged) = Some (k, v) → true = true)) ∧
  (true = false → Some (merged, merged) = None).
Proof.
  intros past out merged.
  assert (Hfw : Demo.forward true true Demo.one_token None (Some Demo.one_position)
                  past false true Demo.hub_padded
                = (Ok (out, None, Some (merged, merged)), Demo.hub_padded))
    by (vm_compute; reflexivity).
  split; [exact Hfw |].
  exact (forward_new_cache_iff_use_cache Z.add Z.mul Z.opp Demo.self
           (Demo.kernels true true) 0 Demo.one_token None (Some Demo.one_position)
           past false true Demo.hub_padded out None (Some (merged, merged))
           Demo.hub_padded Hfw).
Defined.

(** C8: whatever [output_attentions] is and whichever kernel ran, the
    second component of a returned triple is [None]. *)
Theorem forward_attn_weights_none {R : Type} (radd rmul : R → R → R)
    (rneg : R → R) (self : InternLMAttention R) (K : Kernels R) (rank : nat)
    hidden_states mask position_ids past oa uc hub out w nc hub' :
  internlm_attn_forward radd rmul rneg self K rank
    hidden_states mask position_ids past oa uc hub = (Ok (out, w, nc), hub') →
  w = None.
Proof.
  intros Hfw.
  by destruct (forward_returns radd rmul rneg self K rank _ _ _ _ _ _ _ _ _ _ _ Hfw).
Qed.

Lemma forward_attn_weights_none_witness :
  let out := Tensor [2; 3; 4] (Z.of_nat <$> seq 1 24) in
  Demo.forward true true Demo.hidden_states None (Some Demo.position_ids)
    None true false Demo.hub_padded
  = (Ok (out, None, None), Demo.hub_padded) ∧
  @None (tensor Z) = None.
Proof.
  intros out.
  assert (Hfw : Demo.forward true true Demo.hidden_states None
                  (Some Demo.position_ids) None true false Demo.hub_padded
                = (Ok (out, None, None), Demo.hub_padded))
    by (vm_compute; reflexivity).
  split; [exact Hfw |].
  exact (forward_attn_weights_none Z.add Z.mul Z.opp Demo.self
           (Demo.kernels true true) 0 Demo.hidden_states None
           (Some Demo.position_ids) None true false Demo.hub_padded
           out None None Demo.hub_padded Hfw).
Defined.

(** C9: with the flash-attention library present, two forward calls that
    differ only in [attention_mask] return the same triple and leave the
    same hub; the mask reaches no backend but the reference kernel, which
    is never selected. *)
Theorem forward_ignores_attention_mask {R : Type} (radd rmul : R → R → R)
    (rneg : R → R) (self : InternLMAttention R) (K : Kernels R) (rank : nat)
    hidden_states mask1 mask2 position_ids past oa uc hub :
  SUPPORT_FLASH2 K = true →
  internlm_attn_forward radd rmul rneg self K rank
    hidden_states mask1 position_ids past oa uc hub
  = internlm_attn_forward radd rmul rneg self K rank
      hidden_states mask2 position_ids past oa uc hub ∧
  (∀ use_local_attn, select_backend K use_local_attn ≠ Ok ReferenceSoftmax) ∧
  (∀ b max_seqlen bsz q_len q k v hub0,
     b ≠ ReferenceSoftmax →
     run_backend K rank b max_seqlen bsz q_len q k v mask1 hub0
     = run_backend K rank b max_seqlen bsz q_len q k v mask2 hub0).
Proof.
  intros Hf. split_and!.
  - apply forward_mask.
  - intros ula. rewrite select_backend_flash, Hf. by destruct ula.
  - intros. by apply run_backend_mask.
Qed.

Lemma forward_ignores_attention_mask_witness :
  SUPPORT_FLASH2 (Demo.kernels false true) = true ∧
  Demo.forward false true Demo.hidden_states None (Some Demo.position_ids)
    None false true Demo.hub_padded
  = Demo.forward false true Demo.hidden_states (Some (Demo.zeros [2; 1; 3; 3]))
      (Some Demo.position_ids) None false true Demo.hub_padded.
Proof.
  split; [reflexivity |].
  apply (forward_ignores_attention_mask Z.add Z.mul Z.opp Demo.self
           (Demo.kernels false true) 0). reflexivity.
Defined.

(** * Further properties of the attention forward *)

(** ** Position indexes: the default and indexes off the table *)

(** Indexing with the positions [a, a + 1, ..., a + m - 1] reads the rows
    at these positions. *)
Lemma mapM_index_entry_seq {A} (rows : list (list A)) n a m :
  length rows = n → a + m ≤ n →
  mapM (index_entry rows n) (Z.of_nat <$> seq a m) = Ok (take m (drop a rows)).
Proof.
  intros Hn. revert a. induction m as [|m IH]; intros a Ham; simpl; [done |].
  assert (Hrow : is_Some (rows !! a)) by (apply lookup_lt_is_Some; lia).
  destruct Hrow as [r Hr].
  assert (He : index_entry rows n (Z.of_nat a) = Ok r).
  { unfold index_entry. destruct (Z.ltb_spec (Z.of_nat a) 0); [lia |].
    destruct (Z.leb_spec 0 (Z.of_nat a)); [|lia].
    destruct (Z.ltb_spec (Z.of_nat a) (Z.of_nat n)); [|lia].
    simpl. by rewrite Nat2Z.id, Hr. }
  rewrite He. simpl. rewrite IH by lia. simpl.
  by rewrite (drop_S rows r a Hr).
Qed.

Lemma index_first_default {A} (e : list A) L d :
  length e = L * d →
  index_first (Tensor [L; d] e) None
  = index_first (Tensor [L; d] e) (Some (Tensor [1; L] (Z.of_nat <$> seq 0 L))).
Proof.
  intros He. unfold index_first, unsqueeze. simpl.
  rewrite (mapM_index_entry_seq _ L 0 L) by (rewrite ?length_chunks; lia).
  simpl. rewrite drop_0, take_ge by (rewrite length_chunks; lia).
  rewrite Nat.mul_1_r, concat_chunks by lia. done.
Qed.

(** The only exception of a lookup in the table is [IndexError]. *)
Lemma index_entry_raises {A} (rows : list (list A)) n i e :
  index_entry rows n i = Raise e → e = IndexError.
Proof.
  unfold index_entry.
  destruct (_ && _); [|congruence]. destruct (rows !! _); congruence.
Qed.

Lemma index_entry_out_of_range {A} (rows : list (list A)) n i :
  (i < - Z.of_nat n ∨ Z.of_nat n ≤ i)%Z → index_entry rows n i = Raise IndexError.
Proof.
  intros Hi. unfold index_entry.
  destruct (Z.ltb_spec i 0).
  - destruct (Z.leb_spec 0 (i + Z.of_nat n)); [|done].
    destruct (Z.ltb_spec (i + Z.of_nat n) (Z.of_nat n)); [lia | done].
  - destruct (Z.leb_spec 0 i); [|done].
    destruct (Z.ltb_spec i (Z.of_nat n)); [lia | done].
Qed.

Lemma mapM_index_entry_out_of_range {A} (rows : list (list A)) n ids :
  Exists (λ i, (i < - Z.of_nat n ∨ Z.of_nat n ≤ i)%Z) ids →
  mapM (index_entry rows n) ids = Raise IndexError.
Proof.
  induction 1 as [i ids Hi|i ids _ IH]; simpl.
  - by rewrite index_entry_out_of_range.
  - destruct (index_entry rows n i) as [r|e] eqn:He; simpl.
    + by rewrite IH.
    + by rewrite (index_entry_raises _ _ _ _ He).
Qed.

Lemma squeeze_raises {A} dim (x : tensor A) e :
  squeeze dim x = Raise e → e = IndexError.
Proof.
  unfold squeeze. destruct (shape x !! dim) as [[|[|?]]|]; try congruence.
  destruct (shape x), dim; congruence.
Qed.

Section RotaryPositions.
Context {R : Type} (radd rmul : R → R → R) (rneg : R → R).

(** X1: with [position_ids = None] the rotary tables are used row by
    row in their own order: on tables of shape [1, 1, L, d] the call
    returns what it returns for the positions [0, 1, ..., L - 1] given
    as an index of shape [1, L], whatever [q] and [k] are. *)
Theorem apply_rotary_pos_emb_default_positions (q k cos sin : tensor R) L d :
  shape cos = [1; 1; L; d] → wf cos →
  shape sin = [1; 1; L; d] → wf sin →
  apply_rotary_pos_emb radd rmul rneg q k cos sin None
  = apply_rotary_pos_emb radd rmul rneg q k cos sin
      (Some (Tensor [1; L] (Z.of_nat <$> seq 0 L))).
Proof.
  intros Hc Hwc Hs Hws. unfold apply_rotary_pos_emb.
  assert (Hlc : length (data cos) = L * d)
    by (unfold wf in Hwc; rewrite Hwc, Hc; simpl; lia).
  assert (Hls : length (data sin) = L * d)
    by (unfold wf in Hws; rewrite Hws, Hs; simpl; lia).
  rewrite (squeeze_table cos L d Hc), (squeeze_table sin L d Hs).
  cbn [mbind result_bind].
  by rewrite (index_first_default (data cos) L d Hlc),
    (index_first_default (data sin) L d Hls).
Qed.

(** X2: a position index with an entry outside [-L, L), for a cosine
    table of shape [1, 1, L, d], makes [apply_rotary_pos_emb] raise
    [IndexError], whatever the other arguments are. *)
Theorem apply_rotary_pos_emb_index_error (q k cos sin : tensor R) (ids : tensor Z) L d :
  shape cos = [1; 1; L; d] →
  Exists (λ i, (i < - Z.of_nat L ∨ Z.of_nat L ≤ i)%Z) (data ids) →
  apply_rotary_pos_emb radd rmul rneg q k cos sin (Some ids) = Raise IndexError.
Proof.
  intros Hc Hbad. unfold apply_rotary_pos_emb.
  rewrite (squeeze_table cos L d Hc). cbn [mbind result_bind].
  assert (Hsin : ∀ e, squeeze 1 sin ≫= squeeze 0 = Raise e → e = IndexError).
  { intros e. destruct (squeeze 1 sin) as [s1|e1] eqn:H1; cbn [mbind result_bind].
    - apply squeeze_raises.
    - intros [= <-]. by apply squeeze_raises in H1. }
  destruct (squeeze 1 sin ≫= squeeze 0) as [s|e]; cbn [mbind result_bind].
  - assert (Hix : index_first (Tensor [L; d] (data cos)) (Some ids) = Raise IndexError).
    { unfold index_first. cbn [shape data].
      by rewrite mapM_index_entry_out_of_range. }
    by rewrite Hix.
  - by rewrite (Hsin e).
Qed.
End RotaryPositions.

Lemma apply_rotary_pos_emb_default_positions_witness :
  let q := Tensor [1; 1; 3; 2] [1; 2; 3; 4; 5; 6]%Z in
  let cos := Tensor [1; 1; 3; 2] [1; 1; 5; 5; 7; 7]%Z in
  let sin := Tensor [1; 1; 3; 2] [0; 0; 2; 2; 3; 3]%Z in
  (shape cos = [1; 1; 3; 2] ∧ wf cos ∧ shape sin = [1; 1; 3; 2] ∧ wf sin) ∧
  apply_rotary_pos_emb Z.add Z.mul Z.opp q q cos sin None
  = apply_rotary_pos_emb Z.add Z.mul Z.opp q q cos sin
      (Some (Tensor [1; 3] (Z.of_nat <$> seq 0 3))).
Proof.
  intros q cos sin. split; [by split_and! |].
  exact (apply_rotary_pos_emb_default_positions Z.add Z.mul Z.opp q q cos sin 3 2
           eq_refl eq_refl eq_refl eq_refl).
Defined.

Lemma apply_rotary_pos_emb_index_error_witness :
  let q := Tensor [1; 1; 2; 2] [1; 2; 3; 4]%Z in
  let cos := Tensor [1; 1; 3; 2] [1; 1; 5; 5; 7; 7]%Z in
  let ids := Tensor [1; 2] [0; 3]%Z in
  Exists (λ i, (i < - Z.of_nat 3 ∨ Z.of_nat 3 ≤ i)%Z) (data ids) ∧
  apply_rotary_pos_emb Z.add Z.mul Z.opp q q cos cos (Some ids) = Raise IndexError.
Proof.
  intros q cos ids.
  assert (Hbad : Exists (λ i, (i < - Z.of_nat 3 ∨ Z.of_nat 3 ≤ i)%Z) (data ids))
    by (apply Exists_cons_tl, Exists_cons_hd; right; lia).
  split; [exact Hbad |].
  exact (apply_rotary_pos_emb_index_error Z.add Z.mul Z.opp q q cos cos ids 3 2
           eq_refl Hbad).
Defined.

(** ** Transposing twice *)

Local Arguments Nat.modulo : simpl never.

Lemma concat_concat_fmap {A B} (h : B → list (list A)) (l : list B) :
  concat ((λ j, concat (h j)) <$> l) = concat (concat (h <$> l)).
Proof.
  induction l as [|b l IH]; csimpl; [done |]. by rewrite concat_app, IH.
Qed.

(** Row-major enumeration of a grid of [m] rows and [n] columns. *)
Lemma grid_length {B} (g : nat → nat → B) m n :
  length (concat ((λ j, g j <$> seq 0 n) <$> seq 0 m)) = m * n.
Proof.
  rewrite (length_concat_uniform n).
  - by rewrite length_fmap, length_seq.
  - apply Forall_fmap, Forall_forall. intros j _. simpl.
    by rewrite length_fmap, length_seq.
Qed.

Lemma grid_lookup {B} (g : nat → nat → B) m n j i :
  j < m → i < n →
  concat ((λ j, g j <$> seq 0 n) <$> seq 0 m) !! (j * n + i) = Some (g j i).
Proof.
  induction m as [|m IH]; intros Hj Hi; [lia |].
  rewrite seq_S, fmap_app, concat_app. simpl. rewrite app_nil_r.
  destruct (decide (j < m)) as [Hlt|Hge].
  - rewrite lookup_app_l by (rewrite grid_length; nia). by apply IH.
  - assert (j = m) as -> by lia.
    rewrite lookup_app_r by (rewrite grid_length; lia).
    rewrite grid_length. replace (m * n + i - m * n) with i by lia.
    rewrite list_lookup_fmap, lookup_seq_lt by done. done.
Qed.

Lemma grid_enum {B} (d : B) (l : list B) m n :
  length l = m * n →
  concat ((λ i, (λ j, default d (l !! (i * n + j))) <$> seq 0 n) <$> seq 0 m) = l.
Proof.
  intros Hl. apply (list_eq_same_length _ _ (m * n)); [done | apply grid_length |].
  intros k x y Hk Hx Hy.
  assert (Hn : n ≠ 0) by (intros ->; lia).
  pose proof (Nat.div_mod_eq k n) as Hdm.
  pose proof (Nat.mod_upper_bound k n Hn) as Hmod.
  assert (Hdiv : k / n < m) by (apply Nat.Div0.div_lt_upper_bound; lia).
  replace k with (k / n * n + k mod n) in Hx at 1 by lia.
  rewrite (grid_lookup (λ i j, default d (l !! (i * n + j))) m n) in Hx by done.
  injection Hx as <-. replace (k / n * n + k mod n) with k by lia.
  by rewrite Hy.
Qed.

(** Transposing a grid of cells twice gives the cells back. *)
Lemma transpose_cells_twice {A} (cells : list (list A)) s1 s2 :
  length cells = s1 * s2 →
  concat ((λ j, (λ i,
     default [] (concat ((λ j', (λ i', default [] (cells !! (i' * s2 + j')))
                                  <$> seq 0 s1) <$> seq 0 s2) !! (i * s1 + j)))
     <$> seq 0 s2) <$> seq 0 s1) = cells.
Proof.
  intros Hl. etrans; [|exact (grid_enum [] cells s1 s2 Hl)].
  f_equal. apply list_fmap_ext. intros n1 j Hj%lookup_seq. simpl in Hj.
  apply list_fmap_ext. intros n2 i Hi%lookup_seq. simpl in Hi.
  rewrite (grid_lookup (λ j' i', default [] (cells !! (i' * s2 + j'))) s2 s1) by lia.
  done.
Qed.

(** One block of the first axis, transposed: its length, and what a
    second transposition makes of it. *)
Lemma transpose_block {A} inner s1 s2 (blk : list A) :
  length blk = s1 * s2 * inner →
  length (concat ((λ j, concat ((λ i,
            default [] (chunks inner (s1 * s2) blk !! (i * s2 + j))) <$> seq 0 s1))
            <$> seq 0 s2)) = s2 * s1 * inner ∧
  concat ((λ j, concat ((λ i,
     default [] (chunks inner (s2 * s1)
                   (concat ((λ j', concat ((λ i',
                      default [] (chunks inner (s1 * s2) blk !! (i' * s2 + j')))
                      <$> seq 0 s1)) <$> seq 0 s2)) !! (i * s1 + j)))
     <$> seq 0 s2)) <$> seq 0 s1) = blk.
Proof.
  intros Hl.
  set (cells := chunks inner (s1 * s2) blk).
  assert (Hcl : length cells = s1 * s2) by apply length_chunks.
  assert (Hcf : Forall (λ r, length r = inner) cells)
    by (apply Forall_length_chunks; lia).
  rewrite (concat_concat_fmap
             (λ j, (λ i, default [] (cells !! (i * s2 + j))) <$> seq 0 s1) (seq 0 s2)).
  set (cells' := concat ((λ j, (λ i, default [] (cells !! (i * s2 + j))) <$> seq 0 s1)
                           <$> seq 0 s2)).
  assert (Hcl' : length cells' = s2 * s1)
    by apply (grid_length (λ j i, default [] (cells !! (i * s2 + j)))).
  assert (Hcf' : Forall (λ r, length r = inner) cells').
  { apply Forall_concat_2, Forall_fmap, Forall_forall. intros j Hj%elem_of_seq. simpl.
    apply Forall_fmap, Forall_forall. intros i Hi%elem_of_seq. simpl.
    destruct (cells !! (i * s2 + j)) as [c|] eqn:Hc.
    - simpl. by apply (proj1 (Forall_lookup _ _) Hcf _ _ Hc).
    - apply lookup_ge_None in Hc. nia. }
  split.
  - by rewrite (length_concat_uniform inner _ Hcf'), Hcl'.
  - assert (Hch : chunks inner (s2 * s1) (concat cells') = cells')
      by (rewrite <- Hcl'; apply chunks_concat, Hcf').
    rewrite Hch.
    rewrite (concat_concat_fmap
               (λ j, (λ i, default [] (cells' !! (i * s1 + j))) <$> seq 0 s2) (seq 0 s1)).
    subst cells'. rewrite (transpose_cells_twice cells s1 s2 Hcl).
    subst cells. apply concat_chunks. lia.
Qed.

(** [x.transpose(1, 2).transpose(1, 2)] is [x]. *)
Lemma transpose12_twice {A} (x : tensor A) s0 s1 s2 rest :
  shape x = s0 :: s1 :: s2 :: rest → wf x →
  transpose12 x ≫= transpose12 = Ok x.
Proof.
  destruct x as [sx ex]. simpl. intros -> Hwf. unfold wf in Hwf. simpl in Hwf.
  unfold transpose12 at 2. cbn [shape data mbind result_bind].
  unfold transpose12. cbn [shape data].
  f_equal. f_equal.
  set (blocks := chunks (s1 * s2 * numel rest) s0 ex).
  assert (Hbf : Forall (λ r, length r = s1 * s2 * numel rest) blocks)
    by (apply Forall_length_chunks; lia).
  rewrite (chunks_concat_fmap (s2 * s1 * numel rest) s0).
  - rewrite <- list_fmap_compose.
    etrans; [|apply (concat_chunks (s1 * s2 * numel rest) s0 ex); lia].
    fold blocks. f_equal. rewrite <- (list_fmap_id blocks) at 2.
    apply Forall_fmap_ext_1. eapply Forall_impl; [exact Hbf |].
    intros blk Hblk. simpl in *.
    by destruct (transpose_block (numel rest) s1 s2 blk Hblk) as [_ ->].
  - apply length_chunks.
  - eapply Forall_impl; [exact Hbf |]. intros blk Hblk. simpl in *.
    by destruct (transpose_block (numel rest) s1 s2 blk Hblk) as [-> _].
Qed.

(** X4: the two transpositions of the value states cancel.  What line
    74 projects, views as [bsz, q_len, heads, head_dim] and transposes,
    and line 100 transposes again, is the view itself: without a
    previous cache the kernel is handed the value projection in its own
    order. *)
Theorem value_states_transposed_back {R} (self : InternLMAttention R)
    (hidden_states vp : tensor R) bsz q_len :
  v_proj self hidden_states = Ok vp → wf vp →
  shape vp = [bsz; q_len; num_heads self * head_dim self] →
  ((v_proj self hidden_states
      ≫= view [bsz; q_len; num_heads self; head_dim self])
     ≫= transpose12) ≫= transpose12
  = Ok (Tensor [bsz; q_len; num_heads self; head_dim self] (data vp)).
Proof.
  intros Hv Hwf Hs. rewrite Hv. cbn [mbind result_bind].
  unfold view, reshape. rewrite Hs.
  assert (Hn : numel [bsz; q_len; num_heads self; head_dim self]
               = numel [bsz; q_len; num_heads self * head_dim self])
    by (simpl; lia).
  rewrite Hn, Nat.eqb_refl. cbn [mbind result_bind].
  apply (transpose12_twice _ bsz q_len (num_heads self) [head_dim self]); [done |].
  unfold wf in *. cbn [data shape]. by rewrite Hn, <- Hs.
Qed.

Lemma value_states_transposed_back_witness :
  (v_proj Demo.self Demo.hidden_states = Ok Demo.hidden_states ∧
   wf Demo.hidden_states ∧
   shape Demo.hidden_states = [2; 3; num_heads Demo.self * head_dim Demo.self]) ∧
  ((v_proj Demo.self Demo.hidden_states
      ≫= view [2; 3; num_heads Demo.self; head_dim Demo.self])
     ≫= transpose12) ≫= transpose12
  = Ok (Tensor [2; 3; num_heads Demo.self; head_dim Demo.self]
          (data Demo.hidden_states)).
Proof.
  split; [by split_and! |].
  exact (value_states_transposed_back Demo.self Demo.hidden_states
           Demo.hidden_states 2 3 eq_refl eq_refl eq_refl).
Defined.

(** ** Growing the cache step by step *)

Lemma zip_with_app_assoc {A} (xs ys zs : list (list A)) :
  zip_with app (zip_with app xs ys) zs = zip_with app xs (zip_with app ys zs).
Proof.
  revert ys zs. induction xs as [|x xs IH]; intros [|y ys] [|z zs]; simpl; try done.
  by rewrite IH, app_assoc.
Qed.

Lemma chunks_zip_with_app {A} kx ky n (x y : list A) :
  length x = n * kx → length y = n * ky →
  chunks (kx + ky) n (concat (zip_with app (chunks kx n x) (chunks ky n y)))
  = zip_with app (chunks kx n x) (chunks ky n y).
Proof.
  intros Hx Hy.
  assert (Hl : length (zip_with app (chunks kx n x) (chunks ky n y)) = n)
    by (rewrite length_zip_with, !length_chunks; lia).
  rewrite <- Hl at 1. apply chunks_concat.
  apply Forall_length_zip_with_app; apply Forall_length_chunks; lia.
Qed.

(** [torch.cat] along an inner axis is associative. *)
Lemma cat_assoc {A} pre post a b c (x y z : tensor A) :
  shape x = pre ++ a :: post → wf x →
  shape y = pre ++ b :: post → wf y →
  shape z = pre ++ c :: post → wf z →
  cat (length pre) x y ≫= (λ xy, cat (length pre) xy z)
  = cat (length pre) y z ≫= (λ yz, cat (length pre) x yz).
Proof.
  intros Hx Hwx Hy Hwy Hz Hwz.
  unfold wf in *. rewrite Hx, numel_app in Hwx. rewrite Hy, numel_app in Hwy.
  rewrite Hz, numel_app in Hwz. simpl in Hwx, Hwy, Hwz.
  rewrite (cat_blocks pre post a b x y Hx Hy), (cat_blocks pre post b c y z Hy Hz).
  cbn [mbind result_bind].
  rewrite (cat_blocks pre post (a + b) c (Tensor (pre ++ (a + b) :: post) _) z eq_refl Hz).
  rewrite (cat_blocks pre post a (b + c) x (Tensor (pre ++ (b + c) :: post) _) Hx eq_refl).
  cbn [data]. rewrite Nat.add_assoc. do 3 f_equal.
  rewrite !Nat.mul_add_distr_r.
  rewrite !chunks_zip_with_app by lia.
  apply zip_with_app_assoc.
Qed.

(** X5: growing the cache in two steps is growing it once by both
    steps' tokens.  For a cache [B, H, N, D] and new keys and values
    [B, H, L1, D] and then [B, H, L2, D], merging the first into the
    cache and the second into the result is merging into the cache what
    the merge of the second into the first gives. *)
Theorem merge_cache_incremental {R} (past_key past_value k1 v1 k2 v2 : tensor R)
    (B H N L1 L2 D : nat) :
  shape past_key = [B; H; N; D] → wf past_key →
  shape past_value = [B; H; N; D] → wf past_value →
  shape k1 = [B; H; L1; D] → wf k1 → shape v1 = [B; H; L1; D] → wf v1 →
  shape k2 = [B; H; L2; D] → wf k2 → shape v2 = [B; H; L2; D] → wf v2 →
  merge_cache (Some (past_key, past_value)) k1 v1
    ≫= (λ cache, merge_cache (Some cache) k2 v2)
  = merge_cache (Some (k1, v1)) k2 v2
      ≫= (λ new, merge_cache (Some (past_key, past_value)) new.1 new.2).
Proof.
  intros Hpk Hwpk Hpv Hwpv Hk1 Hwk1 Hv1 Hwv1 Hk2 Hwk2 Hv2 Hwv2.
  pose proof (cat_assoc [B; H] [D] N L1 L2 past_key k1 k2 Hpk Hwpk Hk1 Hwk1 Hk2 Hwk2) as Hk.
  pose proof (cat_assoc [B; H] [D] N L1 L2 past_value v1 v2 Hpv Hwpv Hv1 Hwv1 Hv2 Hwv2) as Hv.
  simpl in Hk, Hv. unfold merge_cache.
  destruct (narrow_cat [B; H] [D] N L1 past_key k1) as (pk1 & Hpk1 & _); try done.
  destruct (narrow_cat [B; H] [D] N L1 past_value v1) as (pv1 & Hpv1 & _); try done.
  destruct (narrow_cat [B; H] [D] L1 L2 k1 k2) as (k12 & Hk12 & _); try done.
  destruct (narrow_cat [B; H] [D] L1 L2 v1 v2) as (v12 & Hv12 & _); try done.
  simpl in *. rewrite Hpk1, Hpv1, Hk12, Hv12 in *. cbn [mbind result_bind] in *.
  rewrite Hk, Hv. done.
Qed.

Lemma merge_cache_incremental_witness :
  let past := Tensor [1; 1; 2; 2] [1; 2; 3; 4]%Z in
  let k1 := Tensor [1; 1; 1; 2] [5; 6]%Z in
  let k2 := Tensor [1; 1; 1; 2] [7; 8]%Z in
  let all := Tensor [1; 1; 4; 2] [1; 2; 3; 4; 5; 6; 7; 8]%Z in
  merge_cache (Some (past, past)) k1 k1 ≫= (λ cache, merge_cache (Some cache) k2 k2)
  = Ok (all, all) ∧
  merge_cache (Some (past, past)) k1 k1 ≫= (λ cache, merge_cache (Some cache) k2 k2)
  = merge_cache (Some (k1, k1)) k2 k2
      ≫= (λ new, merge_cache (Some (past, past)) new.1 new.2).
Proof.
  intros past k1 k2 all. split; [reflexivity |].
  exact (merge_cache_incremental past past k1 k1 k2 k2 1 1 2 1 1 2
           eq_refl eq_refl eq_refl eq_refl eq_refl eq_refl eq_refl eq_refl
           eq_refl eq_refl eq_refl eq_refl).
Defined.

(** ** The rotary transform, row by row *)

Lemma chunks_lookup {A} k n (l : list A) r :
  r < n → chunks k n l !! r = Some (take k (drop (r * k) l)).
Proof.
  revert l r. induction n as [|n IH]; intros l [|r] Hr; simpl; try lia; [done |].
  rewrite IH by lia. by rewrite drop_drop.
Qed.

(** Row [si] of block [B], for blocks of [s] rows of [d] elements. *)
Lemma row_of_block {A} d s B si (X : list A) :
  si < s →
  take d (drop (si * d) (take (s * d) (drop (B * (s * d)) X)))
  = take d (drop ((B * s + si) * d) X).
Proof.
  intros Hsi.
  replace (s * d) with (si * d + (s * d - si * d)) at 1 by nia.
  rewrite <- take_drop_commute, take_take, drop_drop.
  f_equal; [|f_equal]; nia.
Qed.

Lemma lookup_concat_replicate {A} h (l : list A) i j :
  j < h → concat ((λ x, replicate h x) <$> l) !! (i * h + j) = l !! i.
Proof.
  intros Hj. revert i. induction l as [|x l IH]; intros i; csimpl; [done |].
  destruct i as [|i]; simpl.
  - rewrite lookup_app_l by (rewrite length_replicate; lia).
    by apply lookup_replicate_2.
  - rewrite lookup_app_r by (rewrite length_replicate; lia).
    rewrite length_replicate. replace (h + i * h + j - h) with (i * h + j) by lia.
    apply IH.
Qed.

Lemma concat_replicate_concat {A} n (ls : list (list A)) :
  concat (replicate n (concat ls)) = concat (concat (replicate n ls)).
Proof. induction n as [|n IH]; simpl; [done |]. by rewrite concat_app, IH. Qed.

Lemma expand_cons {A} f t from to (l : list A) :
  expand (f :: from) (t :: to) l
  = if f =? t then concat (expand from to <$> chunks (numel from) f l)
    else concat (replicate t (expand from to l)).
Proof. done. Qed.

(** A block [s, d] repeated over [h] heads. *)
Lemma expand_head_axis {A} h s d (blk : list A) :
  length blk = s * d →
  expand [1; s; d] [h; s; d] blk = concat (replicate h blk).
Proof.
  intros Hl. rewrite expand_cons.
  assert (Hn : numel [s; d] = s * d) by (simpl; lia).
  destruct (Nat.eqb_spec 1 h) as [<-|Hne].
  - rewrite Hn. simpl. rewrite take_ge by lia. by rewrite expand_id by lia.
  - by rewrite expand_id by lia.
Qed.

(** The gathered rotary rows [b', 1, s, d] laid out against a head-split
    tensor [b, h, s, d]: block after block, each repeated [h] times. *)
Lemma expand_heads_blocks {A} b b' h s d (G : list A) :
  b' = b ∨ b' = 1 → length G = b' * (s * d) →
  expand [b'; 1; s; d] [b; h; s; d] G
  = concat (concat ((λ blk, replicate h blk)
                      <$> (if decide (b' = b) then chunks (s * d) b G
                           else replicate b G))).
Proof.
  intros Hb Hl. rewrite expand_cons.
  assert (Hn : numel [1; s; d] = s * d) by (simpl; lia).
  destruct (Nat.eqb_spec b' b) as [->|Hne].
  - rewrite decide_True by done. rewrite Hn.
    rewrite <- concat_concat_fmap. f_equal.
    apply Forall_fmap_ext_1.
    eapply Forall_impl; [apply (Forall_length_chunks (s * d) b); lia |].
    intros blk Hblk. simpl in *. by apply expand_head_axis.
  - rewrite decide_False by done. destruct Hb as [?| ->]; [done |].
    rewrite expand_head_axis by lia.
    by rewrite fmap_replicate, concat_replicate_concat.
Qed.

Lemma expand_heads_row {A} b b' h s d (G : list A) bi hi si :
  b' = b ∨ b' = 1 → length G = b' * (s * d) → bi < b → hi < h → si < s →
  take d (drop (((bi * h + hi) * s + si) * d) (expand [b'; 1; s; d] [b; h; s; d] G))
  = take d (drop (((if decide (b' = b) then bi else 0) * s + si) * d) G).
Proof.
  intros Hb Hl Hbi Hhi Hsi. rewrite (expand_heads_blocks b b' h s d G Hb Hl).
  set (GB := if decide (b' = b) then chunks (s * d) b G else replicate b G).
  assert (HGBl : length GB = b).
  { subst GB. case_decide; [apply length_chunks | apply length_replicate]. }
  assert (HGBf : Forall (λ r, length r = s * d) GB).
  { subst GB. case_decide.
    - subst b'. apply Forall_length_chunks. lia.
    - destruct Hb as [?| ->]; [done |]. apply Forall_replicate. lia. }
  assert (HGB : GB !! bi
                = Some (take (s * d)
                          (drop ((if decide (b' = b) then bi else 0) * (s * d)) G))).
  { subst GB. case_decide.
    - by apply chunks_lookup.
    - destruct Hb as [?| ->]; [done |].
      rewrite lookup_replicate_2 by done. simpl. by rewrite drop_0, take_ge by lia. }
  set (BL := concat ((λ blk, replicate h blk) <$> GB)).
  assert (HBLl : length BL = b * h).
  { subst BL. rewrite (length_concat_uniform h).
    - by rewrite length_fmap, HGBl.
    - apply Forall_fmap, Forall_forall. intros x _. simpl. apply length_replicate. }
  assert (HBLf : Forall (λ r, length r = s * d) BL).
  { subst BL. apply Forall_concat_2, Forall_fmap.
    eapply Forall_impl; [exact HGBf |]. intros x Hx. simpl in *.
    by apply Forall_replicate. }
  assert (Hblock : take (s * d) (drop ((bi * h + hi) * (s * d)) (concat BL))
                   = take (s * d)
                       (drop ((if decide (b' = b) then bi else 0) * (s * d)) G)).
  { assert (Hlt : bi * h + hi < b * h) by nia.
    pose proof (chunks_lookup (s * d) (b * h) (concat BL) (bi * h + hi) Hlt) as Hc.
    rewrite <- HBLl in Hc at 1. rewrite (chunks_concat _ _ HBLf) in Hc.
    subst BL. rewrite (lookup_concat_replicate h GB bi hi Hhi), HGB in Hc.
    by injection Hc as <-. }
  rewrite <- (row_of_block d s (bi * h + hi) si) by done.
  rewrite Hblock. by apply row_of_block.
Qed.

Lemma mapM_result_lookup {A B} (f : A → result B) l rs i x :
  mapM f l = Ok rs → l !! i = Some x → ∃ y, f x = Ok y ∧ rs !! i = Some y.
Proof.
  revert rs i. induction l as [|a l IH]; intros rs i Hm Hi; [done |].
  simpl in Hm. destruct (f a) as [y|] eqn:Hy; simpl in Hm; [|done].
  destruct (mapM f l) as [ys|] eqn:Hys; simpl in Hm; [|done].
  injection Hm as <-. destruct i as [|i]; simpl in *.
  - injection Hi as <-. eauto.
  - by apply IH.
Qed.

Lemma gather_rows_data {A} (e : list A) L d (ids : tensor Z) b' s rs :
  mapM (index_entry (chunks d L e) L) (data ids) = Ok rs → shape ids = [b'; s] →
  index_first (Tensor [L; d] e) (Some ids) ≫= unsqueeze 1
  = Ok (Tensor [b'; 1; s; d] (concat rs)).
Proof.
  intros Hrs Hs. unfold index_first; simpl. rewrite Nat.mul_1_r, Hrs; simpl.
  unfold unsqueeze; simpl. by rewrite Hs.
Qed.

Section RotaryRowFormula.
Context {R : Type} (radd rmul : R → R → R) (rneg : R → R).

(** One row of the result of [embed_one_data]. *)
Lemma embed_one_row (X Gc Gs : list R) (rsc rss : list (list R))
    b b' h s d bi hi si crow srow :
  b' = b ∨ b' = 1 → bi < b → hi < h → si < s →
  length rsc = b' * s → Forall (λ r, length r = d) rsc →
  length rss = b' * s → Forall (λ r, length r = d) rss →
  rsc !! ((if decide (b' = b) then bi else 0) * s + si) = Some crow →
  rss !! ((if decide (b' = b) then bi else 0) * s + si) = Some srow →
  length X = b * h * s * d →
  chunks d (b * h * s)
    (zip_with radd
       (zip_with rmul X (expand [b'; 1; s; d] [b; h; s; d] (concat rsc)))
       (zip_with rmul (concat (rot_row rneg d <$> chunks d (b * h * s) X))
          (expand [b'; 1; s; d] [b; h; s; d] (concat rss))))
    !! ((bi * h + hi) * s + si)
  = (λ x, zip_with radd (zip_with rmul x crow)
            (zip_with rmul (rot_row rneg d x) srow))
      <$> (chunks d (b * h * s) X !! ((bi * h + hi) * s + si)).
Proof.
  intros Hb Hbi Hhi Hsi Hlc Hfc Hls Hfs Hcrow Hsrow HX.
  assert (Hbh : bi * h + hi < b * h) by nia.
  assert (Hr : (bi * h + hi) * s + si < b * h * s) by nia.
  assert (Hr' : (if decide (b' = b) then bi else 0) * s + si < b' * s).
  { case_decide; [subst b'; nia |]. destruct Hb as [?| ->]; [done | lia]. }
  rewrite !chunks_lookup by done. simpl.
  rewrite !zip_with_drop, !zip_with_take. f_equal.
  assert (Hrow : ∀ rs : list (list R),
            length rs = b' * s → Forall (λ r, length r = d) rs →
            take d (drop (((bi * h + hi) * s + si) * d)
                      (expand [b'; 1; s; d] [b; h; s; d] (concat rs)))
            = default [] (rs !! ((if decide (b' = b) then bi else 0) * s + si))).
  { intros rs Hl Hf.
    rewrite (expand_heads_row b b' h s d) by
      (try done; rewrite (length_concat_uniform d _ Hf), Hl; lia).
    pose proof (chunks_lookup d (b' * s) (concat rs) _ Hr') as Hc.
    rewrite <- Hl in Hc at 1. rewrite (chunks_concat _ _ Hf) in Hc.
    by rewrite Hc. }
  rewrite (Hrow rsc Hlc Hfc), (Hrow rss Hls Hfs), Hcrow, Hsrow. simpl.
  do 2 f_equal.
  assert (Hrot : chunks d (b * h * s)
                   (concat (rot_row rneg d <$> chunks d (b * h * s) X))
                 = rot_row rneg d <$> chunks d (b * h * s) X).
  { apply chunks_concat_fmap; [apply length_chunks |].
    eapply Forall_impl; [apply (Forall_length_chunks d (b * h * s)); lia |].
    intros r Hlr. simpl in *. by apply length_rot_row. }
  pose proof (chunks_lookup d (b * h * s)
                (concat (rot_row rneg d <$> chunks d (b * h * s) X)) _ Hr) as Hc.
  rewrite Hrot, list_lookup_fmap, chunks_lookup in Hc by done.
  simpl in Hc. by injection Hc as <-.
Qed.

(** X3: the rotary transform row by row.  For head-split [q], [k], a
    table [1, 1, L, d] and a position index [b, s] (or [1, s]), the row
    of the result at batch [bi], head [hi] and token [si] is
    [x * cos_p + rotate_half(x) * sin_p], where [x] is the row of the
    input at that place and [cos_p], [sin_p] are the rows of the tables
    at the token's position [p]. *)
Theorem apply_rotary_pos_emb_rows
    (q k cos sin : tensor R) (ids : tensor Z) (b b' h hk s d L : nat) :
  shape q = [b; h; s; d] → wf q →
  shape k = [b; hk; s; d] → wf k →
  shape cos = [1; 1; L; d] → wf cos →
  shape sin = [1; 1; L; d] → wf sin →
  shape ids = [b'; s] → wf ids → b' = b ∨ b' = 1 →
  Forall (λ i, (- Z.of_nat L ≤ i < Z.of_nat L)%Z) (data ids) →
  ∃ q' k',
    apply_rotary_pos_emb radd rmul rneg q k cos sin (Some ids) = Ok (q', k') ∧
    ∀ bi si p crow srow,
      bi < b → si < s →
      data ids !! ((if decide (b' = b) then bi else 0) * s + si) = Some p →
      index_entry (chunks d L (data cos)) L p = Ok crow →
      index_entry (chunks d L (data sin)) L p = Ok srow →
      (∀ hi, hi < h →
         chunks d (b * h * s) (data q') !! ((bi * h + hi) * s + si)
         = (λ x, zip_with radd (zip_with rmul x crow)
                   (zip_with rmul (rot_row rneg d x) srow))
             <$> (chunks d (b * h * s) (data q) !! ((bi * h + hi) * s + si))) ∧
      (∀ hi, hi < hk →
         chunks d (b * hk * s) (data k') !! ((bi * hk + hi) * s + si)
         = (λ x, zip_with radd (zip_with rmul x crow)
                   (zip_with rmul (rot_row rneg d x) srow))
             <$> (chunks d (b * hk * s) (data k) !! ((bi * hk + hi) * s + si))).
Proof.
  intros Hq Hwq Hk Hwk Hc Hwc Hsn Hws Hi Hwi Hb Hrange.
  assert (Hlc : length (data cos) = L * d)
    by (unfold wf in Hwc; rewrite Hwc, Hc; simpl; lia).
  assert (Hls : length (data sin) = L * d)
    by (unfold wf in Hws; rewrite Hws, Hsn; simpl; lia).
  assert (Hli : length (data ids) = b' * s)
    by (unfold wf in Hwi; rewrite Hwi, Hi; simpl; lia).
  destruct (mapM_index_entry (chunks d L (data cos)) L (data ids))
    as (rsc & Hrsc & Hlenc & Hinc & _); [apply length_chunks | done |].
  destruct (mapM_index_entry (chunks d L (data sin)) L (data ids))
    as (rss & Hrss & Hlens & Hins & _); [apply length_chunks | done |].
  assert (Hfc : Forall (λ r, length r = d) rsc).
  { eapply Forall_impl; [exact Hinc |]. intros r Hr; simpl in *.
    pose proof (Forall_length_chunks d L (data cos) Hlc) as Hrows.
    rewrite Forall_forall in Hrows. by apply Hrows. }
  assert (Hfs : Forall (λ r, length r = d) rss).
  { eapply Forall_impl; [exact Hins |]. intros r Hr; simpl in *.
    pose proof (Forall_length_chunks d L (data sin) Hls) as Hrows.
    rewrite Forall_forall in Hrows. by apply Hrows. }
  pose proof (gather_rows_data (data cos) L d ids b' s rsc Hrsc Hi) as Hcg.
  pose proof (gather_rows_data (data sin) L d ids b' s rss Hrss Hi) as Hsg.
  assert (Hwcg : wf (Tensor [b'; 1; s; d] (concat rsc))).
  { unfold wf; simpl. rewrite (length_concat_uniform d _ Hfc), Hlenc, Hli. lia. }
  assert (Hwsg : wf (Tensor [b'; 1; s; d] (concat rss))).
  { unfold wf; simpl. rewrite (length_concat_uniform d _ Hfs), Hlens, Hli. lia. }
  pose proof (embed_one_data radd rmul rneg q (Tensor [b'; 1; s; d] (concat rsc))
                (Tensor [b'; 1; s; d] (concat rss)) b b' h s d
                Hq Hwq eq_refl Hwcg eq_refl Hwsg Hb) as Hq'.
  pose proof (embed_one_data radd rmul rneg k (Tensor [b'; 1; s; d] (concat rsc))
                (Tensor [b'; 1; s; d] (concat rss)) b b' hk s d
                Hk Hwk eq_refl Hwcg eq_refl Hwsg Hb) as Hk'.
  eexists _, _. split.
  - unfold apply_rotary_pos_emb.
    rewrite (squeeze_table cos L d Hc), (squeeze_table sin L d Hsn).
    cbn [mbind result_bind]. rewrite Hcg, Hsg. cbn [mbind result_bind].
    revert Hq' Hk'. cbn [mbind result_bind data].
    destruct (mul rmul q _) as [qc|]; cbn [mbind result_bind]; [|done].
    destruct (rotate_half rneg q) as [rq|]; cbn [mbind result_bind]; [|done].
    destruct (mul rmul rq _) as [qr|]; cbn [mbind result_bind]; [|done].
    intros ->. cbn [mbind result_bind].
    destruct (mul rmul k _) as [kc|]; cbn [mbind result_bind]; [|done].
    destruct (rotate_half rneg k) as [rk|]; cbn [mbind result_bind]; [|done].
    destruct (mul rmul rk _) as [kr|]; cbn [mbind result_bind]; [|done].
    by intros ->.
  - intros bi si p crow srow Hbi Hsi Hp Hcrow Hsrow.
    destruct (mapM_result_lookup _ _ _ _ _ Hrsc Hp) as (crow' & Hc1 & Hc2).
    destruct (mapM_result_lookup _ _ _ _ _ Hrss Hp) as (srow' & Hs1 & Hs2).
    rewrite Hcrow in Hc1. injection Hc1 as <-.
    rewrite Hsrow in Hs1. injection Hs1 as <-.
    assert (HXq : length (data q) = b * h * s * d)
      by (unfold wf in Hwq; rewrite Hwq, Hq; simpl; lia).
    assert (HXk : length (data k) = b * hk * s * d)
      by (unfold wf in Hwk; rewrite Hwk, Hk; simpl; lia).
    split; intros hi Hhi; cbn [data].
    + apply embed_one_row; try done; lia.
    + apply embed_one_row; try done; lia.
Qed.
End RotaryRowFormula.

Lemma apply_rotary_pos_emb_rows_witness :
  let q := Tensor [1; 1; 2; 2] [1; 2; 3; 4]%Z in
  let cos := Tensor [1; 1; 3; 2] [1; 1; 5; 5; 7; 7]%Z in
  let sin := Tensor [1; 1; 3; 2] [0; 0; 2; 2; 3; 3]%Z in
  let ids := Tensor [1; 2] [1; 2]%Z in
  ∃ q' k',
    apply_rotary_pos_emb Z.add Z.mul Z.opp q q cos sin (Some ids) = Ok (q', k') ∧
    chunks 2 2 (data q') !! 0 = Some [1; 12]%Z ∧
    chunks 2 2 (data q') !! 1 = Some [9; 37]%Z.
Proof.
  intros q cos sin ids.
  assert (Hrange : Forall (λ i, (- Z.of_nat 3 ≤ i < Z.of_nat 3)%Z) (data ids))
    by (repeat (apply Forall_cons; split; [lia |]); done).
  destruct (apply_rotary_pos_emb_rows Z.add Z.mul Z.opp q q cos sin ids 1 1 1 1 2 2 3
              eq_refl eq_refl eq_refl eq_refl eq_refl eq_refl eq_refl eq_refl
              eq_refl eq_refl (or_introl eq_refl) Hrange)
    as (q' & k' & Hrot & Hrows).
  exists q', k'. split; [exact Hrot |]. split.
  - destruct (Hrows 0 0 1%Z [5; 5]%Z [2; 2]%Z (le_n 1) (le_S 1 1 (le_n 1))
                eq_refl eq_refl eq_refl) as [Hq _].
    exact (Hq 0 (le_n 1)).
  - destruct (Hrows 0 1 2%Z [7; 7]%Z [3; 3]%Z (le_n 1) (le_n 2)
                eq_refl eq_refl eq_refl) as [Hq _].
    exact (Hq 0 (le_n 1)).
Defined.

(** ** Re-basing the boundaries of a packed batch *)

Lemma rebase_loop_seq rank q_len a n hub cl :
  cumulative_len_rank hub !! rank = Some cl →
  a + n ≤ length cl →
  rebase_loop rank q_len (seq a n) hub
  = (Ok tt,
     {| cumulative_len_rank :=
          <[rank := imap (λ i t, if decide (a ≤ i < a + n)
                                 then (λ z, int32_wrap (z + Z.of_nat (q_len * i))) <$> t
                                 else t) cl]> (cumulative_len_rank hub);
        indexes_rank := indexes_rank hub;
        max_seqlen_rank := max_seqlen_rank hub |}).
Proof.
  revert a hub cl. induction n as [|n IH]; intros a hub cl Hcl Hlen; simpl.
  - unfold mret, hubM_ret. f_equal. destruct hub as [c ix ms]; simpl in *. f_equal.
    symmetry. apply insert_id. rewrite Hcl. f_equal.
    apply list_eq. intros i. rewrite list_lookup_imap.
    destruct (cl !! i); simpl; [|done]. by rewrite decide_False by lia.
  - unfold mbind, hubM_bind, iadd_cumulative_len. rewrite Hcl.
    destruct (cl !! a) as [t|] eqn:Ht; [|apply lookup_ge_None in Ht; lia].
    rewrite (IH (S a) _ (<[a := (λ z, int32_wrap (z + Z.of_nat (q_len * a))) <$> t]> cl));
      simpl; [| by rewrite lookup_insert_eq | rewrite length_insert; lia].
    f_equal. f_equal. rewrite insert_insert_eq. f_equal.
    apply list_eq. intros i. rewrite !list_lookup_imap.
    destruct (decide (i = a)) as [->|Hne].
    + rewrite list_lookup_insert_eq by lia. rewrite Ht. simpl.
      rewrite decide_False by lia. by rewrite decide_True by lia.
    + rewrite list_lookup_insert_ne by done.
      destruct (cl !! i); simpl; [|done].
      repeat case_decide; first [done | exfalso; lia].
Qed.

(** The loop of lines 106-107 over a batch of as many samples as the hub
    holds for the rank: sample 0 is left alone, and every later sample is
    moved by [q_len] times its index, in the hub and in 32-bit
    arithmetic. *)
Lemma rebase_loop_range rank q_len hub cl :
  cumulative_len_rank hub !! rank = Some cl →
  rebase_loop rank q_len (seq 1 (length cl - 1)) hub
  = (Ok tt,
     {| cumulative_len_rank :=
          <[rank := imap (λ i t, match i with
                                 | 0 => t
                                 | S _ => (λ z, int32_wrap (z + Z.of_nat (q_len * i)))
                                            <$> t
                                 end) cl]>
            (cumulative_len_rank hub);
        indexes_rank := indexes_rank hub;
        max_seqlen_rank := max_seqlen_rank hub |}).
Proof.
  intros Hcl. destruct cl as [|c cl].
  - simpl. unfold mret, hubM_ret. f_equal. destruct hub; simpl in *. f_equal.
    symmetry. by apply insert_id.
  - rewrite (rebase_loop_seq rank q_len 1 _ hub (c :: cl) Hcl) by (simpl; lia).
    f_equal. f_equal. f_equal. apply list_eq. intros i. rewrite !list_lookup_imap.
    destruct ((c :: cl) !! i) as [t|] eqn:Ht; simpl; [|done]. f_equal.
    apply lookup_lt_Some in Ht. simpl in Ht.
    destruct i as [|i].
    + by rewrite decide_False by lia.
    + by rewrite decide_True by lia.
Qed.

(** Within the 32-bit range nothing wraps. *)
Lemma int32_wrap_id z : (- 2 ^ 31 ≤ z < 2 ^ 31)%Z → int32_wrap z = z.
Proof.
  intros Hz. unfold int32_wrap. rewrite Z.mod_small; lia.
Qed.

(** The re-based boundaries when no sum leaves the 32-bit range: sample
    [i] moved by [q_len * i]. *)
Lemma rebased_in_range q_len cl :
  Forall (Forall (λ z, (0 ≤ z ≤ Z.of_nat q_len)%Z)) cl →
  (Z.of_nat (length cl * q_len) < 2 ^ 31)%Z →
  imap (λ i t, match i with
               | 0 => t
               | S _ => (λ z, int32_wrap (z + Z.of_nat (q_len * i))) <$> t
               end) cl
  = imap (λ i t, (λ z, (z + Z.of_nat (q_len * i))%Z) <$> t) cl.
Proof.
  intros Hall Hlt. apply imap_ext. intros i t Ht.
  pose proof (lookup_lt_Some _ _ _ Ht) as Hi.
  pose proof (proj1 (Forall_lookup _ _) Hall i t Ht) as Hin. simpl in Hin.
  destruct i as [|i].
  - rewrite Nat.mul_0_r. simpl.
    rewrite <- (list_fmap_id t) at 1. apply list_fmap_ext. intros; simpl; lia.
  - apply Forall_fmap_ext_1. eapply Forall_impl; [exact Hin |].
    intros z Hz. simpl in *. apply int32_wrap_id. nia.
Qed.

Lemma packed_attention_after_loop {R} (K : Kernels R) rank max_seqlen bsz q_len
    (q k v q' k' v' : tensor R) hub hub1 :
  flatten01 q = Ok q' → flatten01 k = Ok k' → flatten01 v = Ok v' →
  rebase_loop rank q_len (seq 1 (bsz - 1)) hub = (Ok tt, hub1) →
  packed_attention K rank max_seqlen bsz q_len q k v hub
  = (cat0 (default [] (cumulative_len_rank hub1 !! rank)) ≫= λ b,
       flash_attn_varlen_func K q' k' v' b b max_seqlen max_seqlen,
     hub1).
Proof.
  intros Hq Hk Hv Hl.
  unfold packed_attention, mbind at 1 2 3 4, hubM_bind at 1 2 3 4, lift at 1 2 3.
  rewrite Hq, Hk, Hv, Hl. unfold mbind, hubM_bind, get_cumulative_len, lift.
  by destruct (cat0 _).
Qed.

Lemma last_concat_rebased q_len cl c :
  last cl = Some c → last c = Some (Z.of_nat q_len) →
  last (concat (imap (λ i t, (λ z, (z + Z.of_nat (q_len * i))%Z) <$> t) cl))
  = Some (Z.of_nat (length cl * q_len)).
Proof.
  intros Hcl Hc. apply last_Some in Hcl as [cl0 ->].
  rewrite imap_app, concat_app, last_app. simpl. rewrite app_nil_r, fmap_last, Hc. simpl.
  f_equal. rewrite length_app. simpl. lia.
Qed.

Lemma Forall_concat_rebased q_len cl :
  Forall (Forall (λ z, (0 ≤ z ≤ Z.of_nat q_len)%Z)) cl →
  Forall (λ z, (0 ≤ z ≤ Z.of_nat (length cl * q_len))%Z)
    (concat (imap (λ i t, (λ z, (z + Z.of_nat (q_len * i))%Z) <$> t) cl)).
Proof.
  intros Hall. apply Forall_concat_2. apply Forall_lookup. intros i t.
  rewrite list_lookup_imap. destruct (cl !! i) as [c|] eqn:Hc; simpl; [|done].
  intros [= <-]. apply Forall_fmap.
  pose proof (lookup_lt_Some _ _ _ Hc) as Hi.
  eapply Forall_impl; [exact (proj1 (Forall_lookup _ _) Hall i c Hc) |].
  intros z Hz. simpl in *. nia.
Qed.

(** X7: the packed branch on a batch of as many samples as the hub holds
    for the rank.  Sample 0 keeps its boundaries and every later sample
    [i] has [q_len * i] added to each of its boundaries in the 32-bit
    arithmetic of the boundary tensors; the packed kernel is handed, as
    both boundary arguments, the concatenation of the result, and the list
    in the hub is left holding it, whatever the kernel returns.  When the
    published boundaries lie in [0, q_len] and [bsz * q_len] is below
    [2 ^ 31] no sum wraps, and sample [i] is moved by exactly
    [q_len * i]. *)
Theorem packed_attention_rebases {R} (K : Kernels R) rank max_seqlen q_len
    (q k v q' k' v' : tensor R) hub cl :
  cumulative_len_rank hub !! rank = Some cl → cl ≠ [] →
  flatten01 q = Ok q' → flatten01 k = Ok k' → flatten01 v = Ok v' →
  (packed_attention K rank max_seqlen (length cl) q_len q k v hub).1
  = flash_attn_varlen_func K q' k' v'
      (concat (imap (λ i t, match i with
                            | 0 => t
                            | S _ => (λ z, int32_wrap (z + Z.of_nat (q_len * i))) <$> t
                            end) cl))
      (concat (imap (λ i t, match i with
                            | 0 => t
                            | S _ => (λ z, int32_wrap (z + Z.of_nat (q_len * i))) <$> t
                            end) cl))
      max_seqlen max_seqlen ∧
  cumulative_len_rank (packed_attention K rank max_seqlen (length cl) q_len q k v hub).2
  = <[rank := imap (λ i t, match i with
                           | 0 => t
                           | S _ => (λ z, int32_wrap (z + Z.of_nat (q_len * i))) <$> t
                           end) cl]>
      (cumulative_len_rank hub) ∧
  (Forall (Forall (λ z, (0 ≤ z ≤ Z.of_nat q_len)%Z)) cl →
   (Z.of_nat (length cl * q_len) < 2 ^ 31)%Z →
   imap (λ i t, match i with
                | 0 => t
                | S _ => (λ z, int32_wrap (z + Z.of_nat (q_len * i))) <$> t
                end) cl
   = imap (λ i t, (λ z, (z + Z.of_nat (q_len * i))%Z) <$> t) cl).
Proof.
  intros Hcl Hne Hq Hk Hv.
  rewrite (packed_attention_after_loop K rank max_seqlen (length cl) q_len
             q k v q' k' v' hub _ Hq Hk Hv (rebase_loop_range rank q_len hub cl Hcl)).
  simpl. rewrite lookup_insert_eq. simpl. split_and!; [| done | apply rebased_in_range].
  destruct cl as [|c cl]; [done |]. reflexivity.
Qed.

(** X8: when every published boundary lies in [0, q_len], the last
    sample ends at [q_len] and [bsz * q_len] is below [2 ^ 31], the
    boundaries handed to the packed kernel lie in [0, bsz * q_len] and
    end at [bsz * q_len], the number of tokens of the flattened batch. *)
Theorem packed_boundaries_within_batch {R} (K : Kernels R) rank max_seqlen q_len
    (q k v q' k' v' : tensor R) hub cl c :
  cumulative_len_rank hub !! rank = Some cl →
  flatten01 q = Ok q' → flatten01 k = Ok k' → flatten01 v = Ok v' →
  Forall (Forall (λ z, (0 ≤ z ≤ Z.of_nat q_len)%Z)) cl →
  last cl = Some c → last c = Some (Z.of_nat q_len) →
  (Z.of_nat (length cl * q_len) < 2 ^ 31)%Z →
  ∃ b,
    (packed_attention K rank max_seqlen (length cl) q_len q k v hub).1
    = flash_attn_varlen_func K q' k' v' b b max_seqlen max_seqlen ∧
    Forall (λ z, (0 ≤ z ≤ Z.of_nat (length cl * q_len))%Z) b ∧
    last b = Some (Z.of_nat (length cl * q_len)).
Proof.
  intros Hcl Hq Hk Hv Hall Hlast Hc Hlt.
  exists (concat (imap (λ i t, (λ z, (z + Z.of_nat (q_len * i))%Z) <$> t) cl)).
  split_and!.
  - rewrite (packed_attention_after_loop K rank max_seqlen (length cl) q_len
               q k v q' k' v' hub _ Hq Hk Hv (rebase_loop_range rank q_len hub cl Hcl)).
    simpl. rewrite lookup_insert_eq. simpl.
    rewrite (rebased_in_range q_len cl Hall Hlt).
    destruct cl as [|c0 cl]; [done |]. reflexivity.
  - by apply Forall_concat_rebased.
  - by apply (last_concat_rebased q_len cl c).
Qed.

Lemma packed_attention_rebases_witness :
  let cl := [[0; 1; 3]; [0; 2147483647]]%Z in
  let hub := Demo.hub_packed cl in
  let K := Demo.kernels true true in
  let q := Tensor [2; 3; 2; 2] (Z.of_nat <$> seq 1 24) in
  let q' := Tensor [6; 2; 2] (Z.of_nat <$> seq 1 24) in
  (cumulative_len_rank hub !! 0 = Some cl ∧ cl ≠ [] ∧ flatten01 q = Ok q') ∧
  (packed_attention K 0 (Some 3%Z) (length cl) 3 q q q hub).1
  = flash_attn_varlen_func K q' q' q'
      [0; 1; 3; 3; -2147483646]%Z [0; 1; 3; 3; -2147483646]%Z
      (Some 3%Z) (Some 3%Z) ∧
  cumulative_len_rank (packed_attention K 0 (Some 3%Z) (length cl) 3 q q q hub).2
  = <[0 := [[0; 1; 3]; [3; -2147483646]]%Z]> (cumulative_len_rank hub).
Proof.
  intros cl hub K q q'.
  assert (Hcl : cumulative_len_rank hub !! 0 = Some cl) by (vm_compute; reflexivity).
  assert (Hne : cl ≠ []) by discriminate.
  split; [by split_and! |].
  destruct (packed_attention_rebases K 0 (Some 3%Z) 3 q q q q' q' q' hub cl
              Hcl Hne eq_refl eq_refl eq_refl) as (Hkernel & Hhub & _).
  split; [exact Hkernel | exact Hhub].
Defined.

Lemma packed_boundaries_within_batch_witness :
  let cl := [[0; 1; 3]; [0; 3]]%Z in
  let hub := Demo.hub_packed cl in
  let K := Demo.kernels true true in
  let q := Tensor [2; 3; 2; 2] (Z.of_nat <$> seq 1 24) in
  let q' := Tensor [6; 2; 2] (Z.of_nat <$> seq 1 24) in
  (cumulative_len_rank hub !! 0 = Some cl ∧ flatten01 q = Ok q' ∧
   Forall (Forall (λ z, (0 ≤ z ≤ Z.of_nat 3)%Z)) cl ∧
   last cl = Some [0; 3]%Z ∧ last [0; 3]%Z = Some (Z.of_nat 3) ∧
   (Z.of_nat (length cl * 3) < 2 ^ 31)%Z) ∧
  ∃ b,
    (packed_attention K 0 (Some 3%Z) (length cl) 3 q q q hub).1
    = flash_attn_varlen_func K q' q' q' b b (Some 3%Z) (Some 3%Z) ∧
    Forall (λ z, (0 ≤ z ≤ Z.of_nat (length cl * 3))%Z) b ∧
    last b = Some (Z.of_nat (length cl * 3)).
Proof.
  intros cl hub K q q'.
  assert (Hcl : cumulative_len_rank hub !! 0 = Some cl) by (vm_compute; reflexivity).
  assert (Hall : Forall (Forall (λ z, (0 ≤ z ≤ Z.of_nat 3)%Z)) cl)
    by (repeat (apply Forall_cons; split; [|]); try apply Forall_nil_2; lia).
  assert (Hlt : (Z.of_nat (length cl * 3) < 2 ^ 31)%Z) by reflexivity.
  split; [by split_and! |].
  exact (packed_boundaries_within_batch K 0 (Some 3%Z) 3 q q q q' q' q' hub cl
           [0; 3]%Z Hcl eq_refl eq_refl eq_refl Hall eq_refl eq_refl Hlt).
Defined.

(** ** Packed calls through the whole forward pass *)

Section ForwardPacked.
Context {R : Type} (radd rmul : R → R → R) (rneg : R → R).
Context (self : InternLMAttention R) (K : Kernels R) (rank : nat).

Lemma rotary_states_layout cl idx hidden_states position_ids past bsz q_len q k v :
  rotary_states radd rmul rneg self (Some cl) idx hidden_states position_ids past
  = Ok (bsz, q_len, q, k, v) →
  size3 hidden_states = Ok (bsz, q_len) ∧ assert_layout cl bsz q_len = Ok tt.
Proof.
  unfold rotary_states. intros Hrs.
  destruct (size3 hidden_states) as [[b ql]|]; [|done]. simpl in Hrs.
  destruct (assert_layout cl b ql) as [[]|] eqn:Ha; [|done]. simpl in Hrs.
  repeat match type of Hrs with
         | (match ?m with _ => _ end) = _ => destruct m; simpl in Hrs; try done
         | (?m ≫= _) = _ => destruct m; simpl in Hrs; try done
         end.
  by simplify_eq.
Qed.

(** A packed call that returns has passed the layout assertion, found
    the flash-attention library and run the re-basing loop to its end;
    the hub it leaves is the one the loop left. *)
Lemma forward_packed_returns hidden_states mask position_ids past oa uc hub cl r hub' :
  cumulative_len_rank hub !! rank = Some cl →
  internlm_attn_forward radd rmul rneg self K rank
    hidden_states mask position_ids past oa uc hub = (Ok r, hub') →
  ∃ bsz q_len,
    size3 hidden_states = Ok (bsz, q_len) ∧ assert_layout cl bsz q_len = Ok tt ∧
    SUPPORT_FLASH2 K = true ∧
    rebase_loop rank q_len (seq 1 (bsz - 1)) hub = (Ok tt, hub').
Proof.
  intros Hcl. rewrite forward_unfold, Hcl.
  destruct (rotary_states _ _ _ _ _ _ _ _ _) as [[[[[bsz q_len] q] k0] v0]|e] eqn:Hrs;
    [|done].
  apply rotary_states_layout in Hrs as [Hs Ha].
  destruct (merge_cache past k0 v0) as [[k v]|e]; [|done].
  rewrite attn_kernel_select, select_backend_flash.
  destruct (SUPPORT_FLASH2 K) eqn:Hf; [|done].
  rewrite bool_decide_eq_true_2 by eauto.
  unfold run_backend, mbind at 1 2 3, hubM_bind at 1 2 3, lift at 1 2 3.
  destruct (transpose12 q) as [q'|]; [|done].
  destruct (transpose12 k) as [k'|]; [|done].
  destruct (transpose12 v) as [v'|]; [|done].
  unfold packed_attention, mbind, hubM_bind, lift, get_cumulative_len.
  destruct (flatten01 q'); [|done]. destruct (flatten01 k'); [|done].
  destruct (flatten01 v'); [|done].
  destruct (rebase_loop rank q_len (seq 1 (bsz - 1)) hub) as [[[]|e] hub1] eqn:Hloop;
    [|done].
  destruct (cat0 _); [|done].
  destruct (flash_attn_varlen_func _ _ _ _ _ _ _ _) as [o|]; [|done].
  destruct (reshape _ o) as [o'|]; [|done].
  destruct (o_proj self o'); [|done].
  intros [= <- <-]. by exists bsz, q_len.
Qed.

(** X9: after a packed call that returns, the hub holds for the rank
    the boundaries it held before with [q_len * i] added, in 32-bit
    arithmetic, to every boundary of every sample [i] after the first:
    the call re-bases the published list in place, for every batch size
    and row length. *)
Theorem forward_packed_rebases hidden_states mask position_ids past oa uc hub cl r hub' :
  cumulative_len_rank hub !! rank = Some cl →
  internlm_attn_forward radd rmul rneg self K rank
    hidden_states mask position_ids past oa uc hub = (Ok r, hub') →
  ∃ bsz q_len,
    size3 hidden_states = Ok (bsz, q_len) ∧ length cl = bsz ∧
    cumulative_len_rank hub' !! rank
    = Some (imap (λ i t, match i with
                         | 0 => t
                         | S _ => (λ z, int32_wrap (z + Z.of_nat (q_len * i))) <$> t
                         end) cl).
Proof.
  intros Hcl Hfw.
  destruct (forward_packed_returns _ _ _ _ _ _ _ _ _ _ Hcl Hfw)
    as (bsz & q_len & Hs & Ha & _ & Hloop).
  apply assert_layout_Ok in Ha as [Hlen _].
  exists bsz, q_len. split_and!; [done | done |].
  rewrite <- Hlen, (rebase_loop_range rank q_len hub cl Hcl) in Hloop.
  injection Hloop as <-. simpl. by rewrite lookup_insert_eq.
Qed.

(** X6: a packed call whose published sample count is not the batch
    size, or whose first sample does not end at the row length, raises
    [AssertionError] before anything is projected, whatever the kernel
    libraries are, and leaves the hub as it was. *)
Theorem forward_rejects_layout_mismatch hidden_states mask position_ids past oa uc
    hub cl bsz q_len :
  cumulative_len_rank hub !! rank = Some cl →
  size3 hidden_states = Ok (bsz, q_len) →
  length cl ≠ bsz ∨
  (∃ c0 e, cl !! 0 = Some c0 ∧ last c0 = Some e ∧ e ≠ Z.of_nat q_len) →
  internlm_attn_forward radd rmul rneg self K rank
    hidden_states mask position_ids past oa uc hub = (Raise AssertionError, hub).
Proof.
  intros Hcl Hs Hbad.
  apply (forward_layout_mismatch _ _ _ _ _ _ _ _ _ _ _ _ _ cl bsz q_len);
    [done | done |].
  destruct Hbad as [Hn|(c0 & e & H0 & Hl & Hne)].
  - by apply assert_layout_count.
  - by apply (assert_layout_first cl c0 e).
Qed.
End ForwardPacked.

Lemma forward_packed_rebases_witness :
  let cl := [[0; 3]; [0; 2147483647]]%Z in
  let hub := Demo.hub_packed cl in
  let call := Demo.forward true true Demo.hidden_states None None None false false in
  let out := Tensor [2; 3; 4] (Z.of_nat <$> seq 1 24) in
  (cumulative_len_rank hub !! 0 = Some cl ∧
   call hub = (Ok (out, None, None), (call hub).2)) ∧
  cumulative_len_rank (call hub).2 !! 0 = Some [[0; 3]; [3; -2147483646]]%Z.
Proof.
  intros cl hub call out.
  assert (Hcl : cumulative_len_rank hub !! 0 = Some cl) by (vm_compute; reflexivity).
  assert (Hfw : call hub = (Ok (out, None, None), (call hub).2))
    by (vm_compute; reflexivity).
  split; [by split |].
  destruct (forward_packed_rebases Z.add Z.mul Z.opp Demo.self (Demo.kernels true true) 0
              Demo.hidden_states None None None false false hub cl
              (out, None, None) (call hub).2 Hcl Hfw)
    as (bsz & q_len & Hs & _ & Hhub).
  injection Hs as <- <-. exact Hhub.
Defined.

Lemma forward_rejects_layout_mismatch_witness :
  let cl := [[0; 3]]%Z in
  let hub := Demo.hub_packed cl in
  (cumulative_len_rank hub !! 0 = Some cl ∧
   size3 Demo.hidden_states = Ok (2, 3) ∧
   (length cl ≠ 2 ∨
    ∃ c0 e, cl !! 0 = Some c0 ∧ last c0 = Some e ∧ e ≠ Z.of_nat 3)) ∧
  Demo.forward true true Demo.hidden_states None None None false false hub
  = (Raise AssertionError, hub).
Proof.
  intros cl hub.
  assert (Hcl : cumulative_len_rank hub !! 0 = Some cl) by (vm_compute; reflexivity).
  assert (Hbad : length cl ≠ 2 ∨
                 ∃ c0 e, cl !! 0 = Some c0 ∧ last c0 = Some e ∧ e ≠ Z.of_nat 3)
    by (left; discriminate).
  split; [by split_and! |].
  exact (forward_rejects_layout_mismatch Z.add Z.mul Z.opp Demo.self
           (Demo.kernels true true) 0 Demo.hidden_states None None None false false
           hub cl 2 3 Hcl eq_refl Hbad).
Defined.

Lemma forward_hub_padded_witness :
  cumulative_len_rank Demo.hub_padded !! 0 = None ∧
  (Demo.forward true true Demo.hidden_states None (Some Demo.position_ids)
     None false false Demo.hub_padded).2 = Demo.hub_padded.
Proof.
  assert (Hn : cumulative_len_rank Demo.hub_padded !! 0 = None)
    by (vm_compute; reflexivity).
  split; [exact Hn |].
  exact (forward_hub_padded Z.add Z.mul Z.opp Demo.self (Demo.kernels true true) 0
           Demo.hidden_states None (Some Demo.position_ids) None false false
           Demo.hub_padded Hn).
Defined.

Lemma forward_hub_single_sample_witness :
  let hidden_states := Tensor [1; 2; 4] [1; 2; 3; 4; 5; 6; 7; 8]%Z in
  let hub :=
    {| cumulative_len_rank := {[ 0 := [[0; 2]]%Z ]};
       indexes_rank := {[ 0 := Tensor [1; 2] [0; 1]%Z ]};
       max_seqlen_rank := {[ 0 := 2%Z ]} |} in
  (size3 hidden_states = Ok (1, 2) ∧ 1 ≤ 1) ∧
  is_Ok (Demo.forward true true hidden_states None None None false false hub).1 = true ∧
  (Demo.forward true true hidden_states None None None false false hub).2 = hub.
Proof.
  intros hidden_states hub.
  split; [split; [reflexivity | lia] |].
  split; [vm_compute; reflexivity |].
  exact (forward_hub_single_sample Z.add Z.mul Z.opp Demo.self (Demo.kernels true true) 0
           hidden_states None None None false false hub 1 2 eq_refl (le_n 1)).
Defined.

(** ** The padded path, stage by stage *)

Lemma transpose12_shape {A} (x : tensor A) s0 s1 s2 rest :
  shape x = s0 :: s1 :: s2 :: rest → wf x →
  ∃ y, transpose12 x = Ok y ∧ shape y = s0 :: s2 :: s1 :: rest ∧ wf y.
Proof.
  destruct x as [sx ex]. cbn [shape]. intros -> Hwf. unfold wf in Hwf. simpl in Hwf.
  unfold transpose12. cbn [shape data]. eexists. split; [done |]. split; [done |].
  unfold wf. cbn [shape data].
  rewrite (length_concat_uniform (s2 * s1 * numel rest)).
  - rewrite length_fmap, length_chunks. simpl. lia.
  - apply Forall_fmap.
    eapply Forall_impl; [apply (Forall_length_chunks (s1 * s2 * numel rest) s0); lia |].
    intros blk Hblk. simpl in *.
    by destruct (transpose_block (numel rest) s1 s2 blk Hblk) as [-> _].
Qed.

(** A projection viewed as [bsz, q_len, heads, head_dim] and transposed. *)
Lemma split_heads {R} (p : tensor R) bsz q_len H D :
  shape p = [bsz; q_len; H * D] → wf p →
  ∃ t, view [bsz; q_len; H; D] p ≫= transpose12 = Ok t ∧
       shape t = [bsz; H; q_len; D] ∧ wf t ∧
       transpose12 t = Ok (Tensor [bsz; q_len; H; D] (data p)).
Proof.
  intros Hs Hwf. unfold view, reshape. rewrite Hs.
  assert (Hn : numel [bsz; q_len; H; D] = numel [bsz; q_len; H * D]) by (simpl; lia).
  rewrite Hn, Nat.eqb_refl. cbn [mbind result_bind].
  assert (Hwv : wf (Tensor [bsz; q_len; H; D] (data p)))
    by (unfold wf in *; cbn [data shape]; by rewrite Hn, <- Hs).
  destruct (transpose12_shape (Tensor [bsz; q_len; H; D] (data p)) bsz q_len H [D])
    as (t & Ht & Hts & Hwt); [done | done |].
  exists t. split_and!; try done.
  pose proof (transpose12_twice (Tensor [bsz; q_len; H; D] (data p)) bsz q_len H [D]
                eq_refl Hwv) as Htw.
  by rewrite Ht in Htw.
Qed.

Section RotaryOk.
Context {R : Type} (radd rmul : R → R → R) (rneg : R → R).

Lemma apply_rotary_pos_emb_ok
    (q k cos sin : tensor R) (ids : tensor Z) (b b' h hk s d L : nat) :
  shape q = [b; h; s; d] → wf q →
  shape k = [b; hk; s; d] → wf k →
  shape cos = [1; 1; L; d] → wf cos →
  shape sin = [1; 1; L; d] → wf sin →
  shape ids = [b'; s] → wf ids → b' = b ∨ b' = 1 →
  Forall (λ i, (- Z.of_nat L ≤ i < Z.of_nat L)%Z) (data ids) →
  ∃ q' k',
    apply_rotary_pos_emb radd rmul rneg q k cos sin (Some ids) = Ok (q', k') ∧
    shape q' = shape q ∧ wf q' ∧ shape k' = shape k ∧ wf k'.
Proof.
  intros Hq Hwq Hk Hwk Hc Hwc Hsn Hws Hi Hwi Hb Hrange.
  assert (Hlc : length (data cos) = L * d)
    by (unfold wf in Hwc; rewrite Hwc, Hc; simpl; lia).
  assert (Hls : length (data sin) = L * d)
    by (unfold wf in Hws; rewrite Hws, Hsn; simpl; lia).
  destruct (gather_rows (data cos) L d ids b' s Hlc Hi Hwi Hrange)
    as (cg & Hcg & Hcgs & Hcgw & _).
  destruct (gather_rows (data sin) L d ids b' s Hls Hi Hwi Hrange)
    as (sg & Hsg & Hsgs & Hsgw & _).
  destruct (embed_one radd rmul rneg q cg sg b b' h s d)
    as (q' & Hq' & Hq's & Hwq' & _); try done.
  destruct (embed_one radd rmul rneg k cg sg b b' hk s d)
    as (k' & Hk' & Hk's & Hwk' & _); try done.
  exists q', k'. split_and!; try done.
  unfold apply_rotary_pos_emb.
  rewrite (squeeze_table cos L d Hc), (squeeze_table sin L d Hsn).
  cbn [mbind result_bind]. rewrite Hcg, Hsg. cbn [mbind result_bind].
  revert Hq' Hk'. cbn [mbind result_bind].
  destruct (mul rmul q cg) as [qc|]; cbn [mbind result_bind]; [|done].
  destruct (rotate_half rneg q) as [rq|]; cbn [mbind result_bind]; [|done].
  destruct (mul rmul rq sg) as [qr|]; cbn [mbind result_bind]; [|done].
  intros ->. cbn [mbind result_bind].
  destruct (mul rmul k cg) as [kc|]; cbn [mbind result_bind]; [|done].
  destruct (rotate_half rneg k) as [rk|]; cbn [mbind result_bind]; [|done].
  destruct (mul rmul rk sg) as [kr|]; cbn [mbind result_bind]; [|done].
  by intros ->.
Qed.
End RotaryOk.

Section ForwardDense.
Context {R : Type} (radd rmul : R → R → R) (rneg : R → R).
Context (self : InternLMAttention R) (K : Kernels R) (rank : nat).

(** Lines 63-84 of a padded call on well-shaped projections and tables:
    [kv] is the table length asked of [rotary_emb]. *)
Lemma rotary_states_padded hidden_states idx ids past
    (qp kp vp cos sin : tensor R) bsz q_len hsz b' L kv :
  shape hidden_states = [bsz; q_len; hsz] →
  q_proj self hidden_states = Ok qp →
  shape qp = [bsz; q_len; num_heads self * head_dim self] → wf qp →
  k_proj self hidden_states = Ok kp →
  shape kp = [bsz; q_len; num_heads self * head_dim self] → wf kp →
  v_proj self hidden_states = Ok vp →
  shape vp = [bsz; q_len; num_heads self * head_dim self] → wf vp →
  match past return result nat with
  | Some (past_key, _) => past_len ← size_last2 past_key; Ok (q_len + past_len)
  | None => Ok q_len
  end = Ok kv →
  (∀ v, rotary_emb self v kv = Ok (cos, sin)) →
  shape cos = [1; 1; L; head_dim self] → wf cos →
  shape sin = [1; 1; L; head_dim self] → wf sin →
  shape ids = [b'; q_len] → wf ids → b' = bsz ∨ b' = 1 →
  Forall (λ i, (- Z.of_nat L ≤ i < Z.of_nat L)%Z) (data ids) →
  ∃ query_states key_states value_states,
    (qh ← view [bsz; q_len; num_heads self; head_dim self] qp ≫= transpose12;
     kh ← view [bsz; q_len; num_heads self; head_dim self] kp ≫= transpose12;
     apply_rotary_pos_emb radd rmul rneg qh kh cos sin (Some ids))
    = Ok (query_states, key_states) ∧
    view [bsz; q_len; num_heads self; head_dim self] vp ≫= transpose12
    = Ok value_states ∧
    shape query_states = [bsz; num_heads self; q_len; head_dim self] ∧
    wf query_states ∧
    shape key_states = [bsz; num_heads self; q_len; head_dim self] ∧
    wf key_states ∧
    shape value_states = [bsz; num_heads self; q_len; head_dim self] ∧
    wf value_states ∧
    transpose12 value_states
    = Ok (Tensor [bsz; q_len; num_heads self; head_dim self] (data vp)) ∧
    rotary_states radd rmul rneg self None idx hidden_states (Some ids) past
    = Ok (bsz, q_len, query_states, key_states, value_states).
Proof.
  intros Hhs Hq Hqs Hwq Hk Hks Hwk Hv Hvs Hwv Hkv Hrot Hc Hwc Hsn Hws Hi Hwi Hb Hrange.
  destruct (split_heads qp bsz q_len (num_heads self) (head_dim self) Hqs Hwq)
    as (qh & Hqh & Hqhs & Hwqh & _).
  destruct (split_heads kp bsz q_len (num_heads self) (head_dim self) Hks Hwk)
    as (kh & Hkh & Hkhs & Hwkh & _).
  destruct (split_heads vp bsz q_len (num_heads self) (head_dim self) Hvs Hwv)
    as (vh & Hvh & Hvhs & Hwvh & Hvback).
  destruct (apply_rotary_pos_emb_ok radd rmul rneg qh kh cos sin ids
              bsz b' (num_heads self) (num_heads self) q_len (head_dim self) L)
    as (q' & k' & Hrot' & Hq's & Hwq' & Hk's & Hwk'); try done.
  rewrite Hqhs in Hq's. rewrite Hkhs in Hk's.
  exists q', k', vh. split_and!; try done.
  - revert Hqh Hkh. cbn [mbind result_bind]. by intros -> ->.
  - unfold rotary_states, size3. rewrite Hhs. cbn [mbind result_bind].
    rewrite Hq. cbn [mbind result_bind].
    revert Hqh. cbn [mbind result_bind]. intros ->. cbn [mbind result_bind].
    rewrite Hk. cbn [mbind result_bind].
    revert Hkh. cbn [mbind result_bind]. intros ->. cbn [mbind result_bind].
    rewrite Hv. cbn [mbind result_bind].
    revert Hvh. cbn [mbind result_bind]. intros ->. cbn [mbind result_bind].
    assert (Hsl : size_last2 kh = Ok q_len) by (unfold size_last2; by rewrite Hkhs).
    rewrite Hsl. cbn [mbind result_bind].
    rewrite Hkv. cbn [mbind result_bind].
    rewrite Hrot. cbn [mbind result_bind].
    rewrite bool_decide_eq_false_2 by (by intros [? ?]).
    by rewrite Hrot'.
Qed.

(** The dense kernel call and what follows it (lines 98-100, 122-142). *)
Lemma dense_attention_value mask bsz q_len (uc : bool) hub
    (query_states key_states value_states query key value : tensor R) :
  cumulative_len_rank hub !! rank = None → SUPPORT_FLASH2 K = true →
  transpose12 query_states = Ok query → transpose12 key_states = Ok key →
  transpose12 value_states = Ok value →
  match attn_kernel K rank
          (bool_decide (is_Some (cumulative_len_rank hub !! rank)))
          (max_seqlen_rank hub !! rank) bsz q_len
          query_states key_states value_states mask hub with
  | (Raise e, hub1) => (Raise e, hub1)
  | (Ok o, hub1) =>
      match reshape [bsz; q_len; hidden_size self] o with
      | Raise e => (Raise e, hub1)
      | Ok o' =>
          match o_proj self o' with
          | Raise e => (Raise e, hub1)
          | Ok o'' =>
              (Ok (o'', @None (tensor R),
                   if uc then Some (key_states, value_states) else None),
               hub1)
          end
      end
  end
  = (attn_output ← flash_attn_func K query key value;
     attn_output ← reshape [bsz; q_len; hidden_size self] attn_output;
     attn_output ← o_proj self attn_output;
     Ok (attn_output, @None (tensor R),
         if uc then Some (key_states, value_states) else None),
     hub).
Proof.
  intros Hhub Hflash Hq Hk Hv.
  rewrite attn_kernel_select, select_backend_flash, Hflash, Hhub.
  rewrite bool_decide_eq_false_2 by (by intros [? ?]).
  unfold run_backend, mbind at 1 2 3, hubM_bind at 1 2 3, lift at 1 2 3.
  rewrite Hq, Hk, Hv. unfold lift.
  destruct (flash_attn_func K query key value) as [o|]; cbn [mbind result_bind];
    [|done].
  destruct (reshape _ o) as [o'|]; cbn [mbind result_bind]; [|done].
  by destruct (o_proj self o').
Qed.

(** X13: a padded call without a previous cache, on projections of
    shape [bsz, q_len, heads * head_dim], tables [1, 1, L, head_dim] and
    positions within the table.  The rotary table is asked for [q_len]
    positions; every stage up to the kernel succeeds; the dense causal
    kernel is called with query and key in the layout
    [bsz, q_len, heads, head_dim] and with the value projection viewed
    in that layout; the call returns the output projection of the
    kernel's result reshaped to [bsz, q_len, hidden_size], and the new
    cache, when asked for, is the rotated keys and the head-split
    values.  The hub is left as it was. *)
Theorem forward_dense_pipeline hidden_states mask ids oa uc hub
    (qp kp vp cos sin : tensor R) bsz q_len hsz b' L :
  cumulative_len_rank hub !! rank = None → SUPPORT_FLASH2 K = true →
  shape hidden_states = [bsz; q_len; hsz] →
  q_proj self hidden_states = Ok qp →
  shape qp = [bsz; q_len; num_heads self * head_dim self] → wf qp →
  k_proj self hidden_states = Ok kp →
  shape kp = [bsz; q_len; num_heads self * head_dim self] → wf kp →
  v_proj self hidden_states = Ok vp →
  shape vp = [bsz; q_len; num_heads self * head_dim self] → wf vp →
  (∀ v, rotary_emb self v q_len = Ok (cos, sin)) →
  shape cos = [1; 1; L; head_dim self] → wf cos →
  shape sin = [1; 1; L; head_dim self] → wf sin →
  shape ids = [b'; q_len] → wf ids → b' = bsz ∨ b' = 1 →
  Forall (λ i, (- Z.of_nat L ≤ i < Z.of_nat L)%Z) (data ids) →
  ∃ query_states key_states value_states query key,
    (qh ← view [bsz; q_len; num_heads self; head_dim self] qp ≫= transpose12;
     kh ← view [bsz; q_len; num_heads self; head_dim self] kp ≫= transpose12;
     apply_rotary_pos_emb radd rmul rneg qh kh cos sin (Some ids))
    = Ok (query_states, key_states) ∧
    view [bsz; q_len; num_heads self; head_dim self] vp ≫= transpose12
    = Ok value_states ∧
    transpose12 query_states = Ok query ∧ transpose12 key_states = Ok key ∧
    shape query = [bsz; q_len; num_heads self; head_dim self] ∧
    shape key = [bsz; q_len; num_heads self; head_dim self] ∧
    internlm_attn_forward radd rmul rneg self K rank
      hidden_states mask (Some ids) None oa uc hub
    = (attn_output ←
         flash_attn_func K query key
           (Tensor [bsz; q_len; num_heads self; head_dim self] (data vp));
       attn_output ← reshape [bsz; q_len; hidden_size self] attn_output;
       attn_output ← o_proj self attn_output;
       Ok (attn_output, None,
           if uc then Some (key_states, value_states) else None),
       hub).
Proof.
  intros Hhub Hflash Hhs Hq Hqs Hwq Hk Hks Hwk Hv Hvs Hwv Hrot
    Hc Hwc Hsn Hws Hi Hwi Hb Hrange.
  destruct (rotary_states_padded hidden_states (indexes_rank hub !! rank) ids None
              qp kp vp cos sin bsz q_len hsz b' L q_len)
    as (q' & k' & vh & Hrq & Hvh & Hq's & Hwq' & Hk's & Hwk' & Hvhs & Hwvh
        & Hvback & Hrs); try done.
  destruct (transpose12_shape q' _ _ _ _ Hq's Hwq') as (qT & HqT & HqTs & _).
  destruct (transpose12_shape k' _ _ _ _ Hk's Hwk') as (kT & HkT & HkTs & _).
  exists q', k', vh, qT, kT. split_and!; try done.
  rewrite forward_unfold, Hhub, Hrs. cbn [merge_cache]. rewrite <- Hhub.
  by apply dense_attention_value.
Qed.

(** X14: a padded call with a previous cache [B, H, N, D] (a decoding
    step).  The rotary table is asked for [q_len + N] positions; the new
    keys and values are appended to the cache along the sequence axis;
    the dense causal kernel is called with the query in the layout
    [bsz, q_len, heads, head_dim] and with the merged keys and values in
    the layout [bsz, N + q_len, heads, head_dim]; the new cache, when
    asked for, is the merged pair. *)
Theorem forward_dense_cached hidden_states mask ids oa uc hub
    (qp kp vp cos sin past_key past_value : tensor R) bsz q_len hsz b' L N :
  cumulative_len_rank hub !! rank = None → SUPPORT_FLASH2 K = true →
  shape hidden_states = [bsz; q_len; hsz] →
  q_proj self hidden_states = Ok qp →
  shape qp = [bsz; q_len; num_heads self * head_dim self] → wf qp →
  k_proj self hidden_states = Ok kp →
  shape kp = [bsz; q_len; num_heads self * head_dim self] → wf kp →
  v_proj self hidden_states = Ok vp →
  shape vp = [bsz; q_len; num_heads self * head_dim self] → wf vp →
  shape past_key = [bsz; num_heads self; N; head_dim self] → wf past_key →
  shape past_value = [bsz; num_heads self; N; head_dim self] → wf past_value →
  (∀ v, rotary_emb self v (q_len + N) = Ok (cos, sin)) →
  shape cos = [1; 1; L; head_dim self] → wf cos →
  shape sin = [1; 1; L; head_dim self] → wf sin →
  shape ids = [b'; q_len] → wf ids → b' = bsz ∨ b' = 1 →
  Forall (λ i, (- Z.of_nat L ≤ i < Z.of_nat L)%Z) (data ids) →
  ∃ query_states key_states value_states query merged_key merged_value key value,
    (qh ← view [bsz; q_len; num_heads self; head_dim self] qp ≫= transpose12;
     kh ← view [bsz; q_len; num_heads self; head_dim self] kp ≫= transpose12;
     apply_rotary_pos_emb radd rmul rneg qh kh cos sin (Some ids))
    = Ok (query_states, key_states) ∧
    view [bsz; q_len; num_heads self; head_dim self] vp ≫= transpose12
    = Ok value_states ∧
    merge_cache (Some (past_key, past_value)) key_states value_states
    = Ok (merged_key, merged_value) ∧
    transpose12 query_states = Ok query ∧
    transpose12 merged_key = Ok key ∧ transpose12 merged_value = Ok value ∧
    shape query = [bsz; q_len; num_heads self; head_dim self] ∧
    shape key = [bsz; N + q_len; num_heads self; head_dim self] ∧
    shape value = [bsz; N + q_len; num_heads self; head_dim self] ∧
    internlm_attn_forward radd rmul rneg self K rank
      hidden_states mask (Some ids) (Some (past_key, past_value)) oa uc hub
    = (attn_output ← flash_attn_func K query key value;
       attn_output ← reshape [bsz; q_len; hidden_size self] attn_output;
       attn_output ← o_proj self attn_output;
       Ok (attn_output, None,
           if uc then Some (merged_key, merged_value) else None),
       hub).
Proof.
  intros Hhub Hflash Hhs Hq Hqs Hwq Hk Hks Hwk Hv Hvs Hwv Hpk Hwpk Hpv Hwpv Hrot
    Hc Hwc Hsn Hws Hi Hwi Hb Hrange.
  destruct (rotary_states_padded hidden_states (indexes_rank hub !! rank) ids
              (Some (past_key, past_value))
              qp kp vp cos sin bsz q_len hsz b' L (q_len + N))
    as (q' & k' & vh & Hrq & Hvh & Hq's & Hwq' & Hk's & Hwk' & Hvhs & Hwvh
        & Hvback & Hrs); try done.
  { unfold size_last2. by rewrite Hpk. }
  destruct (narrow_cat [bsz; num_heads self] [head_dim self] N q_len past_key k'
              Hpk Hwpk Hk's Hwk') as (mk & Hmk & Hmks & Hwmk & _).
  destruct (narrow_cat [bsz; num_heads self] [head_dim self] N q_len past_value vh
              Hpv Hwpv Hvhs Hwvh) as (mv & Hmv & Hmvs & Hwmv & _).
  cbn [length app] in Hmk, Hmv, Hmks, Hmvs.
  assert (Hm : merge_cache (Some (past_key, past_value)) k' vh = Ok (mk, mv)).
  { unfold merge_cache. rewrite Hmk. cbn [mbind result_bind]. by rewrite Hmv. }
  destruct (transpose12_shape q' _ _ _ _ Hq's Hwq') as (qT & HqT & HqTs & _).
  destruct (transpose12_shape mk _ _ _ _ Hmks Hwmk) as (kT & HkT & HkTs & _).
  destruct (transpose12_shape mv _ _ _ _ Hmvs Hwmv) as (vT & HvT & HvTs & _).
  exists q', k', vh, qT, mk, mv, kT, vT. split_and!; try done.
  rewrite forward_unfold, Hhub, Hrs, Hm. rewrite <- Hhub.
  by apply dense_attention_value.
Qed.
End ForwardDense.

Lemma forward_dense_pipeline_witness :
  let hs := Demo.hidden_states in
  ∃ query_states key_states value_states query key,
    (qh ← view [2; 3; 2; 2] hs ≫= transpose12;
     kh ← view [2; 3; 2; 2] hs ≫= transpose12;
     apply_rotary_pos_emb Z.add Z.mul Z.opp qh kh
       (Demo.ones [1; 1; 3; 2]) (Demo.zeros [1; 1; 3; 2]) (Some Demo.position_ids))
    = Ok (query_states, key_states) ∧
    view [2; 3; 2; 2] hs ≫= transpose12 = Ok value_states ∧
    transpose12 query_states = Ok query ∧ transpose12 key_states = Ok key ∧
    shape query = [2; 3; 2; 2] ∧ shape key = [2; 3; 2; 2] ∧
    Demo.forward true true hs None (Some Demo.position_ids) None false true
      Demo.hub_padded
    = (attn_output ← flash_attn_func (Demo.kernels true true) query key
                       (Tensor [2; 3; 2; 2] (data hs));
       attn_output ← reshape [2; 3; 4] attn_output;
       attn_output ← o_proj Demo.self attn_output;
       Ok (attn_output, None, Some (key_states, value_states)),
       Demo.hub_padded).
Proof.
  intros hs.
  assert (Hn : cumulative_len_rank Demo.hub_padded !! 0 = None)
    by (vm_compute; reflexivity).
  assert (Hrange : Forall (λ i, (- Z.of_nat 3 ≤ i < Z.of_nat 3)%Z)
                     (data Demo.position_ids))
    by (repeat (apply Forall_cons; split; [lia |]); done).
  exact (forward_dense_pipeline Z.add Z.mul Z.opp Demo.self (Demo.kernels true true) 0
           hs None Demo.position_ids false true Demo.hub_padded
           hs hs hs (Demo.ones [1; 1; 3; 2]) (Demo.zeros [1; 1; 3; 2]) 2 3 4 2 3
           Hn eq_refl eq_refl eq_refl eq_refl eq_refl eq_refl eq_refl eq_refl
           eq_refl eq_refl eq_refl (λ _, eq_refl) eq_refl eq_refl eq_refl eq_refl
           eq_refl eq_refl (or_introl eq_refl) Hrange).
Defined.

Lemma forward_dense_cached_witness :
  let hs := Demo.one_token in
  let past := Demo.past_key in
  ∃ query_states key_states value_states query merged_key merged_value key value,
    (qh ← view [2; 1; 2; 2] hs ≫= transpose12;
     kh ← view [2; 1; 2; 2] hs ≫= transpose12;
     apply_rotary_pos_emb Z.add Z.mul Z.opp qh kh
       (Demo.ones [1; 1; 2; 2]) (Demo.zeros [1; 1; 2; 2]) (Some Demo.one_position))
    = Ok (query_states, key_states) ∧
    view [2; 1; 2; 2] hs ≫= transpose12 = Ok value_states ∧
    merge_cache (Some (past, past)) key_states value_states
    = Ok (merged_key, merged_value) ∧
    transpose12 query_states = Ok query ∧
    transpose12 merged_key = Ok key ∧ transpose12 merged_value = Ok value ∧
    shape query = [2; 1; 2; 2] ∧
    shape key = [2; 1 + 1; 2; 2] ∧ shape value = [2; 1 + 1; 2; 2] ∧
    Demo.forward true true hs None (Some Demo.one_position) (Some (past, past))
      false true Demo.hub_padded
    = (attn_output ← flash_attn_func (Demo.kernels true true) query key value;
       attn_output ← reshape [2; 1; 4] attn_output;
       attn_output ← o_proj Demo.self attn_output;
       Ok (attn_output, None, Some (merged_key, merged_value)),
       Demo.hub_padded).
Proof.
  intros hs past.
  assert (Hn : cumulative_len_rank Demo.hub_padded !! 0 = None)
    by (vm_compute; reflexivity).
  assert (Hrange : Forall (λ i, (- Z.of_nat 2 ≤ i < Z.of_nat 2)%Z)
                     (data Demo.one_position))
    by (repeat (apply Forall_cons; split; [lia |]); done).
  exact (forward_dense_cached Z.add Z.mul Z.opp Demo.self (Demo.kernels true true) 0
           hs None Demo.one_position false true Demo.hub_padded
           hs hs hs (Demo.ones [1; 1; 2; 2]) (Demo.zeros [1; 1; 2; 2]) past past
           2 1 4 2 2 1
           Hn eq_refl eq_refl eq_refl eq_refl eq_refl eq_refl eq_refl eq_refl
           eq_refl eq_refl eq_refl eq_refl eq_refl eq_refl eq_refl
           (λ _, eq_refl) eq_refl eq_refl eq_refl eq_refl
           eq_refl eq_refl (or_introl eq_refl) Hrange).
Defined.

(** * The chat tool *)

Local Set Warnings "-clear-no-such-hyp".

(** ** Dicts *)

Lemma dict_get_set_eq {V} k (v : V) d : dict_get k (dict_set k v d) = Some v.
Proof.
  induction d as [|[k' v'] d IH]; simpl.
  - by rewrite decide_True.
  - destruct (decide (k' = k)) as [->|Hne]; simpl.
    + by rewrite decide_True.
    + by rewrite decide_False.
Qed.

Lemma dict_get_set_ne {V} k k' (v : V) d :
  k ≠ k' → dict_get k (dict_set k' v d) = dict_get k d.
Proof.
  intros Hne. induction d as [|[k0 v0] d IH]; simpl.
  - by rewrite decide_False.
  - destruct (decide (k0 = k')) as [->|Hne0]; simpl.
    + by rewrite !decide_False.
    + by rewrite IH.
Qed.

Lemma dict_set_keys_elem {V} k (v : V) d k0 :
  k0 ∈ (dict_set k v d).*1 ↔ k0 = k ∨ k0 ∈ d.*1.
Proof.
  induction d as [|[k' v'] d IH]; simpl.
  - rewrite list_elem_of_singleton. set_solver.
  - destruct (decide (k' = k)) as [->|Hne]; simpl; set_solver.
Qed.

Lemma dict_set_fresh {V} k (v : V) d :
  k ∉ d.*1 → dict_set k v d = d ++ [(k, v)].
Proof.
  induction d as [|[k' v'] d IH]; simpl; [done |]. intros Hk.
  rewrite decide_False by set_solver. rewrite IH; [done | set_solver].
Qed.

Lemma dict_set_NoDup {V} k (v : V) d : NoDup d.*1 → NoDup (dict_set k v d).*1.
Proof.
  induction d as [|[k' v'] d IH]; simpl; intros Hd.
  - apply NoDup_singleton.
  - apply NoDup_cons in Hd as [Hk' Hd].
    destruct (decide (k' = k)) as [->|Hne]; simpl.
    + by apply NoDup_cons.
    + apply NoDup_cons. split; [|by apply IH].
      rewrite dict_set_keys_elem. intros [?|?]; done.
Qed.

Lemma dict_get_None {V} k (d : pydict V) : dict_get k d = None ↔ k ∉ d.*1.
Proof.
  induction d as [|[k' v'] d IH]; simpl; [set_solver |].
  destruct (decide (k' = k)) as [->|Hne]; [set_solver |].
  rewrite IH. set_solver.
Qed.

Lemma dict_get_app {V} k (d1 d2 : pydict V) :
  dict_get k (d1 ++ d2)
  = match dict_get k d1 with Some v => Some v | None => dict_get k d2 end.
Proof.
  induction d1 as [|[k' v'] d1 IH]; simpl; [done |].
  by destruct (decide (k' = k)).
Qed.

(** ** Strings *)

Lemma startswith_empty key : startswith key "" = true.
Proof. by destruct key. Qed.

Lemma startswith_app p rest : startswith (p +:+ rest) p = true.
Proof.
  induction p as [|a p IH]; simpl; [apply startswith_empty |]. by rewrite decide_True.
Qed.

Lemma string_drop_app p rest : string_drop (String.length p) (p +:+ rest) = rest.
Proof. induction p as [|a p IH]; simpl; [by destruct rest | exact IH]. Qed.

Lemma startswith_inv key p :
  startswith key p = true → key = p +:+ string_drop (String.length p) key.
Proof.
  revert key. induction p as [|a p IH]; intros key; simpl; [by destruct key |].
  destruct key as [|b key]; [done |].
  simpl. case_decide; [subst b | done]. intros H.
  change (String a p +:+ ?s) with (String a (p +:+ s)). f_equal. by apply IH.
Qed.

(** Stripping gives back what was put after the prefix, and leaves a key
    without the prefix alone. *)
Lemma new_key_app p rest : new_key p (p +:+ rest) = rest.
Proof. unfold new_key. by rewrite startswith_app, string_drop_app. Qed.

Lemma new_key_empty key : new_key "" key = key.
Proof. unfold new_key. by rewrite startswith_empty. Qed.

Lemma new_key_no_prefix p key : startswith key p = false → new_key p key = key.
Proof. unfold new_key. by intros ->. Qed.

(** ** [remove_prefix] *)

Section RemovePrefix.
Context {V : Type}.
Implicit Types (d acc : pydict V) (p k : string).

(** The loop body stores the value under [new_key]. *)
Lemma remove_prefix_foldl d p acc :
foldl (λ new_state_dict '(key, value),
         if startswith key p then
           dict_set (string_drop (String.length p) key) value new_state_dict
         else dict_set key value new_state_dict) acc d
= foldl (λ new_state_dict kv, dict_set (new_key p kv.1) kv.2 new_state_dict) acc d.
Proof.
revert acc. induction d as [|[k v] d IH]; intros acc; simpl; [done |].
rewrite IH. unfold new_key. simpl. by destruct (startswith k p).
Qed.

Lemma foldl_dict_set_get p d acc k :
dict_get k (foldl (λ new kv, dict_set (new_key p kv.1) kv.2 new) acc d)
= match dict_get k (reverse (prod_map (new_key p) id <$> d)) with
  | Some v => Some v
  | None => dict_get k acc
  end.
Proof.
revert acc. induction d as [|[k0 v0] d IH]; intros acc; simpl; [done |].
rewrite IH, reverse_cons, dict_get_app. simpl.
destruct (dict_get k (reverse _)); [done |].
destruct (decide (new_key p k0 = k)) as [<-|Hne].
- apply dict_get_set_eq.
- by apply dict_get_set_ne.
Qed.

Lemma foldl_dict_set_NoDup p d acc :
NoDup acc.*1 →
NoDup (foldl (λ new kv, dict_set (new_key p kv.1) kv.2 new) acc d).*1.
Proof.
revert acc. induction d as [|[k0 v0] d IH]; intros acc Hacc; simpl; [done |].
apply IH. by apply dict_set_NoDup.
Qed.

Lemma foldl_dict_set_keys p d acc k :
k ∈ (foldl (λ new kv, dict_set (new_key p kv.1) kv.2 new) acc d).*1
↔ k ∈ acc.*1 ∨ ∃ k0, k0 ∈ d.*1 ∧ new_key p k0 = k.
Proof.
revert acc. induction d as [|[k0 v0] d IH]; intros acc; simpl.
- set_solver.
- rewrite IH, dict_set_keys_elem. split.
  + intros [[->|?]|(k1 & ? & ?)]; [right | by left | right].
    * exists k0. set_solver.
    * exists k1. set_solver.
  + intros [?|(k1 & Hk1 & <-)]; [by left; right |].
    apply elem_of_cons in Hk1 as [->|?]; [by left; left |].
    right. by exists k1.
Qed.

Lemma foldl_dict_set_fresh p d acc :
NoDup (acc.*1 ++ (new_key p <$> d.*1)) →
foldl (λ new kv, dict_set (new_key p kv.1) kv.2 new) acc d
= acc ++ (prod_map (new_key p) id <$> d).
Proof.
revert acc. induction d as [|[k0 v0] d IH]; intros acc Hnd; simpl.
- by rewrite app_nil_r.
- simpl in Hnd. rewrite dict_set_fresh.
  + rewrite IH.
    * by rewrite <- app_assoc.
    * rewrite fmap_app. simpl. by rewrite <- app_assoc.
  + apply NoDup_app in Hnd as (_ & Hdisj & _).
    intros Hin. apply (Hdisj _ Hin). set_solver.
Qed.

(** X15: a lookup in the dict returned by [remove_prefix] finds the value
  of the last entry of [state_dict], in iteration order, whose stripped
  key is the key looked up (and nothing when there is none): when two
  keys collapse to one, the later entry wins. *)
Theorem remove_prefix_lookup d p k :
dict_get k (remove_prefix d p)
= dict_get k (reverse (prod_map (new_key p) id <$> d)).
Proof.
unfold remove_prefix. rewrite remove_prefix_foldl, foldl_dict_set_get.
by destruct (dict_get k (reverse _)).
Qed.

(** X16: the returned dict has distinct keys, and its keys are exactly the
  stripped keys of [state_dict]. *)
Theorem remove_prefix_keys d p :
NoDup (remove_prefix d p).*1 ∧
∀ k, k ∈ (remove_prefix d p).*1 ↔ ∃ k0, k0 ∈ d.*1 ∧ new_key p k0 = k.
Proof.
unfold remove_prefix. rewrite remove_prefix_foldl. split.
- apply foldl_dict_set_NoDup. constructor.
- intros k. rewrite foldl_dict_set_keys. set_solver.
Qed.

(** X17: when no two keys collapse to the same stripped key, the returned
  dict is [state_dict] with every key stripped, entry by entry in the
  same order; in particular the value stored under [prefix + rest] is
  found under [rest]. *)
Theorem remove_prefix_no_collision d p :
NoDup (new_key p <$> d.*1) →
remove_prefix d p = prod_map (new_key p) id <$> d ∧
∀ rest v, dict_get (p +:+ rest) d = Some v →
          dict_get rest (remove_prefix d p) = Some v.
Proof.
intros Hnd.
assert (Heq : remove_prefix d p = prod_map (new_key p) id <$> d).
{ unfold remove_prefix. rewrite remove_prefix_foldl.
  by rewrite foldl_dict_set_fresh. }
split; [done |]. intros rest v Hget. rewrite Heq. clear Heq.
induction d as [|[k0 v0] d IH]; simpl in *; [done |].
apply NoDup_cons in Hnd as [Hk0 Hnd].
destruct (decide (k0 = p +:+ rest)) as [->|Hne].
- rewrite new_key_app, decide_True by done. done.
- destruct (decide (new_key p k0 = rest)) as [Heq|Hne'].
  + exfalso. apply Hk0. rewrite Heq.
    apply list_elem_of_fmap. exists (p +:+ rest). split; [by rewrite new_key_app |].
    destruct (decide (p +:+ rest ∈ d.*1)) as [Hin|Hn]; [done |].
    apply dict_get_None in Hn. congruence.
  + by apply IH.
Qed.

(** X18: when no key starts with the prefix, and so for the empty dict,
  or when the prefix is empty, a dict is returned as it is. *)
Theorem remove_prefix_unchanged d p :
NoDup d.*1 →
p = "" ∨ (∀ k, k ∈ d.*1 → startswith k p = false) →
remove_prefix d p = d.
Proof.
intros Hnd Hp.
assert (Hkeys : ∀ k, k ∈ d.*1 → new_key p k = k).
{ intros k Hk. destruct Hp as [->|Hp]; [apply new_key_empty |].
  apply new_key_no_prefix. by apply Hp. }
assert (Hmap : prod_map (new_key p) id <$> d = d).
{ clear Hnd Hp. induction d as [|[k0 v0] d IH]; csimpl; [done |].
  unfold prod_map at 1; simpl. rewrite Hkeys by (csimpl; set_solver).
  f_equal. apply IH. intros k Hk. apply Hkeys. csimpl. set_solver. }
unfold remove_prefix. rewrite remove_prefix_foldl, foldl_dict_set_fresh.
- done.
- simpl. rewrite <- (list_fmap_id d.*1) in Hnd.
  erewrite list_fmap_ext; [exact Hnd |].
  intros i k Hik. simpl. apply Hkeys. by eapply list_elem_of_lookup_2.
Qed.
End RemovePrefix.

Lemma remove_prefix_no_collision_witness :
  let d : pydict nat := [("module.a", 1); ("b", 2); ("module.c", 3)] in
  NoDup (new_key "module." <$> d.*1) ∧
  remove_prefix d "module." = prod_map (new_key "module.") id <$> d ∧
  ∀ rest v, dict_get ("module." +:+ rest) d = Some v →
            dict_get rest (remove_prefix d "module.") = Some v.
Proof.
  intros d.
  assert (Hnd : NoDup (new_key "module." <$> d.*1))
    by (eapply (bool_decide_unpack _); vm_compute; exact I).
  split; [exact Hnd |]. exact (remove_prefix_no_collision d "module." Hnd).
Defined.

Lemma remove_prefix_unchanged_witness :
  let d : pydict nat := [("weight", 1); ("bias", 2)] in
  NoDup d.*1 ∧
  ("model." = "" ∨ (∀ k, k ∈ d.*1 → startswith k "model." = false)) ∧
  remove_prefix d "model." = d.
Proof.
  intros d.
  assert (Hnd : NoDup d.*1) by (eapply (bool_decide_unpack _); vm_compute; exact I).
  assert (Hp : "model." = "" ∨ (∀ k, k ∈ d.*1 → startswith k "model." = false)).
  { right. intros k Hk. simpl in Hk.
    apply elem_of_cons in Hk as [->|Hk]; [reflexivity |].
    apply elem_of_cons in Hk as [->|Hk]; [reflexivity |].
    by apply elem_of_nil in Hk. }
  split; [exact Hnd |]. split; [exact Hp |].
  exact (remove_prefix_unchanged d "model." Hnd Hp).
Defined.

(** ** [get_input] *)

Lemma iter_input_lines ls rest :
  Forall (λ s, s ≠ "") ls →
  iter_input ((Line <$> ls) ++ Line "" :: rest) = (inr ls, rest).
Proof.
  induction 1 as [|s ls Hs _ IH]; csimpl; [done |].
  rewrite decide_False by done. by rewrite IH.
Qed.

Lemma iter_input_undecodable ls rest :
  Forall (λ s, s ≠ "") ls →
  iter_input ((Line <$> ls) ++ Undecodable :: rest) = (inl UnicodeDecodeError, rest).
Proof.
  induction 1 as [|s ls Hs _ IH]; csimpl; [done |].
  rewrite decide_False by done. by rewrite IH.
Qed.

Lemma iter_input_length stdin :
  length (iter_input stdin).2 ≤ length stdin ∧
  ((iter_input stdin).1 = inl UnicodeDecodeError →
   length (iter_input stdin).2 < length stdin).
Proof.
  induction stdin as [|[s|] stdin IH]; simpl; [split; [lia | done] | | split; lia].
  destruct (decide (s = "")); simpl; [split; [lia | done] |].
  destruct (iter_input stdin) as [[e|ls] rest]; simpl in *; split; try lia; try done.
Qed.

(** With more fuel than events the loop does not depend on the fuel. *)
Lemma get_input_loop_fuel fuel1 fuel2 stdin stdout :
  length stdin < fuel1 → length stdin < fuel2 →
  get_input_loop fuel1 stdin stdout = get_input_loop fuel2 stdin stdout ∧
  is_Some (get_input_loop fuel1 stdin stdout).
Proof.
  revert fuel2 stdin stdout.
  induction fuel1 as [|fuel1 IH]; intros [|fuel2] stdin stdout H1 H2; try lia.
  simpl. pose proof (iter_input_length stdin) as [Hle Hlt].
  destruct (iter_input stdin) as [[[]|ls] rest]; simpl in *; [by eauto | | by eauto].
  specialize (Hlt eq_refl). apply IH; lia.
Qed.

(** What was printed before the loop stays in front of what it prints. *)
Lemma get_input_loop_stdout fuel stdin stdout :
  get_input_loop fuel stdin stdout
  = prod_map id (app stdout) <$> get_input_loop fuel stdin [].
Proof.
  revert stdin stdout. induction fuel as [|fuel IH]; intros stdin stdout; simpl; [done |].
  destruct (iter_input stdin) as [[[]|ls] rest]; simpl; try done.
  rewrite (IH rest ((stdout ++ [input_prompt]) ++ [invalid_message])).
  rewrite (IH rest [input_prompt; invalid_message]).
  destruct (get_input_loop fuel rest []) as [[[r rest'] out]|]; simpl; [|done].
  unfold prod_map; simpl. by rewrite <- !app_assoc.
Qed.

(** X19: when the user types non-empty lines and then an empty one,
    [get_input] prints the prompt once and returns the lines joined by
    newlines; the events after the empty line are left unread. *)
Theorem get_input_reads_until_empty_line ls rest :
  Forall (λ s, s ≠ "") ls →
  get_input ((Line <$> ls) ++ Line "" :: rest)
  = Some (inr (String.concat newline ls), rest, [input_prompt]).
Proof.
  intros Hls. unfold get_input. simpl. by rewrite iter_input_lines.
Qed.

(** X20: bytes that do not decode make [get_input] drop the lines typed
    so far, print the complaint and start over on what follows: the
    result is the one of [get_input] on the rest of the input, after one
    more prompt and the complaint. *)
Theorem get_input_restarts_after_undecodable ls stdin :
  Forall (λ s, s ≠ "") ls →
  get_input ((Line <$> ls) ++ Undecodable :: stdin)
  = prod_map id (app [input_prompt; invalid_message]) <$> get_input stdin.
Proof.
  intros Hls. unfold get_input.
  change (get_input_loop (S ?n) ?s []) with
    (match iter_input s with
     | (inr ls0, rest) => Some (inr (String.concat newline ls0), rest, [input_prompt])
     | (inl UnicodeDecodeError, rest) =>
         get_input_loop n rest [input_prompt; invalid_message]
     | (inl EOFError, rest) => Some (inl EOFError, rest, [input_prompt])
     end) at 1.
  rewrite iter_input_undecodable by done.
  rewrite get_input_loop_stdout.
  f_equal. apply get_input_loop_fuel.
  - rewrite length_app, length_fmap. simpl. lia.
  - lia.
Qed.

(** X21: [get_input] always returns: with the text typed, or with
    [EOFError] when standard input ends first; [UnicodeDecodeError] never
    leaves it.  When the input holds no empty line it is [EOFError], with
    all of the input read. *)
Theorem get_input_returns stdin :
  ∃ r rest stdout,
    get_input stdin = Some (r, rest, stdout) ∧
    r ≠ inl UnicodeDecodeError ∧
    (Forall (λ e, e ≠ Line "") stdin → r = inl EOFError ∧ rest = []).
Proof.
  unfold get_input.
  assert (H : ∀ fuel stdin stdout, length stdin < fuel →
            ∃ r rest out,
              get_input_loop fuel stdin stdout = Some (r, rest, out) ∧
              r ≠ inl UnicodeDecodeError ∧
              (Forall (λ e, e ≠ Line "") stdin → r = inl EOFError ∧ rest = [])).
  { clear stdin. induction fuel as [|fuel IH]; intros stdin stdout Hf; [lia |].
    simpl. pose proof (iter_input_length stdin) as [Hle Hlt].
    assert (Hnb : Forall (λ e, e ≠ Line "") stdin →
              match (iter_input stdin).1 with
              | inr _ => False
              | inl EOFError => (iter_input stdin).2 = []
              | inl UnicodeDecodeError => Forall (λ e, e ≠ Line "") (iter_input stdin).2
              end).
    { clear. induction stdin as [|[s|] stdin IHs]; simpl; intros Hall; [done | |].
      - apply Forall_cons in Hall as [Hs Hall].
        destruct (decide (s = "")) as [->|]; [done |].
        specialize (IHs Hall).
        by destruct (iter_input stdin) as [[[]|ls] rest].
      - by apply Forall_cons in Hall as [_ Hall]. }
    destruct (iter_input stdin) as [[[]|ls] rest]; simpl in *.
    - eexists _, _, _. split; [done |]. split; [done |]. intros Hall. by split; [|apply Hnb].
    - specialize (Hlt eq_refl).
      destruct (IH rest ((stdout ++ [input_prompt]) ++ [invalid_message]))
        as (r & rest' & out & Hr & Hne & Hall'); [lia |].
      exists r, rest', out. split; [done |]. split; [done |].
      intros Hall. apply Hall'. by apply Hnb.
    - eexists _, _, _. split; [done |]. split; [done |]. intros Hall.
      by destruct (Hnb Hall). }
  apply H. lia.
Qed.

Lemma get_input_reads_until_empty_line_witness :
  Forall (λ s, s ≠ "") ["hello"; "world"] ∧
  get_input ((Line <$> ["hello"; "world"]) ++ Line "" :: [Line "next"])
  = Some (inr (String.concat newline ["hello"; "world"]), [Line "next"],
          [input_prompt]).
Proof.
  assert (H : Forall (λ s, s ≠ "") ["hello"; "world"])
    by (repeat (apply Forall_cons; split; [done |]); done).
  split; [exact H |].
  exact (get_input_reads_until_empty_line ["hello"; "world"] [Line "next"] H).
Defined.

Lemma get_input_restarts_after_undecodable_witness :
  Forall (λ s, s ≠ "") ["lost"] ∧
  get_input ((Line <$> ["lost"]) ++ Undecodable :: [Line "kept"; Line ""])
  = prod_map id (app [input_prompt; invalid_message])
      <$> get_input [Line "kept"; Line ""].
Proof.
  assert (H : Forall (λ s, s ≠ "") ["lost"])
    by (repeat (apply Forall_cons; split; [done |]); done).
  split; [exact H |].
  exact (get_input_restarts_after_undecodable ["lost"] [Line "kept"; Line ""] H).
Defined.
